(** * go_dependencies: the dependency graph engine

    A shallow embedding of [package.go] and of the graph-building and
    reporting parts of [dependencies.go], with the properties of the
    design document stated and settled against it.

    Go values are embedded as follows.
    - [string] is Go's byte string (a Rocq [string] is a list of bytes).
    - [int] is a 64-bit two's complement integer: a [Z] with the
      wrap-around of [+] written out in [int_add].
    - [*Package] is [ptr]: [None] is [nil], [Some l] the address of the
      [l]-th [Package] allocated; the heap is the list of the allocated
      packages in allocation order.
    - [map[string]*Package] and [map[int]pkgList] are [gmap]s.
    - a run-time panic (nil dereference, slice bound out of range) is the
      result [Panic]; recursion is bounded by an explicit budget, whose
      exhaustion is the result [OutOfFuel]. *)

From Stdlib Require Import ZArith Lia Ascii.
From Stdlib Require String.
From stdpp Require Import gmap strings list sorting relations.

Local Open Scope Z_scope.

(** ** Results of Go code that may panic or recurse forever *)

Inductive Res (A : Type) : Type :=
  | Ok (a : A)
  | Panic
  | OutOfFuel.
Arguments Ok {A} a.
Arguments Panic {A}.
Arguments OutOfFuel {A}.

Definition bind {A B} (r : Res A) (k : A → Res B) : Res B :=
  match r with
  | Ok a => k a
  | Panic => Panic
  | OutOfFuel => OutOfFuel
  end.

Notation "x ←! r ; k" := (bind r (λ x, k))
  (at level 20, r at level 100, k at level 200, right associativity,
   format "x  ←!  r ;  '/' k").

(** ** Go's [int] *)

Definition int_min : Z := - 2 ^ 63.
Definition int_max : Z := 2 ^ 63 - 1.
Definition int_wrap (z : Z) : Z := (z + 2 ^ 63) `mod` 2 ^ 64 - 2 ^ 63.
Definition int_add (a b : Z) : Z := int_wrap (a + b).

(** ** The parts of Go's [strings], [path] and [path/filepath] in use *)

Module GoString.

Definition slash : ascii := "/"%char.
Definition quote : ascii := Ascii.ascii_of_nat 34.

Definition len (s : string) : nat := String.length s.

Fixpoint drop_bytes (n : nat) (s : string) : string :=
  match n, s with
  | O, _ => s
  | S n', String _ s' => drop_bytes n' s'
  | S _, EmptyString => EmptyString
  end.

(** [s[n:]]: panics when [n] exceeds [len(s)]. *)
Definition slice_from (s : string) (n : nat) : Res string :=
  if (n <=? len s)%nat then Ok (drop_bytes n s) else Panic.

(** [strings.Contains(s, substr)] *)
Fixpoint Contains (s substr : string) : bool :=
  String.prefix substr s ||
  match s with
  | EmptyString => false
  | String _ s' => Contains s' substr
  end.

(** [strings.Split(s, sep)] for a one-byte separator, the only use
    made of it. The result is never empty. *)
Fixpoint Split (s : string) (sep : ascii) : list string :=
  match s with
  | EmptyString => [EmptyString]
  | String c s' =>
      if Ascii.eqb c sep then EmptyString :: Split s' sep
      else match Split s' sep with
           | [] => [String c EmptyString]
           | x :: xs => String c x :: xs
           end
  end.

(** [strings.Join(elems, sep)] for a one-byte separator. *)
Fixpoint Join (elems : list string) (sep : ascii) : string :=
  match elems with
  | [] => EmptyString
  | [e] => e
  | e :: rest => String.app e (String sep (Join rest sep))
  end.

Fixpoint TrimLeft (s : string) (c : ascii) : string :=
  match s with
  | String a s' => if Ascii.eqb a c then TrimLeft s' c else s
  | EmptyString => EmptyString
  end.

(** [strings.Trim(s, cutset)] for a one-byte cutset. *)
Definition Trim (s : string) (c : ascii) : string :=
  String.rev (TrimLeft (String.rev (TrimLeft s c)) c).

(** [strings.HasSuffix(s, suffix)] *)
Definition HasSuffix (s suffix : string) : bool :=
  String.prefix (String.rev suffix) (String.rev s).

(** One step of [path.Clean] on the stack of the elements kept so far
    (innermost first): empty and [.] elements vanish, [..] removes the
    element before it, is kept in front of a relative path, and is
    dropped at the root. *)
Definition clean_step (rooted : bool) (stack : list string) (e : string)
  : list string :=
  if decide (e = EmptyString ∨ e = ".") then stack
  else if decide (e = "..") then
    match stack with
    | top :: below =>
        if decide (top = "..") then e :: stack else below
    | [] => if rooted then [] else [e]
    end
  else e :: stack.

(** [path.Clean(p)] *)
Definition Clean (p : string) : string :=
  match p with
  | EmptyString => "."
  | String c _ =>
      let rooted := Ascii.eqb c slash in
      let kept := reverse (foldl (clean_step rooted) [] (Split p slash)) in
      if rooted then String slash (Join kept slash)
      else match kept with
           | [] => "."
           | _ => Join kept slash
           end
  end.

Fixpoint drop_empty (elem : list string) : list string :=
  match elem with
  | EmptyString :: rest => drop_empty rest
  | _ => elem
  end.

(** [path.Join(elem...)] *)
Definition path_Join (elem : list string) : string :=
  match drop_empty elem with
  | [] => EmptyString
  | rest => Clean (Join rest slash)
  end.

Fixpoint last_nonempty (elems : list string) (acc : option string)
  : option string :=
  match elems with
  | [] => acc
  | EmptyString :: rest => last_nonempty rest acc
  | e :: rest => last_nonempty rest (Some e)
  end.

(** [filepath.Base(p)], with [/] as the separator. *)
Definition Base (p : string) : string :=
  match p with
  | EmptyString => "."
  | _ => default (String slash EmptyString)
                 (last_nonempty (Split p slash) None)
  end.

Fixpoint ext_scan (rev_p : string) (acc : string) : string :=
  match rev_p with
  | EmptyString => EmptyString
  | String c r =>
      if Ascii.eqb c slash then EmptyString
      else if Ascii.eqb c "."%char then String c acc
      else ext_scan r (String c acc)
  end.

(** [filepath.Ext(p)]: from the final dot of the final element. *)
Definition Ext (p : string) : string := ext_scan (String.rev p) EmptyString.

(** [regexp.MatchString(`golang_org/x/\w*`, s)]: the pattern is not
    anchored and [\w*] matches the empty word, so it matches exactly
    the strings that contain [golang_org/x/]. *)
Definition matches_vendor_pattern (s : string) : bool :=
  Contains s "golang_org/x/".

End GoString.

Import GoString.

(** ** [sort.Sort]

    [sort.Sort] belongs to Go's library. What the program relies on is
    its contract: the result is a rearrangement of the input in which no
    element is [Less] than the one before it, for a [Less] that is a
    strict weak order. The sort need not be stable. *)

Record StrictWeak {A} (less : A → A → bool) : Prop := {
  swo_asym : ∀ a b, less a b = true → less b a = false;
  swo_negtrans : ∀ a b c,
    less b a = false → less c b = false → less c a = false
}.

Class SortImpl := {
  sort_Sort : ∀ {A : Type}, (A → A → bool) → list A → list A;
  sort_Sort_perm : ∀ A (less : A → A → bool) l, sort_Sort less l ≡ₚ l;
  sort_Sort_sorted : ∀ A (less : A → A → bool) l,
    StrictWeak less → Sorted (λ a b, less b a = false) (sort_Sort less l)
}.

(** The sort that [sort.Sort] runs on short slices: each element in turn
    moves left past the elements it is [Less] than. [sorted_rev] is the
    sorted prefix, last element first. *)
Fixpoint insert_back {A} (less : A → A → bool) (x : A) (sorted_rev : list A)
  : list A :=
  match sorted_rev with
  | [] => [x]
  | y :: before => if less x y then y :: insert_back less x before
                   else x :: sorted_rev
  end.

Definition insertionSort {A} (less : A → A → bool) (data : list A) : list A :=
  reverse (foldl (λ sorted_rev x, insert_back less x sorted_rev) [] data).

(** ** The package entity (package.go) *)

(** Addresses, pointers ([None] is [nil]) and [pkgList]. *)
Abbreviation loc := nat (only parsing).
Abbreviation ptr := (option nat) (only parsing).
Abbreviation pkgList := (list (option nat)) (only parsing).

Record Package := mkPackage {
  RelPath : string;
  Learned : bool;
  Dependencies : pkgList;
  Dependants : pkgList;
  Internal : bool
}.

Abbreviation Heap := (list Package) (only parsing).

Definition set_Learned (b : bool) (p : Package) : Package :=
  mkPackage (RelPath p) b (Dependencies p) (Dependants p) (Internal p).
Definition set_Dependencies (li : pkgList) (p : Package) : Package :=
  mkPackage (RelPath p) (Learned p) li (Dependants p) (Internal p).
Definition set_Dependants (li : pkgList) (p : Package) : Package :=
  mkPackage (RelPath p) (Learned p) (Dependencies p) li (Internal p).

(** Reading through a pointer; [nil] panics. *)
Definition deref (h : Heap) (p : ptr) : Res Package :=
  match p with
  | Some l => match h !! l with
              | Some pk => Ok pk
              | None => Panic
              end
  | None => Panic
  end.

(** Writing through a pointer. *)
Definition update (h : Heap) (p : ptr) (f : Package → Package) : Res Heap :=
  match p with
  | Some l => match h !! l with
              | Some pk => Ok (<[l := f pk]> h)
              | None => Panic
              end
  | None => Panic
  end.

Definition valid (h : Heap) (p : ptr) : bool :=
  match deref h p with Ok _ => true | _ => false end.

(** The process-wide tables of dependencies.go. *)
Record State := mkState {
  heap : Heap;
  pkgsByLocation : gmap string loc;
  pkgsByDependencyDepth : gmap Z pkgList
}.

Definition set_heap (h : Heap) (st : State) : State :=
  mkState h (pkgsByLocation st) (pkgsByDependencyDepth st).

(** [makeUnique]: drops an entry that is the same pointer as its
    successor. It assumes that the list is sorted. *)
Fixpoint makeUnique (li : pkgList) : pkgList :=
  match li with
  | a :: rest =>
      match rest with
      | b :: _ => if decide (a = b) then makeUnique rest
                  else a :: makeUnique rest
      | [] => li
      end
  | [] => li
  end.

Section Engine.

(** Read from the config file. *)
Variables standardLibraryPath vendorRelPath : string.

Context {sorter : SortImpl}.

(** *** package.go *)

(** [strings.Split] never returns an empty slice ([Split_shape] below),
    so the index [0] here and the slice [1:] in [Name] are in range. *)
Definition IsVendor (pkg : Package) : bool :=
  bool_decide (hd EmptyString (Split (RelPath pkg) slash) = vendorRelPath).

Definition Name (pkg : Package) : string :=
  if IsVendor pkg then path_Join (tail (Split (RelPath pkg) slash))
  else RelPath pkg.

Definition Predeclared (pkg : Package) : bool :=
  bool_decide (Name pkg = "builtin") || bool_decide (Name pkg = "C")
  || bool_decide (Name pkg = "unsafe").

(** [pkg = &Package{...}; pkgsByLocation[fullPath] = pkg]: the package
    gets the next address. *)
Definition alloc (st : State) (fullPath : string) (pkg : Package) : State :=
  mkState (heap st ++ [pkg])
          (<[fullPath := length (heap st)]> (pkgsByLocation st))
          (pkgsByDependencyDepth st).

Definition duplicate_error (fullPath : string) : string :=
  "Package already loaded: " +:+ fullPath.

(** [NewPackage] returns the new state with [(pkg, err)]. *)
Definition NewPackage (st : State) (fullPath : string)
  : Res (State * ptr * option string) :=
  match pkgsByLocation st !! fullPath with
  | Some _ => Ok (st, None, Some (duplicate_error fullPath))
  | None =>
      if decide (fullPath = standardLibraryPath) then
        Ok (alloc st fullPath (mkPackage EmptyString false [] [] false),
            Some (length (heap st)), None)
      else
        relPath ←! slice_from fullPath (len (standardLibraryPath +:+ "/"));
        let internal := Contains relPath "internal" in
        Ok (alloc st fullPath (mkPackage relPath false [] [] internal),
            Some (length (heap st)), None)
  end.

(** The display name behind a pointer, as [Less] reads it. *)
Definition name_of (h : Heap) (p : ptr) : string :=
  match deref h p with
  | Ok pk => Name pk
  | _ => EmptyString
  end.

(** [pkgList.Less], on the entries rather than on their indices. *)
Definition Less (h : Heap) (a b : ptr) : bool :=
  String.ltb (name_of h a) (name_of h b).

(** [pkgList.Sort]. Sorting two entries or more calls [Less] on every
    entry, and [Less] panics on [nil]; shorter lists are not compared. *)
Definition Sort_panics (h : Heap) (li : pkgList) : bool :=
  (2 <=? length li)%nat && negb (forallb (valid h) li).

Definition Sort (h : Heap) (li : pkgList) : Res pkgList :=
  if Sort_panics h li then Panic else Ok (sort_Sort (Less h) li).

Definition DependsOn (h : Heap) (pkg dependency : ptr) : Res Heap :=
  p ←! deref h pkg;
  sorted ←! Sort h (Dependencies p ++ [dependency]);
  update h pkg (set_Dependencies (makeUnique sorted)).

(** The loop of [DependencyDepth] over the dependencies, with [depth]
    the running result. *)
Fixpoint depth_loop (rec : ptr → Res Z) (deps : pkgList) (depth : Z)
  : Res Z :=
  match deps with
  | [] => Ok depth
  | importedPkg :: rest =>
      importedPkgDepth ←! rec importedPkg;
      depth_loop rec rest
        (if importedPkgDepth >=? depth then int_add importedPkgDepth 1
         else depth)
  end.

Fixpoint DependencyDepth (fuel : nat) (h : Heap) (pkg : ptr) : Res Z :=
  match fuel with
  | O => OutOfFuel
  | S fuel' =>
      p ←! deref h pkg;
      if Predeclared p || Learned p then Ok (-1)
      else depth_loop (DependencyDepth fuel' h) (Dependencies p) 0
  end.

(** First loop of [Imported]: is a direct dependant non-internal? *)
Fixpoint any_not_internal (h : Heap) (dependants : pkgList) : Res bool :=
  match dependants with
  | [] => Ok false
  | dependant :: rest =>
      d ←! deref h dependant;
      if negb (Internal d) then Ok true else any_not_internal h rest
  end.

(** Second loop of [Imported]: is a dependant imported? *)
Fixpoint any_imported (rec : ptr → Res bool) (dependants : pkgList)
  : Res bool :=
  match dependants with
  | [] => Ok false
  | dependant :: rest =>
      b ←! rec dependant;
      if b then Ok true else any_imported rec rest
  end.

Fixpoint Imported (fuel : nat) (h : Heap) (pkg : ptr) : Res bool :=
  match fuel with
  | O => OutOfFuel
  | S fuel' =>
      p ←! deref h pkg;
      direct ←! any_not_internal h (Dependants p);
      if direct then Ok true
      else any_imported (Imported fuel' h) (Dependants p)
  end.

(** *** dependencies.go *)

Definition unlearnedIndicator : string := "*".

(** The row formats: what [fmt.Sprintf] is given for each of the three
    format strings. Writing a row to the tab writer is taken not to
    fail. *)
Inductive Row :=
  | noDependenciesRow (name : string) (depth : Z) (importFlag : string)
  | firstRow (name : string) (depth : Z) (importFlag dependencyName : string)
  | subsequentRows (dependencyName : string).

(** [pkgFromImportPath]: the package of an import path, [nil] when the
    path is not in the registry. *)
Definition pkgFromImportPath (st : State) (importPath : string) : ptr :=
  let fullPath :=
    if matches_vendor_pattern importPath
    then path_Join [standardLibraryPath; "vendor"; importPath]
    else path_Join [standardLibraryPath; importPath] in
  pkgsByLocation st !! fullPath.

(** [loadLearnedPkgs], on the lines of the input file. *)
Fixpoint loadLearnedPkgs (st : State) (lines : list string) : Res State :=
  match lines with
  | [] => Ok st
  | line :: rest =>
      let pkg := pkgFromImportPath st line in
      if decide (pkg ≠ None) then
        h ←! update (heap st) pkg (set_Learned true);
        loadLearnedPkgs (set_heap h st) rest
      else loadLearnedPkgs st rest
  end.

(** What [parser.ParseFile] returned for a file: an error, or the
    package clause (when there is one) and the import paths as
    written, quotes included. *)
Inductive ParseResult :=
  | ParseError (err : string)
  | ParseOk (Name : option string) (Imports : list string).

(** Recording that [pkg] imports [importedPkg]: the two statements that
    follow the resolution of an import in [scanFileForDependencies]. *)
Definition add_edge (h : Heap) (pkg importedPkg : ptr) : Res Heap :=
  h ←! DependsOn h pkg importedPkg;
  d ←! deref h importedPkg;
  update h importedPkg (set_Dependants (Dependants d ++ [pkg])).

(** The body of the loop of [scanFileForDependencies] over the imports
    of a file. *)
Definition scan_import (st : State) (pkg : ptr) (importSpec : string)
  : Res State :=
  let importedPkg := pkgFromImportPath st (Trim importSpec quote) in
  h ←! add_edge (heap st) pkg importedPkg;
  Ok (set_heap h st).

Fixpoint scan_imports (st : State) (pkg : ptr) (imports : list string)
  : Res State :=
  match imports with
  | [] => Ok st
  | importSpec :: rest =>
      st ←! scan_import st pkg importSpec;
      scan_imports st pkg rest
  end.

(** [scanFileForDependencies] returns the new state with [err]. *)
Definition scanFileForDependencies (st : State) (_path : string)
    (parsed : ParseResult) (pkg : ptr) : Res (State * option string) :=
  if negb (bool_decide (Ext _path = ".go")) then Ok (st, None)
  else if HasSuffix (Base _path) "_test.go" then Ok (st, None)
  else match parsed with
       | ParseError err => Ok (st, Some err)
       | ParseOk None _ => Ok (st, None)
       | ParseOk (Some name) imports =>
           p ←! deref (heap st) pkg;
           if negb (bool_decide (name = Base (Name p))) then Ok (st, None)
           else st ←! scan_imports st pkg imports; Ok (st, None)
       end.

(** The loop of [main] that sorts and deduplicates the dependants of
    every package, in the order [range] visits the registry. *)
Fixpoint normalize_dependants (h : Heap) (order : list loc) : Res Heap :=
  match order with
  | [] => Ok h
  | l :: rest =>
      p ←! deref h (Some l);
      sorted ←! Sort h (Dependants p);
      h ←! update h (Some l) (set_Dependants (makeUnique sorted));
      normalize_dependants h rest
  end.

(** First loop of [sortByDependencyDepth]. *)
Fixpoint bucket_pkgs (fuel : nat) (h : Heap) (m : gmap Z pkgList)
    (order : list loc) : Res (gmap Z pkgList) :=
  match order with
  | [] => Ok m
  | l :: rest =>
      depth ←! DependencyDepth fuel h (Some l);
      let li := default [] (m !! depth) in
      bucket_pkgs fuel h (<[depth := li ++ [Some l]]> m) rest
  end.

(** Second loop of [sortByDependencyDepth]: every bucket is sorted in
    place. *)
Definition sort_buckets (h : Heap) (m : gmap Z pkgList)
  : Res (gmap Z pkgList) :=
  if decide (map_Forall (λ _ li, Sort_panics h li = false) m)
  then Ok (sort_Sort (Less h) <$> m)
  else Panic.

Definition sortByDependencyDepth (fuel : nat) (st : State)
    (order : list loc) : Res State :=
  m ←! bucket_pkgs fuel (heap st) (pkgsByDependencyDepth st) order;
  m ←! sort_buckets (heap st) m;
  Ok (mkState (heap st) (pkgsByLocation st) m).

(** The rows of the dependencies of a package, [i] being the index of
    the first of [deps]. *)
Fixpoint dependency_rows (h : Heap) (name : string) (depth : Z)
    (importFlag : string) (i : nat) (deps : pkgList) : Res (list Row) :=
  match deps with
  | [] => Ok []
  | dependency :: rest =>
      d ←! deref h dependency;
      let dependencyName :=
        if negb (Learned d) && negb (Predeclared d)
        then Name d +:+ " " +:+ unlearnedIndicator
        else Name d in
      let row := if decide (i = 0%nat)
                 then firstRow name depth importFlag dependencyName
                 else subsequentRows dependencyName in
      rows ←! dependency_rows h name depth importFlag (S i) rest;
      Ok (row :: rows)
  end.

(** [Write]: the rows printed for a package. *)
Definition Write (fuel : nat) (h : Heap) (pkg : ptr) : Res (list Row) :=
  imported ←! Imported fuel h pkg;
  dependancyDepth ←! DependencyDepth fuel h pkg;
  p ←! deref h pkg;
  if Internal p && negb imported then Ok []
  else
    let importFlag := if imported then "imported" else "unimported" in
    match Dependencies p with
    | [] => Ok [noDependenciesRow (Name p) dependancyDepth importFlag]
    | deps => dependency_rows h (Name p) dependancyDepth importFlag 0 deps
    end.

Fixpoint write_all (fuel : nat) (h : Heap) (pkgLi : pkgList)
  : Res (list Row) :=
  match pkgLi with
  | [] => Ok []
  | pkg :: rest =>
      rows ←! Write fuel h pkg;
      more ←! write_all fuel h rest;
      Ok (rows ++ more)
  end.

(** The loop of [printPkgs] from [depth] on; [steps] bounds the number
    of its iterations. *)
Fixpoint printPkgs_from (steps fuel : nat) (st : State) (depth : Z)
  : Res (list Row) :=
  match steps with
  | O => OutOfFuel
  | S steps' =>
      match pkgsByDependencyDepth st !! depth with
      | None => Ok []
      | Some pkgLi =>
          rows ←! write_all fuel (heap st) pkgLi;
          more ←! printPkgs_from steps' fuel st (int_add depth 1);
          Ok (rows ++ more)
      end
  end.

Definition printPkgs (steps fuel : nat) (st : State) : Res (list Row) :=
  printPkgs_from steps fuel st 0.

(** *** dependencies.go: [loadFileInfo] and [readConfig] *)

(** The byte [c] occurs in [s]. *)
Fixpoint has_byte (c : ascii) (s : string) : bool :=
  match s with
  | EmptyString => false
  | String a s' => Ascii.eqb a c || has_byte c s'
  end.

(** [s] up to its last slash, the slash included. *)
Fixpoint dir_part (s : string) : string :=
  match s with
  | EmptyString => EmptyString
  | String c s' =>
      if has_byte slash s then String c (dir_part s') else EmptyString
  end.

(** [filepath.Dir(p)] and [path.Dir(p)], with [/] as the separator:
    what precedes the last element, cleaned. *)
Definition Dir (p : string) : string := Clean (dir_part p).

(** What [parser.ParseFile] returned for the package clause of a file:
    an error, of the scanner ([syntax]) or not, or the name in the
    clause when there is one. *)
Inductive ClauseResult :=
  | ClauseError (syntax : bool) (err : string)
  | ClauseOk (Name : option string).

(** [loadFileInfo] returns the new state with [err]. *)
Definition loadFileInfo (st : State) (_path : string) (parsed : ClauseResult)
  : Res (State * option string) :=
  if negb (bool_decide (Ext _path = ".go")) then Ok (st, None)
  else if HasSuffix (Base _path) "_test.go" then Ok (st, None)
  else match pkgsByLocation st !! Dir _path with
       | Some _ => Ok (st, None)
       | None =>
           match parsed with
           | ClauseError syntax err =>
               Ok (st, if syntax then None else Some err)
           | ClauseOk None => Ok (st, None)
           | ClauseOk (Some name) =>
               if bool_decide (name = Base (Dir _path)) then
                 r ←! NewPackage st (Dir _path);
                 Ok (r.1.1, r.2)
               else Ok (st, None)
           end
       end.

(** The white space of [unicode.IsSpace], as bytes of UTF-8: the six
    ASCII characters, U+0085 and U+00A0 in two bytes, and U+1680,
    U+2000 to U+200A, U+2028, U+2029, U+202F, U+205F and U+3000 in
    three. *)
Definition is_ascii_space (a : ascii) : bool :=
  let n := nat_of_ascii a in
  ((n =? 9) || (n =? 10) || (n =? 11) || (n =? 12) || (n =? 13) || (n =? 32))%nat.

Definition two_byte_space (a b : ascii) : bool :=
  let x := nat_of_ascii a in
  let y := nat_of_ascii b in
  ((x =? 194) && ((y =? 133) || (y =? 160)))%nat.

Definition three_byte_space (a b c : ascii) : bool :=
  let x := nat_of_ascii a in
  let y := nat_of_ascii b in
  let z := nat_of_ascii c in
  ((x =? 225) && (y =? 154) && (z =? 128)
   || (x =? 226) && (y =? 128)
      && ((128 <=? z) && (z <=? 138) || (z =? 168) || (z =? 169) || (z =? 175))
   || (x =? 226) && (y =? 129) && (z =? 159)
   || (x =? 227) && (y =? 128) && (z =? 128))%nat.

(** The string without its leading white space. *)
Fixpoint trim_space_left (s : string) : string :=
  match s with
  | EmptyString => EmptyString
  | String a s1 =>
      if is_ascii_space a then trim_space_left s1
      else match s1 with
           | String b s2 =>
               if two_byte_space a b then trim_space_left s2
               else match s2 with
                    | String c s3 =>
                        if three_byte_space a b c then trim_space_left s3
                        else s
                    | EmptyString => s
                    end
           | EmptyString => s
           end
  end.

(** The same from the end, on the reversed string. *)
Fixpoint trim_space_right_rev (r : string) : string :=
  match r with
  | EmptyString => EmptyString
  | String c r1 =>
      if is_ascii_space c then trim_space_right_rev r1
      else match r1 with
           | String b r2 =>
               if two_byte_space b c then trim_space_right_rev r2
               else match r2 with
                    | String a r3 =>
                        if three_byte_space a b c then trim_space_right_rev r3
                        else r
                    | EmptyString => r
                    end
           | EmptyString => r
           end
  end.

(** [strings.TrimSpace(s)] *)
Definition TrimSpace (s : string) : string :=
  String.rev (trim_space_right_rev (String.rev (trim_space_left s))).

Definition colon : ascii := ":"%char.

(** The number of bytes [c] in [s]. *)
Fixpoint count_byte (c : ascii) (s : string) : nat :=
  match s with
  | EmptyString => 0
  | String a s' => (if Ascii.eqb a c then 1 else 0) + count_byte c s'
  end.

(** How [readConfig] ends: with the two paths, or with the program
    exiting on a line that does not split in two or on a key that is
    not known. *)
Inductive ConfigResult :=
  | ConfigOk (root vendor : string)
  | ConfigParseError (lineNumber : Z)
  | ConfigInvalidKey (configKey : string).

(** The loop of [readConfig] over the lines that the scanner returns. *)
Fixpoint readConfig_loop (root vendor : string) (lineNumber : Z)
    (lines : list string) : ConfigResult :=
  match lines with
  | [] => ConfigOk root vendor
  | text :: rest =>
      let lineNumber := int_add lineNumber 1 in
      match Split text colon with
      | [key; value] =>
          let configKey := TrimSpace key in
          let configValue := TrimSpace value in
          if decide (configKey = "standardLibraryPath")
          then readConfig_loop configValue vendor lineNumber rest
          else if decide (configKey = "vendorRelPath")
          then readConfig_loop root configValue lineNumber rest
          else ConfigInvalidKey configKey
      | _ => ConfigParseError lineNumber
      end
  end.

(** [readConfig], on the lines of the config file; both paths are empty
    before. *)
Definition readConfig (lines : list string) : ConfigResult :=
  readConfig_loop EmptyString EmptyString 0 lines.

(** *** The graph of the packages *)

(** [p] imports [q]: [q] is among the dependencies of [p]. *)
Definition dep_edge (h : Heap) (p q : loc) : Prop :=
  ∃ pk, h !! p = Some pk ∧ Some q ∈ Dependencies pk.

(** [q] is among the dependants of [p]. *)
Definition dependant_edge (h : Heap) (p q : loc) : Prop :=
  ∃ pk, h !! p = Some pk ∧ Some q ∈ Dependants pk.

(** No package reaches itself along one edge or more. *)
Definition acyclic (R : relation loc) : Prop := ∀ p, ¬ tc R p p.

(** Every entry of an edge list is the address of a package. *)
Definition closed_list (h : Heap) (li : pkgList) : Prop :=
  Forall (λ q, ∃ l, q = Some l ∧ (l < length h)%nat) li.

Definition closed (h : Heap) : Prop :=
  ∀ p pk, h !! p = Some pk →
    closed_list h (Dependencies pk) ∧ closed_list h (Dependants pk).

(** Every dependant edge is a dependency edge read backwards. *)
Definition mirrored (h : Heap) : Prop :=
  ∀ p q, dependant_edge h p q → dep_edge h q p.

(** Ascending display names, and no entry next to itself. *)
Definition name_sorted (h : Heap) (li : pkgList) : Prop :=
  Sorted (λ a b, String.le (name_of h a) (name_of h b)) li.

Definition no_adjacent_repeat (li : pkgList) : Prop :=
  Sorted (λ a b : ptr, a ≠ b) li.

(** No package has an edge yet, as when the registry has just been
    filled. *)
Definition no_edges (h : Heap) : Prop :=
  Forall (λ pk, Dependencies pk = [] ∧ Dependants pk = []) h.

(** [h'] comes from [h] by recording imports between packages. *)
Inductive edges_added (h : Heap) : Heap → Prop :=
  | edges_none : edges_added h h
  | edges_more h1 h2 pkg importedPkg :
      edges_added h h1 → add_edge h1 pkg importedPkg = Ok h2 →
      edges_added h h2.

(** Distinct packages have distinct display names. *)
Definition distinct_names (h : Heap) : Prop :=
  ∀ p q pk qk, h !! p = Some pk → h !! q = Some qk →
    Name pk = Name qk → p = q.

(** *** Spec-side definitions *)

(** The greatest of [d :: ds]. *)
Definition max_depth (d : Z) (ds : list Z) : Z := foldl Z.max d ds.

(** The depth of a package as the design document defines it, from the
    depths [ds] of its dependencies. *)
Definition depth_spec (pk : Package) (ds : list Z) : Z :=
  if Learned pk || Predeclared pk then -1
  else match ds with
       | [] => 0
       | d :: ds' => 1 + max_depth d ds'
       end.

(** *** Auxiliary definitions of the proofs *)

(** The running result of the loop is the greatest of its start value
    and of the successors of the depths seen. *)
Definition depth_fold (d0 : Z) (ds : list Z) : Z :=
  foldl (λ depth z, Z.max depth (z + 1)) d0 ds.

(** A lone internal package that imports itself. *)
Definition self_import : list Package :=
  [mkPackage "internal/a" false [Some 0%nat] [Some 0%nat] true].

(** Tests of [closed_list], [closed] and [mirrored] on a given heap. *)
Definition closed_listb (n : nat) (li : list (option nat)) : bool :=
  forallb (λ q, match q with Some l => (l <? n)%nat | None => false end) li.

Definition closedb (h : list Package) : bool :=
  forallb (λ pk, closed_listb (length h) (Dependencies pk)
                 && closed_listb (length h) (Dependants pk)) h.

(** Every package was allocated after its dependencies and before its
    dependants: such a heap has no cycle. *)
Definition layeredb (h : list Package) : bool :=
  forallb (λ '(p, pk),
      forallb (λ q, match q with Some l => (l <? p)%nat | None => true end)
              (Dependencies pk)
      && forallb (λ q, match q with Some l => (p <? l)%nat | None => true end)
                 (Dependants pk))
    (imap pair h).

Definition mirroredb (h : list Package) : bool :=
  forallb (λ '(p, pk),
      forallb (λ q, match q with
                    | Some l => match h !! l with
                                | Some qk => bool_decide (Some p ∈ Dependencies qk)
                                | None => false
                                end
                    | None => true
                    end)
              (Dependants pk))
    (imap pair h).

(** [sub] occurs in [s]. *)
Definition substring_of (sub s : string) : Prop :=
  ∃ pre post, s = pre +:+ sub +:+ post.

(** Every registered identity is the root or long enough to hold a
    relative path. *)
Definition registry_ok (st : State) : Prop :=
  ∀ fullPath l, pkgsByLocation st !! fullPath = Some l →
    fullPath = standardLibraryPath ∨
    (len standardLibraryPath + 1 ≤ len fullPath)%nat.

(** What an edge addition leaves in the heap. *)
Definition edge_added (h : list Package) (p i : nat) (deps : list (option nat))
    (l : nat) (lk : Package) : Package :=
  mkPackage (RelPath lk) (Learned lk)
    (if decide (l = p) then deps else Dependencies lk)
    (if decide (l = i) then Dependants lk ++ [Some p] else Dependants lk)
    (Internal lk).

(** Every list of dependencies is in ascending name order and has no
    entry next to itself. *)
Definition deps_sorted (h : list Package) : Prop :=
  ∀ p pk, h !! p = Some pk →
    name_sorted h (Dependencies pk) ∧ no_adjacent_repeat (Dependencies pk).

(** Every bucket is non-empty and holds packages of its depth. *)
Definition bucket_ok (fuel : nat) (h : list Package)
    (m : gmap Z (list (option nat))) : Prop :=
  ∀ d li, m !! d = Some li →
    li ≠ [] ∧
    Forall (λ q, ∃ l, q = Some l ∧ (l < length h)%nat ∧
                      DependencyDepth fuel h (Some l) = Ok d) li.

(** *** Definitions of the further properties *)

(** Strictly ascending display names. *)
Definition name_strict (h : list Package) (a b : option nat) : Prop :=
  String.le (name_of h a) (name_of h b) ∧ name_of h a ≠ name_of h b.

(** Every package of the registry is in the heap. *)
Definition registry_valid (st : State) : Prop :=
  ∀ k l, pkgsByLocation st !! k = Some l → (l < length (heap st))%nat.

(** The name under which a dependency is printed: with the marker when
    the dependency is neither learned nor predeclared. *)
Definition dependency_label (dk : Package) : string :=
  if negb (Learned dk) && negb (Predeclared dk)
  then Name dk +:+ " " +:+ unlearnedIndicator
  else Name dk.

(** Every package of the registry is in the heap, under one identity,
    and every package of the heap is in the registry. *)
Definition registry_wf (st : State) : Prop :=
  registry_valid st ∧
  (∀ k k' l, pkgsByLocation st !! k = Some l →
             pkgsByLocation st !! k' = Some l → k = k') ∧
  (∀ l, (l < length (heap st))%nat → ∃ k, pkgsByLocation st !! k = Some l).

(** The identity that [pkgFromImportPath] looks up for an import path. *)
Definition import_identity (importPath : string) : string :=
  if matches_vendor_pattern importPath
  then path_Join [standardLibraryPath; "vendor"; importPath]
  else path_Join [standardLibraryPath; importPath].

(** The key of a config line, and the lines that [readConfig] takes:
    one colon, and one of the two keys before it. *)
Definition config_key (text : string) : string :=
  TrimSpace (hd EmptyString (Split text colon)).

Definition config_line (text : string) : Prop :=
  count_byte colon text = 1%nat ∧
  (config_key text = "standardLibraryPath" ∨ config_key text = "vendorRelPath").

(** Two heaps hold the same packages as far as relative paths and
    [Internal] flags go. *)
Definition same_paths (h h' : list Package) : Prop :=
  ∀ l pk, h !! l = Some pk →
    ∃ pk', h' !! l = Some pk' ∧
      RelPath pk' = RelPath pk ∧ Internal pk' = Internal pk.

(** Every registered package carries the part of its identity behind
    the root and the slash as its relative path, and its [Internal] flag
    is what [strings.Contains] says of that path. *)
Definition internal_flags (st : State) : Prop :=
  ∀ k l, pkgsByLocation st !! k = Some l →
    ∃ pk, heap st !! l = Some pk ∧
      Internal pk = Contains (RelPath pk) "internal" ∧
      (k ≠ standardLibraryPath →
         slice_from k (len standardLibraryPath + 1) = Ok (RelPath pk)).

(** The states of a run: the tables are empty at the start, and
    [NewPackage], [loadFileInfo], [loadLearnedPkgs],
    [scanFileForDependencies], the pass of [main] over the dependants
    and [sortByDependencyDepth] are what changes them. *)
Inductive reachable : State → Prop :=
  | reachable_start : reachable (mkState [] ∅ ∅)
  | reachable_NewPackage st fullPath st' pkg err :
      reachable st → NewPackage st fullPath = Ok (st', pkg, err) →
      reachable st'
  | reachable_loadFileInfo st _path parsed st' err :
      reachable st → loadFileInfo st _path parsed = Ok (st', err) →
      reachable st'
  | reachable_loadLearnedPkgs st lines st' :
      reachable st → loadLearnedPkgs st lines = Ok st' → reachable st'
  | reachable_scanFileForDependencies st _path parsed pkg st' err :
      reachable st →
      scanFileForDependencies st _path parsed pkg = Ok (st', err) →
      reachable st'
  | reachable_normalize_dependants st order h' :
      reachable st → normalize_dependants (heap st) order = Ok h' →
      reachable (set_heap h' st)
  | reachable_sortByDependencyDepth fuel st order st' :
      reachable st → sortByDependencyDepth fuel st order = Ok st' →
      reachable st'.

(** ** Properties *)

Lemma bind_Ok {A B} (r : Res A) (k : A → Res B) b :
  bind r k = Ok b ↔ ∃ a, r = Ok a ∧ k a = Ok b.
Proof.
  destruct r; simpl; split; try (intros (? & ? & ?)); try done.
  - eauto.
  - by simplify_eq.
Qed.

Lemma deref_Ok h p pk :
  deref h p = Ok pk ↔ ∃ l, p = Some l ∧ h !! l = Some pk.
Proof.
  unfold deref. destruct p as [l|]; [destruct (h !! l) eqn:E|];
    (split; [intros ?|intros (? & ? & ?)]); simplify_eq; eauto.
Qed.

Lemma deref_Some h l pk : h !! l = Some pk → deref h (Some l) = Ok pk.
Proof. intros H. apply deref_Ok. eauto. Qed.

Lemma int_add_1 d : int_min ≤ d < int_max → int_add d 1 = d + 1.
Proof.
  unfold int_add, int_wrap, int_min, int_max. intros ?.
  rewrite Z.mod_small; lia.
Qed.

(** *** Finite acyclic graphs have bounded paths *)

Section Chains.

Variable R : relation loc.
Variable n : nat.
Hypothesis R_range : ∀ p q, R p q → (q < n)%nat.
Hypothesis R_acyclic : acyclic R.

(** [anc] lists packages that all reach [p], no package twice. *)
Definition chain (anc : list loc) (p : loc) : Prop :=
  NoDup (p :: anc) ∧ Forall (λ a, tc R a p) anc ∧ Forall (λ a, (a < n)%nat) (p :: anc).

Lemma chain_start p : (p < n)%nat → chain [] p.
Proof.
  intros ?. repeat split; [apply NoDup_singleton | constructor | by repeat constructor].
Qed.

Lemma chain_step anc p q : chain anc p → R p q → chain (p :: anc) q.
Proof.
  intros (Hnd & Htc & Hlt) Hpq. repeat split.
  - apply NoDup_cons. split; [|done].
    intros [->|Hin]%elem_of_cons.
    + by apply (R_acyclic p), tc_once.
    + rewrite Forall_forall in Htc. apply (R_acyclic q).
      eapply tc_r; [by apply Htc|done].
  - constructor; [by apply tc_once|].
    eapply Forall_impl; [done|]. intros a Ha; simpl in *. by eapply tc_r.
  - constructor; [by eapply R_range|done].
Qed.

Lemma chain_length anc p : chain anc p → (length (p :: anc) ≤ n)%nat.
Proof.
  intros (Hnd & _ & Hlt).
  assert (length (p :: anc) ≤ length (seq 0 n))%nat as Hle;
    [|by rewrite length_seq in Hle].
  apply submseteq_length, NoDup_submseteq; [done|].
  intros x Hx. rewrite Forall_forall in Hlt. apply elem_of_seq.
  specialize (Hlt x Hx). simpl in Hlt. lia.
Qed.

End Chains.

Lemma dep_edge_range h p q : closed h → dep_edge h p q → (q < length h)%nat.
Proof.
  intros Hc (pk & Hp & Hq). destruct (Hc p pk Hp) as [Hd _].
  unfold closed_list in Hd. rewrite Forall_forall in Hd.
  destruct (Hd _ Hq) as (l & ? & ?). by simplify_eq.
Qed.

Lemma dependant_edge_range h p q :
  closed h → dependant_edge h p q → (q < length h)%nat.
Proof.
  intros Hc (pk & Hp & Hq). destruct (Hc p pk Hp) as [_ Hd].
  unfold closed_list in Hd. rewrite Forall_forall in Hd.
  destruct (Hd _ Hq) as (l & ? & ?). by simplify_eq.
Qed.

(** On the graph as the scan builds it, the dependants are acyclic when
    the dependencies are. *)
Lemma mirrored_tc h p q :
  mirrored h → tc (dependant_edge h) p q → tc (dep_edge h) q p.
Proof.
  intros Hm. induction 1 as [p q H|p r q H _ IH].
  - by apply tc_once, Hm.
  - eapply tc_r; [done|by apply Hm].
Qed.

Lemma mirrored_acyclic h :
  mirrored h → acyclic (dep_edge h) → acyclic (dependant_edge h).
Proof. intros Hm Ha p Hp. apply (Ha p). by apply mirrored_tc. Qed.

(** *** [DependencyDepth] *)

Lemma depth_step importedPkgDepth depth :
  -1 ≤ importedPkgDepth < int_max →
  (if importedPkgDepth >=? depth then int_add importedPkgDepth 1 else depth)
  = Z.max depth (importedPkgDepth + 1).
Proof.
  intros ?. rewrite int_add_1 by (unfold int_min, int_max in *; lia).
  destruct (Z.geb_spec importedPkgDepth depth); lia.
Qed.

Lemma depth_loop_ext rec1 rec2 deps d0 d :
  (∀ q z, q ∈ deps → rec1 q = Ok z → rec2 q = Ok z) →
  depth_loop rec1 deps d0 = Ok d → depth_loop rec2 deps d0 = Ok d.
Proof.
  revert d0. induction deps as [|q deps IH]; simpl; intros d0 Hrec; [done|].
  intros (z & Hz & Hl)%bind_Ok.
  rewrite (Hrec q z) by (done || by left). simpl.
  apply IH; [|done]. intros ????. apply Hrec; [by right|done].
Qed.

Lemma depth_loop_total rec deps d0 :
  (∀ q, q ∈ deps → ∃ z, rec q = Ok z) → ∃ d, depth_loop rec deps d0 = Ok d.
Proof.
  revert d0. induction deps as [|q deps IH]; simpl; intros d0 Hrec; [by eauto|].
  destruct (Hrec q) as [z Hz]; [by left|]. rewrite Hz. simpl.
  apply IH. intros ??. apply Hrec. by right.
Qed.

Lemma depth_loop_Ok rec deps d0 d :
  (∀ q z, q ∈ deps → rec q = Ok z → -1 ≤ z < int_max) →
  depth_loop rec deps d0 = Ok d ↔
  ∃ ds, Forall2 (λ q z, rec q = Ok z) deps ds ∧ d = depth_fold d0 ds.
Proof.
  revert d0. induction deps as [|q deps IH]; simpl; intros d0 Hrec.
  - split.
    + intros [= <-]. exists []. by split; [constructor|].
    + intros (ds & ->%Forall2_nil_inv_l & ->). done.
  - rewrite bind_Ok. split.
    + intros (z & Hz & Hl). rewrite depth_step in Hl by (by eapply Hrec; [left|]).
      apply IH in Hl as (ds & Hds & ->).
      * exists (z :: ds). by split; [constructor|].
      * intros ????. eapply Hrec; [by right|done].
    + intros (ds & (z & ds' & Hz & Hds & ->)%Forall2_cons_inv_l & ->).
      exists z. split; [done|].
      rewrite depth_step by (by eapply Hrec; [left|]).
      apply IH; [|by eauto]. intros ????. eapply Hrec; [by right|done].
Qed.

Lemma depth_fold_shift a ds : depth_fold a ds = 1 + foldl Z.max (a - 1) ds.
Proof.
  unfold depth_fold. revert a. induction ds as [|z ds IH]; simpl; intros a; [lia|].
  rewrite IH. do 2 f_equal. lia.
Qed.

Lemma depth_fold_spec ds :
  Forall (λ z, -1 ≤ z) ds →
  depth_fold 0 ds = match ds with [] => 0 | d :: ds' => 1 + max_depth d ds' end.
Proof.
  intros Hds. rewrite depth_fold_shift. destruct Hds as [|z ds Hz _]; [done|].
  unfold max_depth. cbn [foldl]. by replace (Z.max (0 - 1) z) with z by lia.
Qed.

Lemma depth_fold_range B d0 ds :
  0 ≤ d0 ≤ B → Forall (λ z, -1 ≤ z < B) ds → 0 ≤ depth_fold d0 ds ≤ B.
Proof.
  unfold depth_fold. intros Hd0 Hds. revert d0 Hd0.
  induction Hds as [|z ds Hz _ IH]; simpl; intros d0 Hd0; [done|].
  apply IH. lia.
Qed.

Lemma DependencyDepth_mono h fuel p d :
  DependencyDepth fuel h p = Ok d →
  ∀ fuel', (fuel ≤ fuel')%nat → DependencyDepth fuel' h p = Ok d.
Proof.
  revert p d. induction fuel as [|fuel IH]; [done|].
  intros p d H [|fuel'] Hle; [lia|]. simpl in *.
  apply bind_Ok in H as (pk & -> & H). simpl.
  destruct (Predeclared pk || Learned pk); [done|].
  eapply depth_loop_ext; [|done]. intros q z _ Hq. apply (IH _ _ Hq). lia.
Qed.

(** No two budgets disagree on a depth. *)
Lemma DependencyDepth_det h fuel1 fuel2 p d1 d2 :
  DependencyDepth fuel1 h p = Ok d1 → DependencyDepth fuel2 h p = Ok d2 →
  d1 = d2.
Proof.
  intros H1 H2.
  apply DependencyDepth_mono with (fuel' := (fuel1 `max` fuel2)%nat) in H1; [|lia].
  apply DependencyDepth_mono with (fuel' := (fuel1 `max` fuel2)%nat) in H2; [|lia].
  congruence.
Qed.

(** A depth computed within a budget that fits an [int] is below the
    budget: no addition wraps around. *)
Lemma DependencyDepth_range h fuel p d :
  Z.of_nat fuel ≤ int_max →
  DependencyDepth fuel h p = Ok d → -1 ≤ d < Z.of_nat fuel.
Proof.
  revert p d. induction fuel as [|fuel IH]; [done|].
  intros p d Hmax H. simpl in H.
  apply bind_Ok in H as (pk & _ & H).
  destruct (Predeclared pk || Learned pk); [simplify_eq; lia|].
  assert (∀ q z, DependencyDepth fuel h q = Ok z → -1 ≤ z < Z.of_nat fuel)
    as Hrec by (intros; apply IH with q; [lia|done]).
  apply depth_loop_Ok in H as (ds & Hds & ->).
  - enough (0 ≤ depth_fold 0 ds ≤ Z.of_nat fuel) by lia.
    apply depth_fold_range; [lia|].
    eapply Forall2_Forall_r; [done|]. apply Forall_true.
    intros q z Hz. by apply Hrec in Hz.
  - intros q z _ Hz. apply Hrec in Hz. lia.
Qed.

Lemma DependencyDepth_terminates h :
  closed h → acyclic (dep_edge h) →
  ∀ fuel anc p, chain (dep_edge h) (length h) anc p →
    (length h < fuel + length (p :: anc))%nat →
    ∃ d, DependencyDepth fuel h (Some p) = Ok d.
Proof.
  intros Hc Ha. induction fuel as [|fuel IH]; intros anc p Hch Hlen.
  - apply chain_length in Hch. lia.
  - destruct Hch as (? & ? & Hlt).
    apply Forall_cons_1 in Hlt as [Hp Hlt].
    destruct (lookup_lt_is_Some_2 h p Hp) as [pk Hpk].
    cbn [DependencyDepth]. rewrite (deref_Some h p pk Hpk). cbn [bind].
    destruct (Predeclared pk || Learned pk); [by eauto|].
    apply depth_loop_total. intros q Hq.
    destruct (Hc p pk Hpk) as [Hd _]. unfold closed_list in Hd.
    rewrite Forall_forall in Hd. destruct (Hd q Hq) as (l & -> & _).
    apply (IH (p :: anc)); [|simpl in *; lia].
    apply chain_step; [by intros ??; apply dep_edge_range|done| |by exists pk].
    repeat split; [done..|by constructor].
Qed.

(** With a budget of the number of packages, the depth of every package
    of an acyclic graph is computed. *)
Lemma DependencyDepth_total h p fuel :
  closed h → acyclic (dep_edge h) → (p < length h)%nat → (length h ≤ fuel)%nat →
  ∃ d, DependencyDepth fuel h (Some p) = Ok d.
Proof.
  intros Hc Ha Hp Hfuel.
  destruct (DependencyDepth_terminates h Hc Ha (length h) [] p) as [d Hd];
    [by apply chain_start|simpl; lia|].
  exists d. by eapply DependencyDepth_mono.
Qed.


Lemma DependencyDepth_unfold h fuel p pk :
  h !! p = Some pk →
  DependencyDepth (S fuel) h (Some p) =
    if Predeclared pk || Learned pk then Ok (-1)
    else depth_loop (DependencyDepth fuel h) (Dependencies pk) 0.
Proof. intros Hpk. cbn [DependencyDepth]. by rewrite (deref_Some h p pk Hpk). Qed.

Lemma Forall2_total {A B} (P : A → B → Prop) (l : list A) :
  (∀ x, x ∈ l → ∃ y, P x y) → ∃ k, Forall2 P l k.
Proof.
  induction l as [|x l IH]; intros H; [by exists []|].
  destruct (H x) as [y Hy]; [by left|].
  destruct IH as [k Hk]; [by intros ??; apply H; right|].
  exists (y :: k). by constructor.
Qed.

Lemma dependency_depths_det h fuel1 fuel2 deps ds1 ds2 :
  Forall2 (λ q d, DependencyDepth fuel1 h q = Ok d) deps ds1 →
  Forall2 (λ q d, DependencyDepth fuel2 h q = Ok d) deps ds2 →
  ds1 = ds2.
Proof.
  intros H1. revert ds2. induction H1 as [|q d deps ds1 Hq _ IH]; intros ds2 H2.
  - by apply Forall2_nil_inv_l in H2.
  - apply Forall2_cons_inv_l in H2 as (d' & ds' & Hq' & H2 & ->).
    f_equal; [by eapply DependencyDepth_det|by apply IH].
Qed.

Lemma closed_list_total h deps fuel :
  closed h → acyclic (dep_edge h) → closed_list h deps → (length h ≤ fuel)%nat →
  ∃ ds, Forall2 (λ q d, DependencyDepth fuel h q = Ok d) deps ds.
Proof.
  intros Hc Ha Hd Hfuel. apply Forall2_total. intros q Hq.
  unfold closed_list in Hd. rewrite Forall_forall in Hd.
  destruct (Hd q Hq) as (l & -> & Hl). by apply DependencyDepth_total.
Qed.

(** The depth of a package is -1 exactly when it is learned or
    predeclared, and never below. *)
Lemma DependencyDepth_sign h fuel p pk d :
  closed h → acyclic (dep_edge h) → Z.of_nat (length h) ≤ int_max →
  h !! p = Some pk → DependencyDepth fuel h (Some p) = Ok d →
  -1 ≤ d ∧ (d = -1 ↔ Learned pk = true ∨ Predeclared pk = true).
Proof.
  intros Hc Ha Hmax Hpk Hd.
  assert (p < length h)%nat as Hp by (by eapply lookup_lt_Some).
  destruct (DependencyDepth_total h p (length h) Hc Ha Hp) as [d' Hd']; [done|].
  assert (d' = d) as -> by (by eapply DependencyDepth_det).
  clear Hd. pose proof (DependencyDepth_range _ _ _ _ Hmax Hd') as Hr.
  split; [lia|].
  remember (length h) as n eqn:Hn. destruct n as [|m]; [lia|].
  rewrite (DependencyDepth_unfold h m p pk Hpk) in Hd'.
  destruct (Predeclared pk) eqn:E1, (Learned pk) eqn:E2; simpl in Hd';
    try (simplify_eq; split; [by auto|done]).
  apply depth_loop_Ok in Hd' as (ds & Hds & ->).
  - assert (0 ≤ depth_fold 0 ds ≤ Z.of_nat m); [|split; [lia|by intros [|]]].
    apply depth_fold_range; [lia|].
    eapply Forall2_Forall_r; [done|]. apply Forall_true.
    intros q z Hz. apply DependencyDepth_range in Hz; lia.
  - intros q z _ Hz. apply DependencyDepth_range in Hz; lia.
Qed.

(** With a budget of the number of packages or more, the depth of a
    package is what the loop computes from the depths of its
    dependencies, none of which is below -1. *)
Lemma DependencyDepth_value h p pk fuel :
  closed h → acyclic (dep_edge h) → Z.of_nat (length h) ≤ int_max →
  h !! p = Some pk → (length h ≤ fuel)%nat →
  ∃ ds,
    Forall2 (λ q d, DependencyDepth fuel h q = Ok d) (Dependencies pk) ds ∧
    Forall (λ d, -1 ≤ d) ds ∧
    DependencyDepth fuel h (Some p) =
      Ok (if Predeclared pk || Learned pk then -1 else depth_fold 0 ds).
Proof.
  intros Hc Ha Hmax Hpk Hfuel.
  assert (p < length h)%nat as Hp by (by eapply lookup_lt_Some).
  destruct (closed_list_total h (Dependencies pk) fuel) as [ds Hds];
    [done|done|by apply (Hc p pk)|done|].
  exists ds. split; [done|].
  assert (∀ q z, DependencyDepth (length h) h q = Ok z → -1 ≤ z < int_max) as Hr.
  { intros q z Hz. apply DependencyDepth_range in Hz; lia. }
  split.
  { destruct (closed_list_total h (Dependencies pk) (length h)) as [ds' Hds'];
      [done|done|by apply (Hc p pk)|done|].
    assert (ds' = ds) as -> by (by eapply dependency_depths_det).
    eapply Forall2_Forall_r; [exact Hds'|]. apply Forall_true.
    intros q z Hz. apply Hr in Hz. lia. }
  destruct (DependencyDepth_total h p (length h) Hc Ha Hp) as [d Hd]; [done|].
  rewrite (DependencyDepth_mono _ _ _ _ Hd fuel Hfuel). f_equal.
  remember (length h) as n eqn:Hn. destruct n as [|m]; [lia|].
  rewrite (DependencyDepth_unfold h m p pk Hpk) in Hd.
  destruct (Predeclared pk || Learned pk); [by simplify_eq|].
  apply depth_loop_Ok in Hd as (ds' & Hds' & ->).
  - by assert (ds' = ds) as -> by (by eapply dependency_depths_det).
  - intros q z _ Hz. apply DependencyDepth_range in Hz; lia.
Qed.

(** C2: on an acyclic graph, the depth of a package is -1 when it is
    learned or predeclared, otherwise 0 when it has no dependencies, and
    otherwise one more than the greatest depth of its dependencies. *)
Theorem DependencyDepth_recurrence h p pk fuel :
  closed h → acyclic (dep_edge h) → Z.of_nat (length h) ≤ int_max →
  h !! p = Some pk → (length h ≤ fuel)%nat →
  ∃ ds,
    Forall2 (λ q d, DependencyDepth fuel h q = Ok d) (Dependencies pk) ds ∧
    DependencyDepth fuel h (Some p) = Ok (depth_spec pk ds).
Proof.
  intros Hc Ha Hmax Hpk Hfuel.
  destruct (DependencyDepth_value h p pk fuel) as (ds & Hds & Hfl & Hd); [done..|].
  exists ds. split; [done|]. rewrite Hd. f_equal.
  unfold depth_spec. rewrite (orb_comm (Learned pk)).
  destruct (Predeclared pk || Learned pk); [done|].
  by apply depth_fold_spec.
Qed.

Lemma max_depth_floor z zs :
  Forall (λ d, -1 ≤ d) (z :: zs) →
  max_depth z zs = -1 ↔ Forall (λ d, d = -1) (z :: zs).
Proof.
  unfold max_depth. revert z. induction zs as [|z' zs IH]; intros z Hz.
  - simpl. split; [by repeat constructor|by inv 1].
  - apply Forall_cons_1 in Hz as [Hz Hzs]. cbn [foldl].
    pose proof Hzs as [Hz' _]%Forall_cons_1.
    rewrite IH by (apply Forall_cons_1 in Hzs as [? ?]; constructor; [lia|done]).
    rewrite !Forall_cons. split.
    + intros [? ?]. split; [lia|]. split; [lia|done].
    + intros (? & ? & ?). split; [lia|done].
Qed.

Lemma dependency_depths_floor h fuel deps ds :
  closed h → acyclic (dep_edge h) → Z.of_nat (length h) ≤ int_max →
  closed_list h deps →
  Forall2 (λ q d, DependencyDepth fuel h q = Ok d) deps ds →
  Forall (λ d, -1 ≤ d) ds ∧
  (Forall (λ d, d = -1) ds ↔
   ∀ q qk, Some q ∈ deps → h !! q = Some qk →
     Learned qk = true ∨ Predeclared qk = true).
Proof.
  intros Hc Ha Hmax Hd Hds. induction Hds as [|q d deps ds Hq _ IH].
  - split; [done|]. split; [by intros _ ?? ?%elem_of_nil|done].
  - apply Forall_cons_1 in Hd as [(l & -> & Hl) Hd].
    destruct (IH Hd) as [IH1 IH2]. clear IH.
    destruct (lookup_lt_is_Some_2 h l Hl) as [lk Hlk].
    destruct (DependencyDepth_sign h fuel l lk d Hc Ha Hmax Hlk Hq) as [Hge Hiff].
    split; [by constructor|]. rewrite Forall_cons, IH2, Hiff. split.
    + intros [Hlk' Hrest] q qk [?|Hin]%elem_of_cons Hqk; simplify_eq; eauto.
    + intros H. split; [by apply (H l); [left|]|].
      intros q qk Hin. by apply H; right.
Qed.

(** C5, as the code has it: the depth is at least -1; it is -1 exactly
    for a learned or predeclared package; it is 0 exactly for a package
    that is neither and whose dependencies, if any, are all learned or
    predeclared. *)
Theorem DependencyDepth_levels h p pk fuel :
  closed h → acyclic (dep_edge h) → Z.of_nat (length h) ≤ int_max →
  h !! p = Some pk → (length h ≤ fuel)%nat →
  ∃ d, DependencyDepth fuel h (Some p) = Ok d ∧ -1 ≤ d ∧
    (d = -1 ↔ Learned pk = true ∨ Predeclared pk = true) ∧
    (d = 0 ↔
       Learned pk = false ∧ Predeclared pk = false ∧
       ∀ q qk, Some q ∈ Dependencies pk → h !! q = Some qk →
         Learned qk = true ∨ Predeclared qk = true).
Proof.
  intros Hc Ha Hmax Hpk Hfuel.
  destruct (DependencyDepth_value h p pk fuel) as (ds & Hds & _ & Hd); [done..|].
  eexists. split; [exact Hd|].
  destruct (DependencyDepth_sign h fuel p pk _ Hc Ha Hmax Hpk Hd) as [Hge Hiff].
  split; [done|]. split; [done|].
  destruct (dependency_depths_floor h fuel (Dependencies pk) ds) as [Hfl Hall];
    [done|done|done|by apply (Hc p pk)|done|].
  rewrite <-Hall. clear Hall Hiff Hge Hd.
  destruct (Learned pk), (Predeclared pk); simpl; try (split; [done|by intros (? & ? & ?)]).
  rewrite depth_fold_spec by done.
  destruct ds as [|z zs].
  - split; [by intros _|done].
  - pose proof (max_depth_floor z zs Hfl) as Hm. split.
    + intros ?. repeat split. apply Hm. lia.
    + intros (_ & _ & ?). apply Hm in H. lia.
Qed.


(** *** [Imported] *)

Lemma any_not_internal_true h li :
  any_not_internal h li = Ok true →
  ∃ q qk, Some q ∈ li ∧ h !! q = Some qk ∧ Internal qk = false.
Proof.
  induction li as [|d li IH]; simpl; [done|].
  intros (dk & (q & -> & Hq)%deref_Ok & H)%bind_Ok.
  destruct (Internal dk) eqn:E; simpl in H.
  - destruct (IH H) as (q' & qk & ? & ? & ?). exists q', qk. by split; [right|].
  - exists q, dk. by split; [left|].
Qed.

Lemma any_not_internal_false h li :
  any_not_internal h li = Ok false →
  ∀ q qk, Some q ∈ li → h !! q = Some qk → Internal qk = true.
Proof.
  induction li as [|d li IH]; simpl; [by intros _ ?? ?%elem_of_nil|].
  intros (dk & (l & -> & Hl)%deref_Ok & H)%bind_Ok q qk Hin Hq.
  destruct (Internal dk) eqn:E; simpl in H; [|done].
  apply elem_of_cons in Hin as [?|Hin]; [by simplify_eq|by eapply IH].
Qed.

Lemma any_not_internal_total h li :
  closed_list h li → ∃ b, any_not_internal h li = Ok b.
Proof.
  induction 1 as [|d li (l & -> & Hl) _ [b IH]]; cbn [any_not_internal];
    [by eauto|].
  destruct (lookup_lt_is_Some_2 h l Hl) as [dk Hdk].
  rewrite (deref_Some h l dk Hdk). cbn [bind].
  destruct (Internal dk); simpl; eauto.
Qed.

Lemma any_imported_true rec li :
  any_imported rec li = Ok true → ∃ q, q ∈ li ∧ rec q = Ok true.
Proof.
  induction li as [|d li IH]; simpl; [done|].
  intros ([] & Hd & H)%bind_Ok.
  - exists d. by split; [left|].
  - destruct (IH H) as (q & ? & ?). exists q. by split; [right|].
Qed.

Lemma any_imported_false rec li :
  any_imported rec li = Ok false → ∀ q, q ∈ li → rec q = Ok false.
Proof.
  induction li as [|d li IH]; simpl; [by intros _ ? ?%elem_of_nil|].
  intros ([] & Hd & H)%bind_Ok q Hin; [done|].
  apply elem_of_cons in Hin as [->|Hin]; [done|by apply IH].
Qed.

Lemma any_imported_ext rec1 rec2 li b :
  (∀ q c, q ∈ li → rec1 q = Ok c → rec2 q = Ok c) →
  any_imported rec1 li = Ok b → any_imported rec2 li = Ok b.
Proof.
  induction li as [|d li IH]; simpl; intros Hrec; [done|].
  intros (c & Hc & H)%bind_Ok.
  rewrite (Hrec d c) by (done || by left). simpl.
  destruct c; [done|]. apply IH; [|done].
  intros ????. apply Hrec; [by right|done].
Qed.

Lemma any_imported_total rec li :
  (∀ q, q ∈ li → ∃ c, rec q = Ok c) → ∃ b, any_imported rec li = Ok b.
Proof.
  induction li as [|d li IH]; simpl; intros Hrec; [by eauto|].
  destruct (Hrec d) as [c Hc]; [by left|]. rewrite Hc. simpl.
  destruct c; [by eauto|]. apply IH. intros ??. apply Hrec. by right.
Qed.

Lemma Imported_unfold h fuel p pk :
  h !! p = Some pk →
  Imported (S fuel) h (Some p) =
    direct ←! any_not_internal h (Dependants pk);
    if direct then Ok true
    else any_imported (Imported fuel h) (Dependants pk).
Proof. intros Hpk. cbn [Imported]. by rewrite (deref_Some h p pk Hpk). Qed.

Lemma Imported_mono h fuel p b :
  Imported fuel h p = Ok b →
  ∀ fuel', (fuel ≤ fuel')%nat → Imported fuel' h p = Ok b.
Proof.
  revert p b. induction fuel as [|fuel IH]; [done|].
  intros p b H [|fuel'] Hle; [lia|]. cbn [Imported] in *.
  apply bind_Ok in H as (pk & -> & H). cbn [bind] in *.
  apply bind_Ok in H as (direct & -> & H). cbn [bind].
  destruct direct; [done|].
  eapply any_imported_ext; [|done]. intros q c _ Hq. apply (IH _ _ Hq). lia.
Qed.

Lemma Imported_terminates h :
  closed h → acyclic (dependant_edge h) →
  ∀ fuel anc p, chain (dependant_edge h) (length h) anc p →
    (length h < fuel + length (p :: anc))%nat →
    ∃ b, Imported fuel h (Some p) = Ok b.
Proof.
  intros Hc Ha. induction fuel as [|fuel IH]; intros anc p Hch Hlen.
  - apply chain_length in Hch. lia.
  - destruct Hch as (? & ? & Hlt).
    apply Forall_cons_1 in Hlt as [Hp Hlt].
    destruct (lookup_lt_is_Some_2 h p Hp) as [pk Hpk].
    rewrite (Imported_unfold h fuel p pk Hpk).
    destruct (Hc p pk Hpk) as [_ Hd].
    destruct (any_not_internal_total h _ Hd) as [direct ->]. cbn [bind].
    destruct direct; [by eauto|].
    apply any_imported_total. intros q Hq.
    unfold closed_list in Hd. rewrite Forall_forall in Hd.
    destruct (Hd q Hq) as (l & -> & _).
    apply (IH (p :: anc)); [|simpl in *; lia].
    apply chain_step; [by intros ??; apply dependant_edge_range|done| |by exists pk].
    repeat split; [done..|by constructor].
Qed.

Lemma Imported_total h p fuel :
  closed h → acyclic (dependant_edge h) → (p < length h)%nat →
  (length h ≤ fuel)%nat → ∃ b, Imported fuel h (Some p) = Ok b.
Proof.
  intros Hc Ha Hp Hfuel.
  destruct (Imported_terminates h Hc Ha (length h) [] p) as [b Hb];
    [by apply chain_start|simpl; lia|].
  exists b. by eapply Imported_mono.
Qed.

(** A package that is reported imported has a chain of dependants that
    ends in a non-internal package. *)
Lemma Imported_sound h fuel p :
  Imported fuel h (Some p) = Ok true →
  ∃ q qk, tc (dependant_edge h) p q ∧ h !! q = Some qk ∧ Internal qk = false.
Proof.
  revert p. induction fuel as [|fuel IH]; [done|]. intros p H.
  cbn [Imported] in H.
  apply bind_Ok in H as (pk & (? & [= <-] & Hpk)%deref_Ok & H).
  apply bind_Ok in H as ([] & Hdirect & H).
  - apply any_not_internal_true in Hdirect as (q & qk & Hin & Hq & Hint).
    exists q, qk. split; [|done]. apply tc_once. by exists pk.
  - apply any_imported_true in H as ([d|] & Hin & Hd).
    + destruct (IH d Hd) as (q & qk & Hreach & Hq & Hint).
      exists q, qk. split; [|done]. eapply tc_l; [|done]. by exists pk.
    + by destruct fuel.
Qed.

(** A chain of dependants that ends in a non-internal package makes
    every answer of [Imported] true. *)
Lemma Imported_complete h p q qk :
  tc (dependant_edge h) p q → h !! q = Some qk → Internal qk = false →
  ∀ fuel b, Imported fuel h (Some p) = Ok b → b = true.
Proof.
  intros Hreach Hq Hint. induction Hreach as [p q (pk & Hpk & Hin)|p d q (pk & Hpk & Hin) _ IH];
    intros [|fuel] b H; try done.
  - rewrite (Imported_unfold h fuel p pk Hpk) in H.
    apply bind_Ok in H as ([] & Hdirect & H); [by simplify_eq|].
    pose proof (any_not_internal_false _ _ Hdirect q qk Hin Hq). congruence.
  - rewrite (Imported_unfold h fuel p pk Hpk) in H.
    apply bind_Ok in H as ([] & Hdirect & H); [by simplify_eq|].
    destruct b; [done|].
    pose proof (any_imported_false _ _ H (Some d) Hin) as Hd.
    by apply (IH Hq) in Hd.
Qed.

(** C3: on an acyclic dependants graph, [Imported] is true exactly for
    the packages from which one dependant edge or more lead to a
    non-internal package; it is false for a package without dependants. *)
Theorem Imported_reachability h p pk fuel :
  closed h → acyclic (dependant_edge h) →
  h !! p = Some pk → (length h ≤ fuel)%nat →
  ∃ b, Imported fuel h (Some p) = Ok b ∧
    (b = true ↔
       ∃ q qk, tc (dependant_edge h) p q ∧ h !! q = Some qk ∧
               Internal qk = false) ∧
    (Dependants pk = [] → b = false).
Proof.
  intros Hc Ha Hpk Hfuel.
  assert (p < length h)%nat as Hp by (by eapply lookup_lt_Some).
  destruct (Imported_total h p fuel Hc Ha Hp Hfuel) as [b Hb].
  exists b. split; [done|]. split; [split|].
  - intros ->. by eapply Imported_sound.
  - intros (q & qk & Hreach & Hq & Hint). by eapply Imported_complete.
  - intros Hnone. destruct fuel as [|fuel]; [done|].
    rewrite (Imported_unfold h fuel p pk Hpk), Hnone in Hb. by simplify_eq/=.
Qed.


(** *** Termination *)

Lemma self_import_lookup :
  self_import !! 0%nat =
    Some (mkPackage "internal/a" false [Some 0%nat] [Some 0%nat] true).
Proof. done. Qed.

Lemma self_import_not_predeclared :
  Predeclared (mkPackage "internal/a" false [Some 0%nat] [Some 0%nat] true)
  = false.
Proof.
  unfold Predeclared, Name, IsVendor. cbn [RelPath].
  by destruct (bool_decide (_ = vendorRelPath)); vm_compute.
Qed.

Lemma self_import_exhausts fuel :
  DependencyDepth fuel self_import (Some 0%nat) = OutOfFuel ∧
  Imported fuel self_import (Some 0%nat) = OutOfFuel.
Proof.
  induction fuel as [|fuel [IH1 IH2]]; [done|]. split.
  - rewrite (DependencyDepth_unfold _ _ _ _ self_import_lookup).
    rewrite self_import_not_predeclared. cbn. by rewrite IH1.
  - rewrite (Imported_unfold _ _ _ _ self_import_lookup). cbn. by rewrite IH2.
Qed.

(** C9: on an acyclic import graph both recursive functions return, on
    every package, once the budget is the number of packages; neither
    checks for a cycle: on a package that imports itself both exhaust
    every budget. *)
Theorem recursion_terminates h p fuel :
  closed h → mirrored h → acyclic (dep_edge h) →
  (p < length h)%nat → (length h ≤ fuel)%nat →
  (∃ d, DependencyDepth fuel h (Some p) = Ok d) ∧
  (∃ b, Imported fuel h (Some p) = Ok b) ∧
  (∀ budget,
     DependencyDepth budget self_import (Some 0%nat) = OutOfFuel ∧
     Imported budget self_import (Some 0%nat) = OutOfFuel).
Proof.
  intros Hc Hm Ha Hp Hfuel. split; [|split].
  - by apply DependencyDepth_total.
  - apply Imported_total; [done| |done..]. by apply mirrored_acyclic.
  - apply self_import_exhausts.
Qed.

(** *** Checking a given heap *)

Lemma closed_listb_sound h li :
  closed_listb (length h) li = true → closed_list h li.
Proof.
  unfold closed_listb, closed_list. rewrite forallb_forall, Forall_forall.
  intros H q Hq%list_elem_of_In. specialize (H q Hq).
  destruct q as [l|]; [|done]. exists l. split; [done|]. by apply Nat.ltb_lt.
Qed.

Lemma closedb_sound h : closedb h = true → closed h.
Proof.
  unfold closedb. rewrite forallb_forall. intros H p pk Hpk.
  specialize (H pk). rewrite andb_true_iff in H.
  destruct H as [? ?]; [by eapply list_elem_of_In, list_elem_of_lookup_2|].
  by split; apply closed_listb_sound.
Qed.

Lemma imap_pair_In (h : list Package) p pk :
  h !! p = Some pk → In (p, pk) (imap pair h).
Proof.
  intros H. apply list_elem_of_In, list_elem_of_lookup. exists p.
  by rewrite list_lookup_imap, H.
Qed.

Lemma layeredb_dep_edge h p q :
  layeredb h = true → dep_edge h p q → (q < p)%nat.
Proof.
  unfold layeredb. rewrite forallb_forall. intros H (pk & Hpk & Hin).
  specialize (H (p, pk) (imap_pair_In h p pk Hpk)). cbn in H.
  apply andb_true_iff in H as [H _]. rewrite forallb_forall in H.
  specialize (H (Some q)). apply Nat.ltb_lt, H. by apply list_elem_of_In.
Qed.

Lemma layeredb_dependant_edge h p q :
  layeredb h = true → dependant_edge h p q → (p < q)%nat.
Proof.
  unfold layeredb. rewrite forallb_forall. intros H (pk & Hpk & Hin).
  specialize (H (p, pk) (imap_pair_In h p pk Hpk)). cbn in H.
  apply andb_true_iff in H as [_ H]. rewrite forallb_forall in H.
  specialize (H (Some q)). apply Nat.ltb_lt, H. by apply list_elem_of_In.
Qed.

Lemma layeredb_acyclic h :
  layeredb h = true →
  acyclic (dep_edge h) ∧ acyclic (dependant_edge h).
Proof.
  intros H. split; intros p Hp.
  - enough (∀ a b, tc (dep_edge h) a b → (b < a)%nat) as Hlt
      by (specialize (Hlt p p Hp); lia).
    induction 1 as [a b Hab|a b c Hab _ IH].
    + by eapply layeredb_dep_edge.
    + pose proof (layeredb_dep_edge h a b H Hab). lia.
  - enough (∀ a b, tc (dependant_edge h) a b → (a < b)%nat) as Hlt
      by (specialize (Hlt p p Hp); lia).
    induction 1 as [a b Hab|a b c Hab _ IH].
    + by eapply layeredb_dependant_edge.
    + pose proof (layeredb_dependant_edge h a b H Hab). lia.
Qed.

Lemma mirroredb_sound h : mirroredb h = true → mirrored h.
Proof.
  unfold mirroredb. rewrite forallb_forall. intros H p q (pk & Hpk & Hin).
  specialize (H (p, pk) (imap_pair_In h p pk Hpk)). cbn in H.
  rewrite forallb_forall in H. specialize (H (Some q)). cbn in H.
  destruct (h !! q) as [qk|] eqn:Hq.
  - exists qk. split; [done|]. eapply bool_decide_eq_true_1, H.
    by apply list_elem_of_In.
  - discriminate H. by apply list_elem_of_In.
Qed.


(** *** Strings *)

Lemma app_String a s t : String a s +:+ t = String a (s +:+ t).
Proof. reflexivity. Qed.

Lemma len_app s t : len (s +:+ t) = (len s + len t)%nat.
Proof.
  induction s as [|a s IH]; [done|].
  rewrite app_String. unfold len in *. cbn [String.length]. by rewrite IH.
Qed.

Lemma prefix_spec sub s :
  String.prefix sub s = true ↔ ∃ post, s = sub +:+ post.
Proof.
  revert s. induction sub as [|a sub IH]; intros s.
  - split; [by exists s|]. intros _. by destruct s.
  - destruct s as [|b s]; cbn [String.prefix].
    + split; [done|]. by intros [post ?].
    + destruct (Ascii.ascii_dec a b) as [->|Hne].
      * rewrite IH. split; intros [post Hpost]; exists post.
        -- by rewrite app_String, Hpost.
        -- rewrite app_String in Hpost. by simplify_eq.
      * split; [done|]. intros [post Hpost].
        rewrite app_String in Hpost. by simplify_eq.
Qed.

Lemma Contains_spec s sub : Contains s sub = true ↔ substring_of sub s.
Proof.
  unfold substring_of. induction s as [|a s IH]; cbn [Contains];
    rewrite orb_true_iff, prefix_spec; split.
  - intros [[post ?]|?]; [|done]. by exists EmptyString, post.
  - intros ([|??] & post & H); [|by rewrite app_String in H].
    left. by exists post.
  - intros [[post ?]|(pre & post & ->)%IH].
    + by exists EmptyString, post.
    + by exists (String a pre), post.
  - intros ([|b pre] & post & H).
    + left. by exists post.
    + right. apply IH. rewrite app_String in H. simplify_eq. by exists pre, post.
Qed.

(** The first element of a split is a prefix of the string, and every
    element occurs in it. *)
Lemma Split_shape s sep :
  ∃ x xs, Split s sep = x :: xs ∧ (∃ post, s = x +:+ post) ∧
          ∀ e, e ∈ x :: xs → substring_of e s.
Proof.
  induction s as [|c s (x & xs & Hs & [post Hx] & Hall)]; cbn [Split].
  - exists EmptyString, []. split; [done|]. split; [by exists EmptyString|].
    intros e ->%list_elem_of_singleton. by exists EmptyString, EmptyString.
  - rewrite Hs. destruct (Ascii.eqb c sep).
    + exists EmptyString, (x :: xs). split; [done|].
      split; [by exists (String c s)|].
      intros e [->|He]%elem_of_cons; [by exists EmptyString, (String c s)|].
      destruct (Hall e He) as (pre & post' & ->). by exists (String c pre), post'.
    + exists (String c x), xs. split; [done|].
      split; [by exists post; rewrite app_String, <-Hx|].
      intros e [->|He]%elem_of_cons.
      * exists EmptyString, post. by rewrite Hx at 1.
      * destruct (Hall e) as (pre & post' & ->); [by right|].
        by exists (String c pre), post'.
Qed.

Lemma Split_substring s sep e : e ∈ Split s sep → substring_of e s.
Proof.
  destruct (Split_shape s sep) as (x & xs & -> & _ & Hall). apply Hall.
Qed.

Lemma slice_from_Panic s n : slice_from s n = Panic ↔ (len s < n)%nat.
Proof.
  unfold slice_from. destruct (Nat.leb_spec n (len s)); split; (done || lia).
Qed.

(** *** [NewPackage] *)

Lemma NewPackage_cases st fullPath :
  match pkgsByLocation st !! fullPath with
  | Some _ =>
      NewPackage st fullPath = Ok (st, None, Some (duplicate_error fullPath))
  | None =>
      if decide (fullPath = standardLibraryPath) then
        NewPackage st fullPath =
          Ok (alloc st fullPath (mkPackage EmptyString false [] [] false),
              Some (length (heap st)), None)
      else if decide (len standardLibraryPath + 1 ≤ len fullPath)%nat then
        ∃ relPath,
          slice_from fullPath (len standardLibraryPath + 1) = Ok relPath ∧
          NewPackage st fullPath =
            Ok (alloc st fullPath
                  (mkPackage relPath false [] [] (Contains relPath "internal")),
                Some (length (heap st)), None)
      else NewPackage st fullPath = Panic
  end.
Proof.
  unfold NewPackage. destruct (pkgsByLocation st !! fullPath); [done|].
  destruct (decide (fullPath = standardLibraryPath)); [done|].
  rewrite len_app. change (len "/") with 1%nat. unfold slice_from.
  destruct (decide _) as [Hle|Hgt].
  - apply Nat.leb_le in Hle. rewrite Hle. eauto.
  - by apply Nat.leb_nle in Hgt as ->.
Qed.

Lemma registry_ok_empty h m : registry_ok (mkState h ∅ m).
Proof. intros ?? H. cbn in H. by rewrite lookup_empty in H. Qed.

Lemma registry_ok_NewPackage st fullPath st' pkg err :
  registry_ok st → NewPackage st fullPath = Ok (st', pkg, err) →
  registry_ok st'.
Proof.
  intros Hok H. pose proof (NewPackage_cases st fullPath) as Hc.
  destruct (pkgsByLocation st !! fullPath); [by rewrite Hc in H; simplify_eq|].
  destruct (decide (fullPath = standardLibraryPath)) as [->|Hne].
  - rewrite Hc in H. simplify_eq. intros k l. cbn.
    rewrite lookup_insert. case_decide; [by left; simplify_eq|by apply Hok].
  - destruct (decide _) as [Hle|Hgt]; [|by rewrite Hc in H].
    destruct Hc as (relPath & _ & Hc). rewrite Hc in H. simplify_eq.
    intros k l. cbn. rewrite lookup_insert.
    case_decide; [by right; simplify_eq|by apply Hok].
Qed.

(** C7, as the code has it: an identity that is registered is refused
    with the duplicate error and the state stays as it was; an identity
    that is not, and that is the root or long enough to hold a relative
    path, gets one new package at a new address, registered under it. *)
Theorem NewPackage_registry st fullPath :
  (∀ l, pkgsByLocation st !! fullPath = Some l →
     NewPackage st fullPath = Ok (st, None, Some (duplicate_error fullPath))) ∧
  (pkgsByLocation st !! fullPath = None →
   fullPath = standardLibraryPath ∨
     (len standardLibraryPath + 1 ≤ len fullPath)%nat →
   ∃ pk, NewPackage st fullPath =
     Ok (mkState (heap st ++ [pk])
                 (<[fullPath := length (heap st)]> (pkgsByLocation st))
                 (pkgsByDependencyDepth st),
         Some (length (heap st)), None)).
Proof.
  pose proof (NewPackage_cases st fullPath) as Hc. split.
  - intros l Hl. by rewrite Hl in Hc.
  - intros Hnone Hpre. rewrite Hnone in Hc.
    destruct (decide (fullPath = standardLibraryPath)); [by eauto|].
    destruct (decide _); [|by destruct Hpre].
    destruct Hc as (relPath & _ & Hc). by eauto.
Qed.

(** C10: [NewPackage] panics exactly on an identity that differs from
    the root and is shorter than the root and a separator: there the
    slice that takes out the relative path is out of range. *)
Theorem NewPackage_precondition st fullPath :
  registry_ok st →
  (NewPackage st fullPath = Panic ↔
     fullPath ≠ standardLibraryPath ∧
     (len fullPath < len standardLibraryPath + 1)%nat) ∧
  (slice_from fullPath (len (standardLibraryPath +:+ "/")) = Panic ↔
     (len fullPath < len standardLibraryPath + 1)%nat).
Proof.
  intros Hok. split; [|by rewrite slice_from_Panic, len_app].
  pose proof (NewPackage_cases st fullPath) as Hc.
  destruct (pkgsByLocation st !! fullPath) as [l|] eqn:Hl.
  - rewrite Hc. split; [done|]. intros [Hne Hlt].
    destruct (Hok fullPath l Hl); [done|lia].
  - destruct (decide (fullPath = standardLibraryPath)).
    + rewrite Hc. split; [done|]. by intros [? _].
    + destruct (decide _).
      * destruct Hc as (relPath & _ & ->). split; [done|]. intros [_ ?]. lia.
      * split; [intros _; split; [done|lia]|done].
Qed.


(** *** Sorting and deduplication *)

Lemma ltb_false_le x y : String.ltb y x = false ↔ String.le x y.
Proof.
  unfold String.le, String.ltb, String.leb.
  rewrite (String.compare_antisym x y).
  by destruct (String.compare y x).
Qed.

Lemma Less_StrictWeak h : StrictWeak (Less h).
Proof.
  unfold Less. split.
  - intros a b. unfold String.ltb.
    rewrite (String.compare_antisym (name_of h b)).
    by destruct (String.compare (name_of h a) (name_of h b)).
  - intros a b c. rewrite !ltb_false_le. intros ??. by etrans.
Qed.

Lemma Sorted_mono {A} (R1 R2 : relation A) l :
  (∀ a b, R1 a b → R2 a b) → Sorted R1 l → Sorted R2 l.
Proof.
  intros H. induction 1 as [|a l _ IH Hhd]; constructor; [done|].
  destruct Hhd; constructor; auto.
Qed.

Lemma Sort_Ok h li sorted :
  Sort h li = Ok sorted → sorted ≡ₚ li ∧ name_sorted h sorted.
Proof.
  unfold Sort. destruct (Sort_panics h li); [done|]. intros [= <-].
  split; [apply sort_Sort_perm|].
  pose proof (sort_Sort_sorted _ (Less h) li (Less_StrictWeak h)) as Hs.
  unfold name_sorted. eapply Sorted_mono; [|exact Hs].
  intros a b. apply ltb_false_le.
Qed.

Lemma valid_true h q : valid h q = true ↔ ∃ l, q = Some l ∧ (l < length h)%nat.
Proof.
  unfold valid, deref. destruct q as [l|]; [|split; [done|by intros (? & ? & ?)]].
  destruct (h !! l) eqn:E.
  - split; [|done]. intros _. exists l. split; [done|]. by eapply lookup_lt_Some.
  - split; [done|]. intros (? & [= <-] & Hlt).
    apply lookup_lt_is_Some_2 in Hlt as [? ?]. congruence.
Qed.

Lemma Sort_closed h li :
  closed_list h li → Sort h li = Ok (sort_Sort (Less h) li).
Proof.
  intros Hc. unfold Sort, Sort_panics.
  replace (forallb (valid h) li) with true; [by rewrite andb_false_r|].
  symmetry. apply forallb_forall. intros q Hq%list_elem_of_In.
  unfold closed_list in Hc. rewrite Forall_forall in Hc. by apply valid_true, Hc.
Qed.

Lemma makeUnique_hd a li : ∃ tl, makeUnique (a :: li) = a :: tl.
Proof.
  revert a. induction li as [|b li IH]; intros a; [by exists []|].
  cbn [makeUnique]. destruct (decide (a = b)) as [->|]; [apply IH|by eauto].
Qed.

Lemma makeUnique_cons a b li :
  makeUnique (a :: b :: li) =
    if decide (a = b) then makeUnique (b :: li) else a :: makeUnique (b :: li).
Proof. done. Qed.

Lemma makeUnique_Sorted (R : relation (option nat)) li :
  Sorted R li → Sorted R (makeUnique li).
Proof.
  induction li as [|a [|b li] IH]; [done..|]. intros [Hs Hhd]%Sorted_inv.
  rewrite makeUnique_cons. destruct (decide (a = b)); [by apply IH|].
  constructor; [by apply IH|].
  destruct (makeUnique_hd b li) as [tl ->]. constructor. by inv Hhd.
Qed.

Lemma makeUnique_no_repeat li : no_adjacent_repeat (makeUnique li).
Proof.
  unfold no_adjacent_repeat. induction li as [|a [|b li] IH].
  - constructor.
  - by repeat constructor.
  - rewrite makeUnique_cons. destruct (decide (a = b)); [done|].
    constructor; [done|]. destruct (makeUnique_hd b li) as [tl ->]. by constructor.
Qed.

Lemma makeUnique_elem x li : x ∈ makeUnique li ↔ x ∈ li.
Proof.
  induction li as [|a [|b li] IH]; [done..|].
  rewrite makeUnique_cons. destruct (decide (a = b)) as [->|].
  - rewrite IH. rewrite !elem_of_cons. tauto.
  - rewrite (elem_of_cons (makeUnique _)), IH, !elem_of_cons. tauto.
Qed.

Lemma name_of_lookup h l pk : h !! l = Some pk → name_of h (Some l) = Name pk.
Proof. intros H. unfold name_of. by rewrite (deref_Some h l pk H). Qed.

(** A list in ascending name order without adjacent repeats has no
    repeats at all when the names tell the packages apart. *)
Lemma sorted_NoDup h li :
  closed_list h li → distinct_names h →
  name_sorted h li → no_adjacent_repeat li → NoDup li.
Proof.
  intros Hc Hdn Hs Hr.
  set (R := λ a b : option nat,
         String.le (name_of h a) (name_of h b) ∧ name_of h a ≠ name_of h b).
  assert (Transitive R) as HR.
  { intros a b c [Hab Hab'] [Hbc Hbc']. split; [by etrans|].
    intros Heq. rewrite <-Heq in Hbc. apply Hab'. by apply (anti_symm String.le). }
  assert (Sorted R li) as HsR.
  { unfold closed_list, name_sorted, no_adjacent_repeat in *.
    induction li as [|a li IH]; [constructor|].
    apply Sorted_inv in Hs as [Hs Hhd]. apply Sorted_inv in Hr as [Hr Hhd'].
    apply Forall_cons_1 in Hc as [(la & -> & Hla) Hc].
    constructor; [by apply IH|].
    destruct li as [|b li]; [constructor|].
    apply Forall_cons_1 in Hc as [(lb & -> & Hlb) _].
    inv Hhd. inv Hhd'. constructor. split; [done|].
    destruct (lookup_lt_is_Some_2 h la Hla) as [ak Hak].
    destruct (lookup_lt_is_Some_2 h lb Hlb) as [bk Hbk].
    rewrite (name_of_lookup h la ak), (name_of_lookup h lb bk) by done.
    intros Heq. pose proof (Hdn la lb ak bk Hak Hbk Heq). congruence. }
  apply Sorted_StronglySorted in HsR; [|done].
  clear -HsR. induction HsR as [|a li _ IH Hall]; constructor; [|done].
  rewrite Forall_forall in Hall. intros Hin. by destruct (Hall a Hin) as [_ ?].
Qed.

(** *** Adding edges *)

Lemma update_Ok h p f h' :
  update h p f = Ok h' ↔
  ∃ l pk, p = Some l ∧ h !! l = Some pk ∧ h' = <[l := f pk]> h.
Proof.
  unfold update. destruct p as [l|]; [destruct (h !! l) eqn:E|];
    (split; [intros ?|intros (? & ? & ? & ? & ?)]); simplify_eq; eauto.
Qed.

Lemma add_edge_Ok h pkg importedPkg h' :
  add_edge h pkg importedPkg = Ok h' →
  ∃ p i pk sorted,
    pkg = Some p ∧ importedPkg = Some i ∧ h !! p = Some pk ∧
    (i < length h)%nat ∧
    Sort h (Dependencies pk ++ [Some i]) = Ok sorted ∧
    length h' = length h ∧
    ∀ l lk, h !! l = Some lk →
      h' !! l = Some (edge_added h p i (makeUnique sorted) l lk).
Proof.
  unfold add_edge, DependsOn.
  intros (h1 & (pk & (p & -> & Hpk)%deref_Ok & H1)%bind_Ok & H)%bind_Ok.
  apply bind_Ok in H1 as (sorted & Hsort & (? & ? & [= <-] & Hpk' & ->)%update_Ok).
  apply bind_Ok in H as (ik & (i & -> & Hik)%deref_Ok & (? & ? & [= <-] & Hik' & ->)%update_Ok).
  simplify_eq. exists p, i, pk, sorted.
  assert (p < length h)%nat as Hp by (by eapply lookup_lt_Some).
  assert (i < length h)%nat as Hi
    by (apply lookup_lt_Some in Hik; by rewrite length_insert in Hik).
  repeat split; [done..|by rewrite !length_insert|].
  intros l lk Hl. unfold edge_added.
  destruct (decide (l = i)) as [->|Hli].
  - rewrite list_lookup_insert_eq by (by rewrite length_insert). f_equal.
    destruct (decide (i = p)) as [->|Hip].
    + rewrite list_lookup_insert_eq in Hik by done. by simplify_eq.
    + rewrite list_lookup_insert_ne in Hik by done. simplify_eq. by destruct ik.
  - rewrite list_lookup_insert_ne by done.
    destruct (decide (l = p)) as [->|Hlp].
    + rewrite list_lookup_insert_eq by done. by simplify_eq.
    + rewrite list_lookup_insert_ne by done. rewrite Hl. by destruct lk.
Qed.


Lemma name_sorted_ext h h' li :
  (∀ q, name_of h' q = name_of h q) → name_sorted h li → name_sorted h' li.
Proof. intros He. apply Sorted_mono. intros a b. by rewrite !He. Qed.

Lemma closed_list_length h h' li :
  length h' = length h → closed_list h li → closed_list h' li.
Proof. unfold closed_list. by intros ->. Qed.

Lemma name_of_same_RelPath h h' :
  length h' = length h →
  (∀ l lk, h !! l = Some lk → ∃ lk', h' !! l = Some lk' ∧ RelPath lk' = RelPath lk) →
  ∀ q, name_of h' q = name_of h q.
Proof.
  intros Hlen Hsame [l|]; [|done]. unfold name_of, deref.
  destruct (h !! l) as [lk|] eqn:Hl.
  - destruct (Hsame l lk Hl) as (lk' & -> & Hrel).
    unfold Name, IsVendor. by rewrite Hrel.
  - apply lookup_ge_None in Hl. rewrite <-Hlen in Hl.
    by apply lookup_ge_None in Hl as ->.
Qed.

Lemma add_edge_names h pkg importedPkg h' :
  add_edge h pkg importedPkg = Ok h' → ∀ q, name_of h' q = name_of h q.
Proof.
  intros (p & i & pk & sorted & _ & _ & _ & _ & _ & Hlen & Hlook)%add_edge_Ok.
  apply name_of_same_RelPath; [done|]. intros l lk Hl.
  eexists. by split; [apply Hlook|].
Qed.

Lemma add_edge_inv h pkg importedPkg h' :
  closed h → deps_sorted h → mirrored h →
  add_edge h pkg importedPkg = Ok h' →
  closed h' ∧ deps_sorted h' ∧ mirrored h'.
Proof.
  intros Hc Hs Hm Hadd. pose proof (add_edge_names _ _ _ _ Hadd) as Hnames.
  apply add_edge_Ok in Hadd
    as (p & i & pk & sorted & -> & -> & Hpk & Hi & Hsort & Hlen & Hlook).
  apply Sort_Ok in Hsort as [Hperm Hsorted].
  assert (p < length h)%nat as Hp by (by eapply lookup_lt_Some).
  assert (∀ x, x ∈ makeUnique sorted ↔ x ∈ Dependencies pk ∨ x = Some i) as Helem.
  { intros x. rewrite makeUnique_elem, Hperm, elem_of_app, list_elem_of_singleton. done. }
  assert (∀ l lk', h' !! l = Some lk' →
            ∃ lk, h !! l = Some lk ∧ lk' = edge_added h p i (makeUnique sorted) l lk)
    as Hback.
  { intros l lk' Hl'. pose proof (lookup_lt_Some _ _ _ Hl') as Hlt.
    rewrite Hlen in Hlt. destruct (lookup_lt_is_Some_2 h l Hlt) as [lk Hl].
    exists lk. split; [done|]. rewrite (Hlook l lk Hl) in Hl'. by simplify_eq. }
  split; [|split].
  - intros l lk' (lk & Hl & ->)%Hback. unfold edge_added. cbn.
    destruct (Hc l lk Hl) as [Hd1 Hd2]. split.
    + apply (closed_list_length h); [done|]. case_decide; [|done].
      apply Forall_forall. intros x [Hx| ->]%Helem; [|by eauto].
      destruct (Hc p pk Hpk) as [Hd _]. unfold closed_list in Hd.
      rewrite Forall_forall in Hd. by apply Hd.
    + apply (closed_list_length h); [done|]. case_decide; [|done].
      apply Forall_app. split; [done|]. repeat constructor. by eauto.
  - intros l lk' (lk & Hl & ->)%Hback. unfold edge_added. cbn.
    case_decide as Hlp.
    + split; [|apply makeUnique_no_repeat].
      by apply (name_sorted_ext h), makeUnique_Sorted.
    + destruct (Hs l lk Hl). split; [by apply (name_sorted_ext h)|done].
  - intros a b (ak' & (ak & Ha & ->)%Hback & Hin). unfold edge_added in Hin.
    cbn in Hin.
    assert (Some b ∈ Dependants ak ∨ (a = i ∧ b = p)) as [Hold|[-> ->]].
    { case_decide; [|by left]. apply elem_of_app in Hin as [?|Hin]; [by left|].
      apply list_elem_of_singleton in Hin. right. by simplify_eq. }
    + destruct (Hm a b) as (bk & Hb & Hab); [by exists ak|].
      exists (edge_added h p i (makeUnique sorted) b bk). split; [by apply Hlook|].
      unfold edge_added. cbn. destruct (decide (b = p)) as [->|]; [|done].
      simplify_eq. apply Helem. by left.
    + exists (edge_added h p i (makeUnique sorted) p pk). split; [by apply Hlook|].
      unfold edge_added. cbn. rewrite decide_True by done. apply Helem. by right.
Qed.

Lemma no_edges_inv h : no_edges h → closed h ∧ deps_sorted h ∧ mirrored h.
Proof.
  unfold no_edges. rewrite Forall_forall. intros Hne.
  assert (∀ p pk, h !! p = Some pk → Dependencies pk = [] ∧ Dependants pk = [])
    as Hnone by (intros p pk Hpk; by eapply Hne, list_elem_of_lookup_2).
  split; [|split].
  - intros p pk [-> ->]%Hnone. by split; constructor.
  - intros p pk [-> _]%Hnone. by split; constructor.
  - intros p q (pk & Hpk & Hin). apply Hnone in Hpk as [_ Hd].
    rewrite Hd in Hin. by apply elem_of_nil in Hin.
Qed.

(** The graph that edge additions build is closed, its dependencies are
    sorted, and its dependants mirror its dependencies. *)
Lemma edges_added_inv h0 h :
  no_edges h0 → edges_added h0 h → closed h ∧ deps_sorted h ∧ mirrored h.
Proof.
  intros Hne. induction 1 as [|h1 h2 pkg importedPkg _ IH Hadd].
  - by apply no_edges_inv.
  - destruct IH as (? & ? & ?). by eapply add_edge_inv.
Qed.

(** *** The pass of [main] over the dependants *)

Lemma normalize_dependants_spec order : ∀ h h',
  normalize_dependants h order = Ok h' →
  length h' = length h ∧
  (∀ q, name_of h' q = name_of h q) ∧
  ∀ l lk', h' !! l = Some lk' →
    ∃ lk, h !! l = Some lk ∧ Dependencies lk' = Dependencies lk ∧
      (∀ x, x ∈ Dependants lk' → x ∈ Dependants lk) ∧
      (l ∈ order →
         name_sorted h (Dependants lk') ∧ no_adjacent_repeat (Dependants lk')) ∧
      (l ∉ order → Dependants lk' = Dependants lk).
Proof.
  induction order as [|l0 order IH]; intros h h' H; cbn [normalize_dependants] in H.
  - simplify_eq. split; [done|]. split; [done|]. intros l lk Hl. exists lk.
    split; [done|]. split; [done|]. split; [done|].
    split; [by intros ?%elem_of_nil|done].
  - apply bind_Ok in H as (k0 & (? & [= <-] & Hk0)%deref_Ok & H).
    apply bind_Ok in H as (sorted & [Hperm Hsorted]%Sort_Ok & H).
    apply bind_Ok in H as (h1 & (? & ? & [= <-] & ? & ->)%update_Ok & H).
    simplify_eq.
    assert (l0 < length h)%nat as Hl0 by (by eapply lookup_lt_Some).
    apply IH in H as (Hlen & Hnames & Hall). rewrite length_insert in Hlen.
    assert (∀ q, name_of (<[l0:=set_Dependants (makeUnique sorted) k0]> h) q
                 = name_of h q) as Hnames1.
    { apply name_of_same_RelPath; [by rewrite length_insert|]. intros l lk Hl.
      destruct (decide (l = l0)) as [->|].
      - rewrite list_lookup_insert_eq by done. simplify_eq. by eauto.
      - rewrite list_lookup_insert_ne by done. by eauto. }
    split; [done|]. split; [by intros q; rewrite Hnames|].
    intros l lk' (lk1 & Hl1 & Hdeps & Hsub & Hin & Hout)%Hall.
    destruct (decide (l = l0)) as [->|Hne].
    + rewrite list_lookup_insert_eq in Hl1 by done. simplify_eq.
      exists k0. split; [done|]. split; [done|]. cbn in *. split; [|split].
      * intros x Hx%Hsub. by rewrite makeUnique_elem, Hperm in Hx.
      * intros _. destruct (decide (l0 ∈ order)) as [Hl|Hl].
        -- destruct (Hin Hl). split; [by apply (name_sorted_ext _ h) in H|done].
        -- rewrite (Hout Hl). split; [by apply makeUnique_Sorted|].
           apply makeUnique_no_repeat.
      * intros Hnot. exfalso. apply Hnot. by left.
    + rewrite list_lookup_insert_ne in Hl1 by done.
      exists lk1. split; [done|]. split; [done|]. split; [done|]. split.
      * intros [?|Hl]%elem_of_cons; [done|]. destruct (Hin Hl).
        split; [by eapply name_sorted_ext; [|done]|done].
      * intros Hnot. apply Hout. intros ?. apply Hnot. by right.
Qed.

Lemma normalize_dependants_total order : ∀ h,
  closed h → Forall (λ l, (l < length h)%nat) order →
  ∃ h', normalize_dependants h order = Ok h'.
Proof.
  induction order as [|l0 order IH]; intros h Hc Hord; [by eexists|].
  apply Forall_cons_1 in Hord as [Hl0 Hord].
  destruct (lookup_lt_is_Some_2 h l0 Hl0) as [k0 Hk0].
  cbn [normalize_dependants]. rewrite (deref_Some h l0 k0 Hk0). cbn [bind].
  destruct (Hc l0 k0 Hk0) as [Hd1 Hd2].
  rewrite (Sort_closed h _ Hd2). cbn [bind]. unfold update. rewrite Hk0. cbn [bind].
  apply IH; [|by rewrite length_insert].
  intros l lk Hl.
  assert (∀ li, closed_list h li →
            closed_list (<[l0:=set_Dependants
              (makeUnique (sort_Sort (Less h) (Dependants k0))) k0]> h) li) as Hcl
    by (intros li; apply closed_list_length; by rewrite length_insert).
  destruct (decide (l = l0)) as [->|].
  - rewrite list_lookup_insert_eq in Hl by done. simplify_eq. cbn.
    split; apply Hcl; [done|].
    apply Forall_forall. intros x Hx.
    apply (proj1 (makeUnique_elem _ _)) in Hx.
    rewrite sort_Sort_perm in Hx. unfold closed_list in Hd2.
    rewrite Forall_forall in Hd2. by apply Hd2.
  - rewrite list_lookup_insert_ne in Hl by done.
    destruct (Hc l lk Hl). by split; apply Hcl.
Qed.


(** C4, as the code has it: after any sequence of edge additions the
    dependencies of every package are in ascending name order with no
    entry next to itself, hence without repeats when distinct packages
    have distinct names; the dependants get that form from the pass of
    [main] over the registry, not from the edge additions. *)
Theorem edge_lists_invariant h0 h :
  no_edges h0 → edges_added h0 h →
  (∀ p pk, h !! p = Some pk →
     name_sorted h (Dependencies pk) ∧ no_adjacent_repeat (Dependencies pk) ∧
     (distinct_names h → NoDup (Dependencies pk))) ∧
  (∀ order, Forall (λ l, (l < length h)%nat) order →
     ∃ h', normalize_dependants h order = Ok h' ∧
       ∀ l pk', l ∈ order → h' !! l = Some pk' →
         name_sorted h' (Dependants pk') ∧
         no_adjacent_repeat (Dependants pk') ∧
         (distinct_names h → NoDup (Dependants pk'))).
Proof.
  intros Hne Hadd. destruct (edges_added_inv h0 h Hne Hadd) as (Hc & Hs & _).
  split.
  - intros p pk Hpk. destruct (Hs p pk Hpk) as [Hsorted Hrep].
    split; [done|]. split; [done|]. intros Hdn.
    apply (sorted_NoDup h); [by apply (Hc p pk)|done..].
  - intros order Hord.
    destruct (normalize_dependants_total order h Hc Hord) as [h' Hh'].
    exists h'. split; [done|]. intros l pk' Hl Hpk'.
    apply normalize_dependants_spec in Hh' as (Hlen & Hnames & Hall).
    destruct (Hall l pk' Hpk') as (lk & Hlk & _ & Hsub & Hin & _).
    destruct (Hin Hl) as [Hsorted Hrep].
    split; [by apply (name_sorted_ext h)|]. split; [done|]. intros Hdn.
    apply (sorted_NoDup h); [|done..].
    apply Forall_forall. intros x Hx%Hsub.
    destruct (Hc l lk Hlk) as [_ Hd]. unfold closed_list in Hd.
    rewrite Forall_forall in Hd. by apply Hd.
Qed.

(** *** Imports that do not resolve *)

Lemma DependsOn_returns h pkg dependency :
  DependsOn h pkg dependency ≠ OutOfFuel.
Proof.
  unfold DependsOn, deref, Sort, update.
  destruct pkg as [p|]; [|done]. destruct (h !! p); [|done]. cbn [bind].
  by destruct (Sort_panics _ _).
Qed.

Lemma add_edge_nil h pkg : add_edge h pkg None = Panic.
Proof.
  unfold add_edge. pose proof (DependsOn_returns h pkg None).
  by destruct (DependsOn h pkg None).
Qed.

Lemma add_edge_returns h pkg importedPkg :
  add_edge h pkg importedPkg ≠ OutOfFuel.
Proof.
  unfold add_edge. pose proof (DependsOn_returns h pkg importedPkg).
  destruct (DependsOn h pkg importedPkg) as [h1| |]; [|done..]. cbn [bind].
  unfold deref, update. destruct importedPkg as [i|]; [|done].
  by destruct (h1 !! i).
Qed.

Lemma scan_import_cases st pkg importSpec :
  scan_import st pkg importSpec = Panic ∨
  ∃ h, scan_import st pkg importSpec = Ok (set_heap h st).
Proof.
  unfold scan_import.
  pose proof (add_edge_returns (heap st) pkg
                (pkgFromImportPath st (Trim importSpec quote))).
  destruct (add_edge _ _ _); [right; by eauto|by left|done].
Qed.

(** C1 fails on the code: an import that resolves to no registered
    package makes the scan of the file panic, at the latest where the
    dependants of the [nil] package are read. *)
Theorem unresolved_import_panics st pkg imports importSpec :
  importSpec ∈ imports →
  pkgFromImportPath st (Trim importSpec quote) = None →
  scan_imports st pkg imports = Panic.
Proof.
  intros Hin Hnone. revert st Hnone.
  induction imports as [|i imports IH]; intros st Hnone;
    [by apply elem_of_nil in Hin|].
  cbn [scan_imports].
  destruct (scan_import_cases st pkg i) as [->|[h Hh]]; [done|].
  apply elem_of_cons in Hin as [<-|Hin].
  - unfold scan_import in Hh. rewrite Hnone, add_edge_nil in Hh. done.
  - rewrite Hh. cbn [bind]. by apply IH.
Qed.

(** [loadLearnedPkgs] does guard against the [nil] package. *)
Lemma loadLearnedPkgs_unresolved st line :
  pkgFromImportPath st line = None → loadLearnedPkgs st [line] = Ok st.
Proof. intros H. cbn [loadLearnedPkgs]. by rewrite H. Qed.


(** *** The report *)

Lemma DependencyDepth_bound h fuel l d :
  closed h → acyclic (dep_edge h) → Z.of_nat (length h) ≤ int_max →
  (l < length h)%nat → DependencyDepth fuel h (Some l) = Ok d →
  -1 ≤ d < Z.of_nat (length h).
Proof.
  intros Hc Ha Hmax Hl Hd.
  destruct (DependencyDepth_total h l (length h) Hc Ha Hl) as [d' Hd']; [done|].
  assert (d' = d) as -> by (by eapply DependencyDepth_det).
  by apply DependencyDepth_range in Hd'.
Qed.

Lemma bucket_pkgs_spec fuel h order : ∀ m m',
  Forall (λ l, (l < length h)%nat) order →
  bucket_pkgs fuel h m order = Ok m' → bucket_ok fuel h m →
  bucket_ok fuel h m' ∧
  (∀ d li q, m !! d = Some li → q ∈ li → ∃ li', m' !! d = Some li' ∧ q ∈ li') ∧
  (∀ l, l ∈ order → ∃ d li',
     DependencyDepth fuel h (Some l) = Ok d ∧ m' !! d = Some li' ∧ Some l ∈ li').
Proof.
  induction order as [|l0 order IH]; intros m m' Hord H Hok;
    cbn [bucket_pkgs] in H.
  - simplify_eq. split; [done|]. split; [by eauto|]. by intros ? ?%elem_of_nil.
  - apply Forall_cons_1 in Hord as [Hl0 Hord].
    apply bind_Ok in H as (d0 & Hd0 & H).
    apply IH in H as (Hok' & Hmono & Hall); [|done|].
    + split; [done|]. split.
      * intros d li q Hli Hq.
        apply (Hmono d (if decide (d = d0) then li ++ [Some l0] else li) q).
        -- rewrite lookup_insert. case_decide; simplify_eq.
           ++ by rewrite Hli, decide_True.
           ++ by rewrite decide_False.
        -- case_decide; [apply elem_of_app; by left|done].
      * intros l [->|Hl]%elem_of_cons; [|by apply Hall].
        destruct (Hmono d0 (default [] (m !! d0) ++ [Some l0]) (Some l0))
          as (li' & ? & ?); [by rewrite lookup_insert_eq| |by eauto].
        apply elem_of_app. right. by left.
    + intros d li. rewrite lookup_insert. case_decide as Hd.
      * intros [= <-]. subst d0. split; [by destruct (default [] (m !! d))|].
        apply Forall_app. split; [|by repeat constructor; eauto].
        destruct (m !! d) as [li|] eqn:Hli; [by apply (Hok d li)|constructor].
      * by apply Hok.
Qed.

Lemma bucket_pkgs_members fuel h order : ∀ m m',
  bucket_pkgs fuel h m order = Ok m' →
  ∀ d li q, m' !! d = Some li → q ∈ li →
    (∃ li0, m !! d = Some li0 ∧ q ∈ li0) ∨ ∃ l, q = Some l ∧ l ∈ order.
Proof.
  induction order as [|l0 order IH]; intros m m' H d li q Hli Hq;
    cbn [bucket_pkgs] in H.
  - simplify_eq. left. by eauto.
  - apply bind_Ok in H as (d0 & Hd0 & H).
    destruct (IH _ _ H d li q Hli Hq) as [(li0 & Hli0 & Hq0)|(l & -> & Hl)].
    + rewrite lookup_insert in Hli0. case_decide as Hd; simplify_eq.
      * apply elem_of_app in Hq0 as [Hq0| ->%list_elem_of_singleton].
        -- left. destruct (m !! d) as [li1|] eqn:E; [by eauto|].
           by apply elem_of_nil in Hq0.
        -- right. exists l0. by split; [|left].
      * left. by eauto.
    + right. exists l. by split; [|right].
Qed.

Lemma bucket_pkgs_total fuel h order : ∀ m,
  (∀ l, l ∈ order → ∃ d, DependencyDepth fuel h (Some l) = Ok d) →
  ∃ m', bucket_pkgs fuel h m order = Ok m'.
Proof.
  induction order as [|l0 order IH]; intros m Hall; [by eexists|].
  cbn [bucket_pkgs]. destruct (Hall l0) as [d ->]; [by left|]. cbn [bind].
  apply IH. intros l Hl. apply Hall. by right.
Qed.

Lemma Sort_panics_closed h li : closed_list h li → Sort_panics h li = false.
Proof.
  intros Hc. unfold Sort_panics.
  replace (forallb (valid h) li) with true; [by rewrite andb_false_r|].
  symmetry. apply forallb_forall. intros q Hq%list_elem_of_In.
  unfold closed_list in Hc. rewrite Forall_forall in Hc. by apply valid_true, Hc.
Qed.

Lemma sort_buckets_Ok h m m' :
  sort_buckets h m = Ok m' → m' = sort_Sort (Less h) <$> m.
Proof. unfold sort_buckets. case_decide; by intros [= <-]. Qed.

Lemma sort_buckets_total h m :
  (∀ d li, m !! d = Some li → closed_list h li) →
  sort_buckets h m = Ok (sort_Sort (Less h) <$> m).
Proof.
  intros Hc. unfold sort_buckets. rewrite decide_True; [done|].
  intros d li Hli. by eapply Sort_panics_closed, Hc.
Qed.

Lemma dependency_rows_total h name depth importFlag deps : ∀ i,
  closed_list h deps →
  ∃ rows, dependency_rows h name depth importFlag i deps = Ok rows.
Proof.
  induction deps as [|d deps IH]; intros i Hc; [by eexists|].
  apply Forall_cons_1 in Hc as [(l & -> & Hl) Hc].
  destruct (lookup_lt_is_Some_2 h l Hl) as [dk Hdk].
  cbn [dependency_rows]. rewrite (deref_Some h l dk Hdk). cbn [bind].
  destruct (IH (S i) Hc) as [rows ->]. by eexists.
Qed.

Lemma Write_total fuel h l :
  closed h → acyclic (dep_edge h) → acyclic (dependant_edge h) →
  (l < length h)%nat → (length h ≤ fuel)%nat →
  ∃ rows, Write fuel h (Some l) = Ok rows.
Proof.
  intros Hc Ha Ha' Hl Hfuel. unfold Write.
  destruct (Imported_total h l fuel Hc Ha' Hl Hfuel) as [b ->].
  destruct (DependencyDepth_total h l fuel Hc Ha Hl Hfuel) as [d ->].
  destruct (lookup_lt_is_Some_2 h l Hl) as [pk Hpk].
  rewrite (deref_Some h l pk Hpk). cbn [bind].
  destruct (Internal pk && negb b); [by eexists|].
  destruct (Dependencies pk) as [|q deps] eqn:Hdeps; [by eexists|].
  apply dependency_rows_total. rewrite <-Hdeps. by apply (Hc l pk).
Qed.

(** The rows of a bucket are the rows of its packages, in the order of
    the bucket. *)
Lemma write_all_Ok fuel h pkgLi rows :
  write_all fuel h pkgLi = Ok rows ↔
  ∃ rowss, Forall2 (λ pkg rs, Write fuel h pkg = Ok rs) pkgLi rowss ∧
           rows = concat rowss.
Proof.
  revert rows. induction pkgLi as [|pkg pkgLi IH]; intros rows;
    cbn [write_all].
  - split.
    + intros [= <-]. exists []. by split; [constructor|].
    + by intros (? & ->%Forall2_nil_inv_l & ->).
  - rewrite bind_Ok. split.
    + intros (rs & Hrs & (more & (rowss & ? & ->)%IH & [= <-])%bind_Ok).
      exists (rs :: rowss). by split; [constructor|].
    + intros (? & (rs & rowss & Hrs & Hall & ->)%Forall2_cons_inv_l & ->).
      exists rs. split; [done|]. apply bind_Ok. exists (concat rowss).
      split; [|done]. apply IH. by eauto.
Qed.

Lemma write_all_total fuel h pkgLi :
  closed h → acyclic (dep_edge h) → acyclic (dependant_edge h) →
  (length h ≤ fuel)%nat → closed_list h pkgLi →
  ∃ rowss, Forall2 (λ pkg rs, Write fuel h pkg = Ok rs) pkgLi rowss.
Proof.
  intros Hc Ha Ha' Hfuel Hli. apply Forall2_total. intros q Hq.
  unfold closed_list in Hli. rewrite Forall_forall in Hli.
  destruct (Hli q Hq) as (l & -> & Hl). by apply Write_total.
Qed.

(** The buckets that the loop of [printPkgs] meets from [d] on, up to
    the first depth without a bucket. *)
Lemma first_gap (n : nat) : ∀ (m : gmap Z (list (option nat))) (d : Z),
  (size m ≤ n)%nat →
  ∃ buckets : list (list (option nat)),
    (∀ i li, buckets !! i = Some li → m !! (d + Z.of_nat i) = Some li) ∧
    m !! (d + Z.of_nat (length buckets)) = None.
Proof.
  induction n as [|n IH]; intros m d Hsize.
  - assert (m = ∅) as -> by (apply map_size_empty_inv; lia).
    exists []. by split; [intros ?? ?|rewrite lookup_empty].
  - destruct (m !! d) as [li|] eqn:Hd.
    + destruct (IH (delete d m) (d + 1)) as (buckets & Hall & Hgap).
      { rewrite map_size_delete, Hd. lia. }
      exists (li :: buckets). split.
      * intros [|i] li' Hi; cbn in Hi.
        -- simplify_eq. by rewrite Z.add_0_r.
        -- apply Hall in Hi. rewrite lookup_delete_ne in Hi by lia.
           by replace (d + Z.of_nat (S i)) with (d + 1 + Z.of_nat i) by lia.
      * rewrite lookup_delete_ne in Hgap by lia.
        by replace (d + Z.of_nat (length (li :: buckets)))
          with (d + 1 + Z.of_nat (length buckets)) by (cbn [length]; lia).
    + exists []. split; [by intros ?? ?|]. by rewrite Z.add_0_r.
Qed.

Lemma printPkgs_from_spec fuel st :
  (∀ k li, pkgsByDependencyDepth st !! k = Some li → -1 ≤ k < int_max) →
  ∀ (buckets : list (list (option nat))) (rowss : list (list Row)) steps d,
    (∀ i li, buckets !! i = Some li →
       pkgsByDependencyDepth st !! (d + Z.of_nat i) = Some li) →
    pkgsByDependencyDepth st !! (d + Z.of_nat (length buckets)) = None →
    Forall2 (λ li rows, write_all fuel (heap st) li = Ok rows) buckets rowss →
    (length buckets < steps)%nat →
    printPkgs_from steps fuel st d = Ok (concat rowss).
Proof.
  intros Hkeys. induction buckets as [|li buckets IH];
    intros rowss [|steps] d Hall Hgap Hrows Hsteps; try (cbn in Hsteps; lia).
  - apply Forall2_nil_inv_l in Hrows as ->. cbn in *.
    rewrite Z.add_0_r in Hgap. by rewrite Hgap.
  - apply Forall2_cons_inv_l in Hrows as (rows & rowss' & Hrows & Hrest & ->).
    cbn [printPkgs_from]. pose proof (Hall 0%nat li eq_refl) as Hd.
    rewrite Z.add_0_r in Hd. rewrite Hd, Hrows. cbn [bind].
    rewrite int_add_1 by (apply Hkeys in Hd; unfold int_min; lia).
    rewrite (IH rowss' steps (d + 1)); [done| | |done|cbn in Hsteps; lia].
    + intros i li' Hi. specialize (Hall (S i) li' Hi).
      by replace (d + 1 + Z.of_nat i) with (d + Z.of_nat (S i)) by lia.
    + by replace (d + 1 + Z.of_nat (length buckets))
        with (d + Z.of_nat (length (li :: buckets))) by (cbn [length]; lia).
Qed.


(** C8: a package is in the bucket of a depth exactly when the loop of
    [sortByDependencyDepth] has visited it and this is its depth. The
    report prints the buckets of depth 0, 1, ... in this order, so the
    packages of depth 0 before those of depth 1 and so on, and stops at
    the first depth that has no bucket; the bucket of depth -1, which
    holds the learned and the predeclared packages, is not among them;
    the packages of a bucket are written in ascending order of their
    display names. *)
Theorem printPkgs_order fuel st order :
  closed (heap st) → mirrored (heap st) → acyclic (dep_edge (heap st)) →
  Z.of_nat (length (heap st)) ≤ int_max → (length (heap st) ≤ fuel)%nat →
  pkgsByDependencyDepth st = ∅ →
  Forall (λ l, (l < length (heap st))%nat) order →
  ∃ st' (buckets : list (list (option nat))) (rowsss : list (list (list Row))),
    sortByDependencyDepth fuel st order = Ok st' ∧ heap st' = heap st ∧
    (∀ i li, buckets !! i = Some li →
       pkgsByDependencyDepth st' !! Z.of_nat i = Some li) ∧
    pkgsByDependencyDepth st' !! Z.of_nat (length buckets) = None ∧
    Forall2 (Forall2 (λ pkg rows, Write fuel (heap st) pkg = Ok rows))
            buckets rowsss ∧
    (∀ steps, (length buckets < steps)%nat →
       printPkgs steps fuel st' = Ok (concat (@concat Row <$> rowsss))) ∧
    Forall (name_sorted (heap st)) buckets ∧
    Forall (Forall (λ q, ∃ l pk, q = Some l ∧ heap st !! l = Some pk ∧
                                 Learned pk = false ∧ Predeclared pk = false))
           buckets ∧
    (∀ l pk, l ∈ order → heap st !! l = Some pk →
       Learned pk = true ∨ Predeclared pk = true →
       ∃ li, pkgsByDependencyDepth st' !! (-1) = Some li ∧ Some l ∈ li) ∧
    (∀ l d,
       (∃ li, pkgsByDependencyDepth st' !! d = Some li ∧ Some l ∈ li) ↔
       l ∈ order ∧ DependencyDepth fuel (heap st) (Some l) = Ok d) ∧
    (∀ i li q, buckets !! i = Some li → q ∈ li →
       ∃ l, q = Some l ∧ l ∈ order ∧
            DependencyDepth fuel (heap st) (Some l) = Ok (Z.of_nat i)).
Proof.
  intros Hc Hm Ha Hmax Hfuel Hempty Hord.
  pose proof (mirrored_acyclic _ Hm Ha) as Ha'.
  set (h := heap st) in *.
  destruct (bucket_pkgs_total fuel h order ∅) as [m1 Hm1].
  { intros l Hl. rewrite Forall_forall in Hord.
    apply DependencyDepth_total; [done..|by apply Hord|done]. }
  destruct (bucket_pkgs_spec fuel h order ∅ m1 Hord Hm1) as (Hok1 & _ & Hall1).
  { intros d li Hli. by rewrite lookup_empty in Hli. }
  assert (∀ d li, m1 !! d = Some li → closed_list h li) as Hcl1.
  { intros d li [_ Hli]%Hok1. eapply Forall_impl; [exact Hli|].
    intros q (l & -> & ? & _). by eauto. }
  set (m2 := sort_Sort (Less h) <$> m1).
  assert (∀ d li', m2 !! d = Some li' →
            ∃ li, m1 !! d = Some li ∧ li' ≡ₚ li ∧ name_sorted h li') as Hm2.
  { intros d li' (li & <- & Hli)%lookup_fmap_Some. exists li. split; [done|].
    apply Sort_Ok. by apply Sort_closed, (Hcl1 d). }
  assert (bucket_ok fuel h m2) as Hok2.
  { intros d li' (li & [Hne Hli]%Hok1 & Hperm & _)%Hm2. split.
    - intros ->. by apply Permutation_nil_l in Hperm.
    - by rewrite Hperm. }
  assert (∀ k li, m2 !! k = Some li → -1 ≤ k < int_max) as Hkeys.
  { intros k li [Hne Hli]%Hok2. destruct li as [|q li]; [done|].
    apply Forall_cons_1 in Hli as [(l & -> & Hl & Hd) _].
    pose proof (DependencyDepth_bound h fuel l k Hc Ha Hmax Hl Hd). lia. }
  assert (∀ l d,
     (∃ li, m2 !! d = Some li ∧ Some l ∈ li) ↔
     l ∈ order ∧ DependencyDepth fuel h (Some l) = Ok d) as Hexact.
  { intros l d. split.
    - intros (li & (li1 & <- & Hli1)%lookup_fmap_Some & Hl).
      rewrite sort_Sort_perm in Hl. split.
      + destruct (bucket_pkgs_members _ _ _ _ _ Hm1 d li1 (Some l) Hli1 Hl)
          as [(? & Hemp & _)|(? & [= <-] & ?)]; [|done].
        by rewrite lookup_empty in Hemp.
      + destruct (Hok1 d li1 Hli1) as [_ Hall]. rewrite Forall_forall in Hall.
        destruct (Hall _ Hl) as (? & [= <-] & _ & ?). done.
    - intros [Hl Hd]. destruct (Hall1 l Hl) as (d' & li' & Hd' & Hli' & Hin).
      rewrite Hd in Hd'. simplify_eq.
      exists (sort_Sort (Less h) li'). split; [|by rewrite sort_Sort_perm].
      unfold m2. by rewrite lookup_fmap, Hli'. }
  destruct (first_gap (size m2) m2 0) as (buckets & Hbuckets & Hgap); [done|].
  assert (∀ li, li ∈ buckets → ∃ i, m2 !! Z.of_nat i = Some li) as Hin.
  { intros li [i Hi]%list_elem_of_lookup. exists i.
    apply Hbuckets in Hi. by rewrite Z.add_0_l in Hi. }
  destruct (Forall2_total
              (Forall2 (λ pkg rows, Write fuel h pkg = Ok rows)) buckets)
    as [rowsss Hrows].
  { intros li [i [_ Hli]%Hok2]%Hin. apply write_all_total; [done..|].
    eapply Forall_impl; [exact Hli|]. intros q (l & -> & ? & _). by eauto. }
  exists (mkState h (pkgsByLocation st) m2), buckets, rowsss.
  split; [|split; [done|]]; [|split; [|split; [|split; [done|]]]].
  - unfold sortByDependencyDepth. fold h. rewrite Hempty, Hm1. cbn [bind].
    by rewrite (sort_buckets_total h m1 Hcl1).
  - intros i li Hi. apply Hbuckets in Hi. by rewrite Z.add_0_l in Hi.
  - by rewrite Z.add_0_l in Hgap.
  - split; [|split; [|split; [|split; [|split]]]].
    + intros steps Hsteps. unfold printPkgs.
      apply (printPkgs_from_spec fuel (mkState h (pkgsByLocation st) m2)
               Hkeys buckets); [done..| |done].
      apply Forall2_fmap_r. eapply Forall2_impl; [exact Hrows|].
      intros li rss Hli. apply write_all_Ok. by exists rss.
    + apply Forall_forall. intros li [i (? & _ & _ & ?)%Hm2]%Hin. done.
    + apply Forall_forall. intros li [i [_ Hli]%Hok2]%Hin.
      eapply Forall_impl; [exact Hli|]. intros q (l & -> & Hl & Hd).
      destruct (lookup_lt_is_Some_2 h l Hl) as [pk Hpk]. exists l, pk.
      split; [done|]. split; [done|].
      destruct (DependencyDepth_sign h fuel l pk _ Hc Ha Hmax Hpk Hd) as [_ Hiff].
      destruct (Learned pk), (Predeclared pk); try done;
        (assert (Z.of_nat i = -1) by (apply Hiff; auto); lia).
    + intros l pk Hl Hpk Hflag.
      destruct (Hall1 l Hl) as (d & li & Hd & Hli & Hlin).
      destruct (DependencyDepth_sign h fuel l pk _ Hc Ha Hmax Hpk Hd) as [_ Hiff].
      apply Hiff in Hflag as ->.
      exists (sort_Sort (Less h) li). split.
      * unfold m2. cbn. by rewrite lookup_fmap, Hli.
      * by rewrite sort_Sort_perm.
    + exact Hexact.
    + intros i li q Hi Hq. apply Hbuckets in Hi. rewrite Z.add_0_l in Hi.
      destruct (Hok2 _ _ Hi) as [_ Hli]. rewrite Forall_forall in Hli.
      destruct (Hli q Hq) as (l & -> & _ & Hd). exists l. split; [done|].
      split; [|done]. apply (Hexact l (Z.of_nat i)). by eauto.
Qed.


(** ** Further properties of the code *)

(** *** [makeUnique] *)

Lemma makeUnique_sublist li : sublist (makeUnique li) li.
Proof.
  induction li as [|a [|b li] IH]; [done..|].
  rewrite makeUnique_cons. destruct (decide (a = b)).
  - by apply sublist_cons.
  - by apply sublist_skip.
Qed.

Lemma makeUnique_fixed li : no_adjacent_repeat li → makeUnique li = li.
Proof.
  unfold no_adjacent_repeat. induction li as [|a [|b li] IH]; [done..|].
  intros [Hs Hhd]%Sorted_inv. rewrite makeUnique_cons.
  apply HdRel_inv in Hhd. rewrite decide_False by done. f_equal. by apply IH.
Qed.

(** X1: [makeUnique] keeps the entries of the list and their order, leaves
    no entry next to itself, changes nothing in a list that has no entry
    next to itself, and so does nothing when it is run again. *)
Theorem makeUnique_keeps_entries li :
  (∀ x, x ∈ makeUnique li ↔ x ∈ li) ∧
  sublist (makeUnique li) li ∧
  no_adjacent_repeat (makeUnique li) ∧
  (no_adjacent_repeat li → makeUnique li = li) ∧
  makeUnique (makeUnique li) = makeUnique li.
Proof.
  split; [intros x; apply makeUnique_elem|].
  split; [apply makeUnique_sublist|].
  split; [apply makeUnique_no_repeat|].
  split; [apply makeUnique_fixed|].
  apply makeUnique_fixed, makeUnique_no_repeat.
Qed.

(** X2: on a list sorted by an order that tells its entries apart, equal
    entries are neighbours, and [makeUnique] leaves every entry once. *)
Theorem makeUnique_sorted_NoDup (R : relation (option nat)) li :
  (∀ a b, R a b → R b a → a = b) →
  StronglySorted R li → NoDup (makeUnique li).
Proof.
  intros Hanti. induction li as [|a [|b li] IH]; intros Hs.
  - constructor.
  - apply NoDup_singleton.
  - apply StronglySorted_inv in Hs as [Hs Hall]. rewrite makeUnique_cons.
    destruct (decide (a = b)) as [->|Hne]; [by apply IH|].
    apply NoDup_cons. split; [|by apply IH].
    rewrite makeUnique_elem. intros [?|Hin]%elem_of_cons; [done|].
    apply Forall_cons_1 in Hall as [Hab Hall]. apply Hne, Hanti; [done|].
    apply StronglySorted_inv in Hs as [_ Hb].
    rewrite Forall_forall in Hb. by apply Hb.
Qed.

(** *** [DependsOn] *)

Lemma name_strict_trans h : Transitive (name_strict h).
Proof.
  intros a b c [Hab Hab'] [Hbc Hbc']. split; [by etrans|].
  intros Heq. rewrite <-Heq in Hbc. apply Hab'. by apply (anti_symm String.le).
Qed.

Lemma sorted_strict h li :
  closed_list h li → distinct_names h →
  name_sorted h li → no_adjacent_repeat li → Sorted (name_strict h) li.
Proof.
  unfold closed_list, name_sorted, no_adjacent_repeat. intros Hc Hdn Hs Hr.
  induction li as [|a li IH]; [constructor|].
  apply Sorted_inv in Hs as [Hs Hhd]. apply Sorted_inv in Hr as [Hr Hhd'].
  apply Forall_cons_1 in Hc as [(la & -> & Hla) Hc].
  constructor; [by apply IH|].
  destruct li as [|b li]; [constructor|].
  apply Forall_cons_1 in Hc as [(lb & -> & Hlb) _].
  apply HdRel_inv in Hhd, Hhd'. constructor. split; [done|].
  destruct (lookup_lt_is_Some_2 h la Hla) as [ak Hak].
  destruct (lookup_lt_is_Some_2 h lb Hlb) as [bk Hbk].
  rewrite (name_of_lookup h la ak), (name_of_lookup h lb bk) by done.
  intros Heq. pose proof (Hdn la lb ak bk Hak Hbk Heq). congruence.
Qed.

(** Two such lists with the same entries are the same list. *)
Lemma sorted_strict_unique h li1 li2 :
  closed_list h li1 → closed_list h li2 → distinct_names h →
  name_sorted h li1 → no_adjacent_repeat li1 →
  name_sorted h li2 → no_adjacent_repeat li2 →
  (∀ x, x ∈ li1 ↔ x ∈ li2) → li1 = li2.
Proof.
  intros Hc1 Hc2 Hdn Hs1 Hr1 Hs2 Hr2 Hsame.
  pose proof (name_strict_trans h) as Htrans.
  apply (Sorted_unique_strong (name_strict h)).
  - intros a b _ _ [Hab Hne] [Hba _]. destruct Hne.
    by apply (anti_symm String.le).
  - by apply sorted_strict.
  - by apply sorted_strict.
  - apply NoDup_Permutation; [by eapply sorted_NoDup..|done].
Qed.

Lemma DependsOn_Ok h pkg dependency h' :
  DependsOn h pkg dependency = Ok h' ↔
  ∃ p pk sorted,
    pkg = Some p ∧ h !! p = Some pk ∧
    Sort h (Dependencies pk ++ [dependency]) = Ok sorted ∧
    h' = <[p := set_Dependencies (makeUnique sorted) pk]> h.
Proof.
  unfold DependsOn. rewrite bind_Ok. split.
  - intros (pk & (p & -> & Hpk)%deref_Ok & (sorted & Hs & Hu)%bind_Ok).
    apply update_Ok in Hu as (? & ? & [= <-] & ? & ->). simplify_eq.
    by exists p, pk, sorted.
  - intros (p & pk & sorted & -> & Hpk & Hs & ->).
    exists pk. split; [by apply deref_Some|]. apply bind_Ok.
    exists sorted. split; [done|]. apply update_Ok. by exists p, pk.
Qed.

Lemma DependsOn_result h pkg dependency h' :
  DependsOn h pkg dependency = Ok h' →
  ∃ p pk deps,
    pkg = Some p ∧ h !! p = Some pk ∧
    h' = <[p := set_Dependencies deps pk]> h ∧
    (∀ x, x ∈ deps ↔ x ∈ Dependencies pk ∨ x = dependency) ∧
    name_sorted h deps ∧ no_adjacent_repeat deps ∧
    (∀ q, name_of h' q = name_of h q).
Proof.
  intros (p & pk & sorted & -> & Hpk & Hsort & ->)%DependsOn_Ok.
  apply Sort_Ok in Hsort as [Hperm Hsorted].
  exists p, pk, (makeUnique sorted). split; [done|]. split; [done|].
  split; [done|]. split; [|split; [|split]].
  - intros x. by rewrite makeUnique_elem, Hperm, elem_of_app,
      list_elem_of_singleton.
  - by apply makeUnique_Sorted.
  - apply makeUnique_no_repeat.
  - apply name_of_same_RelPath; [by rewrite length_insert|].
    intros l lk Hl. destruct (decide (l = p)) as [->|].
    + rewrite list_lookup_insert_eq by (by eapply lookup_lt_Some).
      simplify_eq. by eauto.
    + rewrite list_lookup_insert_ne by done. by eauto.
Qed.

(** X3: [DependsOn] changes the dependencies of [pkg] and nothing else: the
    new list holds the old entries and the new one, in ascending name
    order, with no entry next to itself. It panics on a [nil] receiver,
    and returns whenever receiver, old entries and new entry are
    packages of the heap. *)
Theorem DependsOn_adds_dependency h pkg dependency :
  (∀ h', DependsOn h pkg dependency = Ok h' →
     ∃ p pk deps,
       pkg = Some p ∧ h !! p = Some pk ∧
       h' = <[p := set_Dependencies deps pk]> h ∧
       (∀ x, x ∈ deps ↔ x ∈ Dependencies pk ∨ x = dependency) ∧
       name_sorted h deps ∧ no_adjacent_repeat deps) ∧
  (pkg = None → DependsOn h pkg dependency = Panic) ∧
  (∀ p pk, pkg = Some p → h !! p = Some pk →
     closed_list h (Dependencies pk ++ [dependency]) →
     ∃ h', DependsOn h pkg dependency = Ok h').
Proof.
  split; [|split].
  - intros h' (p & pk & deps & ? & ? & ? & ? & ? & ? & _)%DependsOn_result.
    by exists p, pk, deps.
  - by intros ->.
  - intros p pk -> Hpk Hc. eexists. apply DependsOn_Ok.
    exists p, pk. eexists. split; [done|]. split; [done|].
    split; [by apply Sort_closed|done].
Qed.


Lemma distinct_names_ext h h' :
  length h' = length h →
  (∀ l lk', h' !! l = Some lk' → ∃ lk, h !! l = Some lk ∧ RelPath lk' = RelPath lk) →
  distinct_names h → distinct_names h'.
Proof.
  intros Hlen Hsame Hdn p q pk' qk' Hp Hq Hname.
  destruct (Hsame p pk' Hp) as (pk & Hpk & Hrp).
  destruct (Hsame q qk' Hq) as (qk & Hqk & Hrq).
  apply (Hdn p q pk qk Hpk Hqk). unfold Name, IsVendor in *.
  by rewrite <-Hrp, <-Hrq.
Qed.

Lemma set_Dependencies_heap h p pk deps :
  closed h → h !! p = Some pk → closed_list h deps →
  closed (<[p := set_Dependencies deps pk]> h) ∧
  (distinct_names h → distinct_names (<[p := set_Dependencies deps pk]> h)).
Proof.
  intros Hc Hpk Hd.
  assert (p < length h)%nat as Hp by (by eapply lookup_lt_Some).
  split.
  - intros l lk Hl. destruct (decide (l = p)) as [->|].
    + rewrite list_lookup_insert_eq in Hl by done. simplify_eq. cbn.
      destruct (Hc p pk Hpk).
      split; (apply (closed_list_length h); [by rewrite length_insert|done]).
    + rewrite list_lookup_insert_ne in Hl by done. destruct (Hc l lk Hl).
      split; (apply (closed_list_length h); [by rewrite length_insert|done]).
  - apply distinct_names_ext; [by rewrite length_insert|].
    intros l lk' Hl. destruct (decide (l = p)) as [->|].
    + rewrite list_lookup_insert_eq in Hl by done. simplify_eq. by eauto.
    + rewrite list_lookup_insert_ne in Hl by done. by eauto.
Qed.

Lemma DependsOn_closed_deps h p pk d deps :
  closed h → h !! p = Some pk → (d < length h)%nat →
  (∀ x, x ∈ deps ↔ x ∈ Dependencies pk ∨ x = Some d) → closed_list h deps.
Proof.
  intros Hc Hpk Hd Helem. apply Forall_forall. intros x [Hx| ->]%Helem; [|by eauto].
  destruct (Hc p pk Hpk) as [Hcd _]. unfold closed_list in Hcd.
  rewrite Forall_forall in Hcd. by apply Hcd.
Qed.

(** X4: adding a dependency that is there already changes nothing, when the
    names tell the packages apart. *)
Theorem DependsOn_twice h p d h1 :
  closed h → distinct_names h → (d < length h)%nat →
  DependsOn h (Some p) (Some d) = Ok h1 →
  DependsOn h1 (Some p) (Some d) = Ok h1.
Proof.
  intros Hc Hdn Hd H1.
  destruct (DependsOn_result _ _ _ _ H1)
    as (? & pk & deps1 & [= <-] & Hpk & -> & Helem1 & Hs1 & Hr1 & Hnames).
  assert (p < length h)%nat as Hp by (by eapply lookup_lt_Some).
  pose proof (DependsOn_closed_deps h p pk d deps1 Hc Hpk Hd Helem1) as Hcd1.
  destruct (set_Dependencies_heap h p pk deps1 Hc Hpk Hcd1) as [Hc1 Hdn1].
  set (h1 := <[p := set_Dependencies deps1 pk]> h) in *.
  assert (h1 !! p = Some (set_Dependencies deps1 pk)) as Hpk1
    by (by apply list_lookup_insert_eq).
  assert (∃ h2, DependsOn h1 (Some p) (Some d) = Ok h2) as [h2 H2].
  { eexists. apply DependsOn_Ok. eexists p, _, _. split; [done|].
    split; [done|]. split; [|done]. apply Sort_closed. cbn.
    apply (closed_list_length h); [by unfold h1; rewrite length_insert|].
    apply Forall_app. split; [done|]. repeat constructor. by eauto. }
  rewrite H2. f_equal.
  destruct (DependsOn_result _ _ _ _ H2)
    as (? & ? & deps2 & [= <-] & Hpk1' & -> & Helem2 & Hs2 & Hr2 & _).
  rewrite Hpk1 in Hpk1'. simplify_eq. cbn in Helem2.
  assert (deps2 = deps1) as ->.
  { apply (sorted_strict_unique h); try done.
    - apply Forall_forall. intros x [Hx| ->]%Helem2; [|by eauto].
      unfold closed_list in Hcd1. rewrite Forall_forall in Hcd1. by apply Hcd1.
    - by apply (name_sorted_ext h1).
    - intros x. rewrite Helem2, Helem1. tauto. }
  by apply list_insert_id.
Qed.

(** X5: the order in which two dependencies are added does not show in the
    heap, when the names tell the packages apart. *)
Theorem DependsOn_commute h p a b h1 h2 k1 k2 :
  closed h → distinct_names h → (a < length h)%nat → (b < length h)%nat →
  DependsOn h (Some p) (Some a) = Ok h1 → DependsOn h1 (Some p) (Some b) = Ok h2 →
  DependsOn h (Some p) (Some b) = Ok k1 → DependsOn k1 (Some p) (Some a) = Ok k2 →
  h2 = k2.
Proof.
  intros Hc Hdn Ha Hb H1 H2 K1 K2.
  assert (∀ x y g1 g2, (x < length h)%nat → (y < length h)%nat →
    DependsOn h (Some p) (Some x) = Ok g1 →
    DependsOn g1 (Some p) (Some y) = Ok g2 →
    ∃ pk deps, h !! p = Some pk ∧ g2 = <[p := set_Dependencies deps pk]> h ∧
      closed_list h deps ∧ name_sorted h deps ∧ no_adjacent_repeat deps ∧
      ∀ z, z ∈ deps ↔ z ∈ Dependencies pk ∨ z = Some x ∨ z = Some y) as Hboth.
  { intros x y g1 g2 Hx Hy G1 G2.
    destruct (DependsOn_result _ _ _ _ G1)
      as (? & pk & deps1 & [= <-] & Hpk & -> & Helem1 & Hs1 & Hr1 & Hnames).
    assert (p < length h)%nat as Hp by (by eapply lookup_lt_Some).
    destruct (DependsOn_result _ _ _ _ G2)
      as (? & ? & deps2 & [= <-] & Hpk1 & -> & Helem2 & Hs2 & Hr2 & _).
    rewrite list_lookup_insert_eq in Hpk1 by done. simplify_eq. cbn in Helem2.
    exists pk, deps2. split; [done|]. split; [by rewrite list_insert_insert_eq|].
    assert (∀ z, z ∈ deps2 ↔ z ∈ Dependencies pk ∨ z = Some x ∨ z = Some y)
      as Helem by (intros z; rewrite Helem2, Helem1; tauto).
    split; [|split; [by apply (name_sorted_ext _ h) in Hs2|done]].
    apply Forall_forall. intros z [Hz|[->| ->]]%Helem; [|by eauto..].
    destruct (Hc p pk Hpk) as [Hcd _]. unfold closed_list in Hcd.
    rewrite Forall_forall in Hcd. by apply Hcd. }
  destruct (Hboth a b h1 h2 Ha Hb H1 H2) as (pk & deps & Hpk & -> & ? & ? & ? & He).
  destruct (Hboth b a k1 k2 Hb Ha K1 K2) as (? & deps' & Hpk' & -> & ? & ? & ? & He').
  simplify_eq. do 2 f_equal. apply (sorted_strict_unique h); try done.
  intros z. rewrite He, He'. tauto.
Qed.


(** *** The scan of the imports of a file *)

Lemma pkgFromImportPath_registry st st' importPath :
  pkgsByLocation st' = pkgsByLocation st →
  pkgFromImportPath st' importPath = pkgFromImportPath st importPath.
Proof. unfold pkgFromImportPath. by intros ->. Qed.

(** X6: a scan that returns has resolved every import of the file. It
    leaves the registry, the buckets and the name, learned flag and
    internal flag of every package as they were; it adds the resolved
    imports to the dependencies of the scanned package, and the scanned
    package to the dependants of each of them; no other edge appears
    and none disappears. *)
Theorem scan_imports_edges imports : ∀ st pkg st',
  scan_imports st pkg imports = Ok st' →
  pkgsByLocation st' = pkgsByLocation st ∧
  pkgsByDependencyDepth st' = pkgsByDependencyDepth st ∧
  length (heap st') = length (heap st) ∧
  (∀ i, i ∈ imports →
     ∃ l, pkgFromImportPath st (Trim i quote) = Some l ∧
          (l < length (heap st))%nat) ∧
  ∀ l lk, heap st !! l = Some lk →
    ∃ lk', heap st' !! l = Some lk' ∧
      RelPath lk' = RelPath lk ∧ Learned lk' = Learned lk ∧
      Internal lk' = Internal lk ∧
      (∀ x, x ∈ Dependencies lk' ↔
         x ∈ Dependencies lk ∨
         (pkg = Some l ∧
          ∃ i, i ∈ imports ∧ x = pkgFromImportPath st (Trim i quote))) ∧
      (∀ x, x ∈ Dependants lk' ↔
         x ∈ Dependants lk ∨
         (x = pkg ∧
          ∃ i, i ∈ imports ∧ pkgFromImportPath st (Trim i quote) = Some l)).
Proof.
  induction imports as [|i0 imports IH]; intros st pkg st' H;
    cbn [scan_imports] in H.
  - simplify_eq. repeat (split; [done|]). split; [by intros ? ?%elem_of_nil|].
    intros l lk Hl. exists lk. repeat (split; [done|]).
    split; intros x; (split; [by left|]);
      (intros [?|(_ & ? & ?%elem_of_nil & _)]; done).
  - apply bind_Ok in H as (st1 & H1 & H).
    unfold scan_import in H1. apply bind_Ok in H1 as (h1 & Hadd & [= <-]).
    apply add_edge_Ok in Hadd
      as (p & r & pk & sorted & -> & Hr & Hpk & Hrlt & Hsort & Hlen & Hlook).
    apply Sort_Ok in Hsort as [Hperm _].
    apply IH in H as (Hreg & Hbuckets & Hlen' & Hres & Hall). cbn in *.
    assert (∀ x, pkgFromImportPath (set_heap h1 st) x = pkgFromImportPath st x)
      as Hsame by (intros x; by apply pkgFromImportPath_registry).
    split; [done|]. split; [done|]. split; [congruence|]. split.
    + intros i [->|Hi]%elem_of_cons; [by eauto|].
      destruct (Hres i Hi) as (l & Hl & Hlt). exists l.
      rewrite <-Hsame. split; [done|]. by rewrite <-Hlen.
    + intros l lk Hl.
      destruct (Hall l _ (Hlook l lk Hl))
        as (lk' & Hl' & Hrel & Hlearned & Hint & Hdeps & Hdependants).
      exists lk'. split; [done|]. split; [done|]. split; [done|].
      split; [done|]. unfold edge_added in Hdeps, Hdependants. cbn in *.
      split; intros x.
      * rewrite Hdeps. setoid_rewrite Hsame. setoid_rewrite elem_of_cons.
        destruct (decide (l = p)) as [->|Hne].
        -- assert (pk = lk) as -> by congruence.
           rewrite makeUnique_elem, Hperm, elem_of_app, list_elem_of_singleton.
           split.
           ++ intros [[?|?]|(? & i & ? & ?)]; [by left| |].
              ** right. split; [done|]. exists i0. split; [by left|]. by subst.
              ** right. split; [done|]. exists i. split; [by right|done].
           ++ intros [?|(_ & i & [->|?] & ->)]; [by left; left| |].
              ** left. right. done.
              ** right. split; [done|]. by exists i.
        -- split.
           ++ intros [?|([= ?] & _)]; [by left|done].
           ++ intros [?|([= ?] & _)]; [by left|done].
      * rewrite Hdependants. setoid_rewrite Hsame. setoid_rewrite elem_of_cons.
        destruct (decide (l = r)) as [->|Hne].
        -- rewrite elem_of_app, list_elem_of_singleton. split.
           ++ intros [[?| ->]|(-> & i & ? & ?)]; [by left| |].
              ** right. split; [done|]. exists i0. split; [by left|done].
              ** right. split; [done|]. exists i. split; [by right|done].
           ++ intros [?|(-> & i & [->|?] & ?)]; [by left; left|by left; right|].
              right. split; [done|]. by exists i.
        -- split.
           ++ intros [?|(-> & i & ? & ?)]; [by left|].
              right. split; [done|]. exists i. split; [by right|done].
           ++ intros [?|(-> & i & [->|?] & Hi)]; [by left| |].
              ** rewrite Hr in Hi. by simplify_eq.
              ** right. split; [done|]. by exists i.
Qed.


(** *** [loadLearnedPkgs] *)

(** X7: [loadLearnedPkgs] returns on every input file. It sets the learned
    flag of the packages that the lines resolve to, leaves a flag that
    is set as it is, skips the lines that resolve to nothing, and
    touches neither the registry nor an edge; a package that it has
    flagged has depth -1, whatever it imports. *)
Theorem loadLearnedPkgs_flags lines : ∀ st,
  registry_valid st →
  ∃ st', loadLearnedPkgs st lines = Ok st' ∧
    pkgsByLocation st' = pkgsByLocation st ∧
    pkgsByDependencyDepth st' = pkgsByDependencyDepth st ∧
    length (heap st') = length (heap st) ∧
    ∀ l lk, heap st !! l = Some lk →
      ∃ lk', heap st' !! l = Some lk' ∧
        RelPath lk' = RelPath lk ∧ Dependencies lk' = Dependencies lk ∧
        Dependants lk' = Dependants lk ∧ Internal lk' = Internal lk ∧
        (Learned lk' = true ↔
           Learned lk = true ∨
           ∃ line, line ∈ lines ∧ pkgFromImportPath st line = Some l) ∧
        (Learned lk' = true →
           ∀ fuel, DependencyDepth (S fuel) (heap st') (Some l) = Ok (-1)).
Proof.
  induction lines as [|line lines IH]; intros st Hv; cbn [loadLearnedPkgs].
  - exists st. repeat (split; [done|]). intros l lk Hl. exists lk.
    repeat (split; [done|]). split.
    + split; [by left|]. by intros [?|(? & ?%elem_of_nil & _)].
    + intros Hlearned fuel. rewrite (DependencyDepth_unfold _ _ _ _ Hl).
      by rewrite Hlearned, orb_true_r.
  - destruct (pkgFromImportPath st line) as [l0|] eqn:Hres.
    + rewrite decide_True by done.
      assert (l0 < length (heap st))%nat as Hl0 by (by eapply Hv).
      destruct (lookup_lt_is_Some_2 _ _ Hl0) as [k0 Hk0].
      unfold update. rewrite Hk0. cbn [bind].
      set (st1 := set_heap (<[l0:=set_Learned true k0]> (heap st)) st).
      destruct (IH st1) as (st' & -> & Hreg & Hb & Hlen & Hall).
      { intros k l Hk. cbn. rewrite length_insert. by eapply Hv. }
      exists st'. split; [done|]. split; [done|]. split; [done|].
      split; [by rewrite Hlen; cbn; rewrite length_insert|].
      intros l lk Hl. cbn in Hall.
      assert (∀ x, pkgFromImportPath st1 x = pkgFromImportPath st x) as Hsame
        by (intros x; by apply pkgFromImportPath_registry).
      destruct (decide (l = l0)) as [->|Hne].
      * destruct (Hall l0 (set_Learned true k0))
          as (lk' & Hl' & ? & ? & ? & ? & Hiff & Hdepth);
          [by apply list_lookup_insert_eq|].
        simplify_eq. exists lk'. repeat (split; [done|]). split; [|done].
        split.
        -- intros _. right. exists line. by split; [left|].
        -- intros _. apply Hiff. by left.
      * destruct (Hall l lk) as (lk' & Hl' & ? & ? & ? & ? & Hiff & Hdepth);
          [by rewrite list_lookup_insert_ne|].
        exists lk'. repeat (split; [done|]). split; [|done].
        rewrite Hiff. setoid_rewrite Hsame. setoid_rewrite elem_of_cons.
        split.
        -- intros [?|(x & ? & ?)]; [by left|]. right. exists x. by split; [right|].
        -- intros [?|(x & [->|?] & Hx)]; [by left| |].
           ++ rewrite Hres in Hx. by simplify_eq.
           ++ right. by exists x.
    + rewrite decide_False by (by intros ?).
      destruct (IH st Hv) as (st' & -> & Hreg & Hb & Hlen & Hall).
      exists st'. repeat (split; [done|]). intros l lk Hl.
      destruct (Hall l lk Hl) as (lk' & Hl' & ? & ? & ? & ? & Hiff & Hdepth).
      exists lk'. repeat (split; [done|]). split; [|done].
      rewrite Hiff. setoid_rewrite elem_of_cons. split.
      * intros [?|(x & ? & ?)]; [by left|]. right. exists x. by split; [right|].
      * intros [?|(x & [->|?] & Hx)]; [by left| |].
        -- rewrite Hres in Hx. done.
        -- right. by exists x.
Qed.


(** *** [IsVendor] and [Name] *)

Lemma Split_no_sep s c : has_byte c s = false → Split s c = [s].
Proof.
  induction s as [|a s IH]; [done|]. cbn [has_byte Split].
  intros [Ha Hs]%orb_false_elim. rewrite Ha, (IH Hs). done.
Qed.

Lemma Split_app v c rest :
  has_byte c v = false → Split (v +:+ String c rest) c = v :: Split rest c.
Proof.
  induction v as [|a v IH]; intros Hv.
  - change (EmptyString +:+ String c rest) with (String c rest).
    cbn [Split]. by rewrite Ascii.eqb_refl.
  - cbn [has_byte] in Hv. apply orb_false_elim in Hv as [Ha Hv].
    rewrite app_String. cbn [Split]. by rewrite Ha, (IH Hv).
Qed.

Lemma Split_hd_no_sep s c x xs : Split s c = x :: xs → has_byte c x = false.
Proof.
  revert x xs. induction s as [|a s IH]; intros x xs; cbn [Split].
  - by intros [= <- <-].
  - destruct (Ascii.eqb a c) eqn:Ha; [by intros [= <- <-]|].
    destruct (Split s c) as [|y ys] eqn:Hs; intros [= <- <-]; cbn [has_byte];
      rewrite Ha; [done|]. by eapply IH.
Qed.

Lemma Join_cons e y ys c :
  Join (e :: y :: ys) c = e +:+ String c (Join (y :: ys) c).
Proof. done. Qed.

(** Joining what [Split] returns gives the string back. *)
Lemma Join_Split s c : Join (Split s c) c = s.
Proof.
  induction s as [|a s IH]; [done|]. cbn [Split].
  destruct (Split_shape s c) as (x & xs & Hs & _). rewrite Hs in *.
  destruct (Ascii.eqb_spec a c) as [->|Hne].
  - by rewrite Join_cons, IH.
  - destruct xs as [|y ys]; [cbn [Join] in *; by rewrite IH|].
    by rewrite Join_cons, app_String, <-Join_cons, IH.
Qed.

Lemma IsVendor_vendor_dir pkg :
  IsVendor pkg = true ↔
  has_byte slash vendorRelPath = false ∧
  (RelPath pkg = vendorRelPath ∨
   ∃ rest, RelPath pkg = vendorRelPath +:+ String slash rest).
Proof.
  unfold IsVendor. rewrite bool_decide_eq_true. split.
  - intros Hhd. pose proof (Join_Split (RelPath pkg) slash) as Hjoin.
    destruct (Split (RelPath pkg) slash) as [|x xs] eqn:Hs;
      [destruct (Split_shape (RelPath pkg) slash) as (? & ? & ? & _);
       congruence|].
    cbn in Hhd. subst x. split; [by eapply Split_hd_no_sep|].
    destruct xs as [|y ys]; cbn [Join] in Hjoin; [by left|].
    right. by eexists.
  - intros [Hv [->|[rest ->]]].
    + by rewrite Split_no_sep.
    + by rewrite Split_app.
Qed.

(** X8: a package is vendored exactly when the vendor directory is one path
    segment and the relative path is that segment or goes on from it
    with a slash; so no package is vendored when the configured vendor
    directory holds a slash. *)
Theorem IsVendor_prefix pkg :
  (IsVendor pkg = true ↔
   has_byte slash vendorRelPath = false ∧
   (RelPath pkg = vendorRelPath ∨
    ∃ rest, RelPath pkg = vendorRelPath +:+ String slash rest)) ∧
  (has_byte slash vendorRelPath = true → IsVendor pkg = false).
Proof.
  split; [apply IsVendor_vendor_dir|]. intros Hv.
  destruct (IsVendor pkg) eqn:E; [|done].
  apply IsVendor_vendor_dir in E as [E _]. congruence.
Qed.

(** X9: the display name of a package outside the vendor directory is its
    relative path; that of the vendor directory itself is empty; that of
    a package below it is the rest of the path, cleaned. *)
Theorem Name_cases pkg :
  (IsVendor pkg = false → Name pkg = RelPath pkg) ∧
  (has_byte slash vendorRelPath = false → RelPath pkg = vendorRelPath →
   Name pkg = EmptyString) ∧
  (∀ c rest,
     has_byte slash vendorRelPath = false → c ≠ slash →
     RelPath pkg = vendorRelPath +:+ String slash (String c rest) →
     Name pkg = Clean (String c rest)).
Proof.
  unfold Name. split; [by intros ->|]. split.
  - intros Hv Hrel.
    rewrite (proj2 (IsVendor_vendor_dir pkg)) by (split; [done|by left]).
    by rewrite Hrel, Split_no_sep.
  - intros c rest Hv Hc Hrel.
    rewrite (proj2 (IsVendor_vendor_dir pkg)) by (split; [done|right; by eauto]).
    rewrite Hrel, Split_app by done. cbn [tail]. unfold path_Join.
    pose proof (Join_Split (String c rest) slash) as Hjoin.
    destruct (Split_shape (String c rest) slash) as (x & xs & Hs & [post Hx] & _).
    rewrite Hs in *. destruct x as [|a x].
    + cbn [Split] in Hs. destruct (Ascii.eqb_spec c slash); [done|].
      by destruct (Split rest slash).
    + cbn [drop_empty]. by rewrite Hjoin.
Qed.


(** *** [Write] *)

Lemma dependency_rows_later h name depth importFlag deps : ∀ i rows,
  dependency_rows h name depth importFlag (S i) deps = Ok rows ↔
  ∃ dks, Forall2 (λ q dk, deref h q = Ok dk) deps dks ∧
         rows = (λ dk, subsequentRows (dependency_label dk)) <$> dks.
Proof.
  induction deps as [|q deps IH]; intros i rows; cbn [dependency_rows].
  - split.
    + intros [= <-]. exists []. by split; [constructor|].
    + by intros (? & ->%Forall2_nil_inv_l & ->).
  - rewrite bind_Ok. split.
    + intros (dk & Hdk & (more & (dks & Hdks & ->)%IH & [= <-])%bind_Ok).
      exists (dk :: dks). by split; [constructor|].
    + intros (? & (dk & dks & Hdk & Hdks & ->)%Forall2_cons_inv_l & ->).
      exists dk. split; [done|]. apply bind_Ok. eexists. split; [|done].
      apply IH. by eauto.
Qed.

(** X10: [Write] prints nothing for an internal package that is not
    imported. For any other package it prints one row with the name,
    the depth and the import flag when there are no dependencies, and
    otherwise one row per dependency, in the order of the list: the
    first with name, depth and flag, the others with the dependency
    alone. *)
Theorem Write_rows fuel h pkg rows :
  Write fuel h pkg = Ok rows →
  ∃ p pk imported depth,
    pkg = Some p ∧ h !! p = Some pk ∧
    Imported fuel h pkg = Ok imported ∧
    DependencyDepth fuel h pkg = Ok depth ∧
    if Internal pk && negb imported then rows = []
    else
      let importFlag := if imported then "imported" else "unimported" in
      length rows = (1 `max` length (Dependencies pk))%nat ∧
      ∃ dks, Forall2 (λ q dk, deref h q = Ok dk) (Dependencies pk) dks ∧
        rows = match dks with
               | [] => [noDependenciesRow (Name pk) depth importFlag]
               | dk :: later =>
                   firstRow (Name pk) depth importFlag (dependency_label dk)
                   :: ((λ dk, subsequentRows (dependency_label dk)) <$> later)
               end.
Proof.
  unfold Write.
  intros (imported & Himp & (depth & Hdepth & (pk & (p & -> & Hpk)%deref_Ok & H)%bind_Ok)%bind_Ok)%bind_Ok.
  exists p, pk, imported, depth. repeat (split; [done|]).
  destruct (Internal pk && negb imported); [by simplify_eq|].
  destruct (Dependencies pk) as [|q deps] eqn:Hdeps.
  - simplify_eq. split; [done|]. exists []. by split; [constructor|].
  - cbn [dependency_rows] in H.
    apply bind_Ok in H as (dk & Hdk & (more & (dks & Hdks & ->)%dependency_rows_later & [= <-])%bind_Ok).
    split.
    + cbn. rewrite length_fmap. by rewrite (Forall2_length _ _ _ Hdks).
    + exists (dk :: dks). by split; [constructor|].
Qed.


(** *** Depths and chains of imports *)

Lemma foldl_max_attained a ds : foldl Z.max a ds = a ∨ foldl Z.max a ds ∈ ds.
Proof.
  revert a. induction ds as [|z ds IH]; intros a; cbn [foldl]; [by left|].
  destruct (IH (Z.max a z)) as [Heq|Hin]; [|right; by right].
  rewrite Heq. destruct (Z.max_spec a z) as [[_ ->]|[_ ->]]; [|by left].
  right. by left.
Qed.

Lemma DependencyDepth_Ok_valid fuel h q d :
  DependencyDepth fuel h (Some q) = Ok d → (q < length h)%nat.
Proof.
  destruct fuel as [|fuel]; [done|]. cbn [DependencyDepth].
  intros (pk & (? & [= <-] & Hpk)%deref_Ok & _)%bind_Ok.
  by eapply lookup_lt_Some.
Qed.

(** A package of depth 1 or more has a dependency one level below. *)
Lemma DependencyDepth_pred h p fuel d :
  closed h → acyclic (dep_edge h) → Z.of_nat (length h) ≤ int_max →
  (length h ≤ fuel)%nat →
  DependencyDepth fuel h (Some p) = Ok d → 1 ≤ d →
  ∃ q, dep_edge h p q ∧ DependencyDepth fuel h (Some q) = Ok (d - 1).
Proof.
  intros Hc Ha Hmax Hfuel Hd Hpos.
  pose proof (DependencyDepth_Ok_valid _ _ _ _ Hd) as Hp.
  destruct (lookup_lt_is_Some_2 h p Hp) as [pk Hpk].
  destruct (DependencyDepth_value h p pk fuel) as (ds & Hds & Hfl & Hd'); [done..|].
  rewrite Hd in Hd'. destruct (Predeclared pk || Learned pk); [simplify_eq; lia|].
  rewrite depth_fold_shift in Hd'. simplify_eq.
  destruct (foldl_max_attained (0 - 1) ds) as [Heq|Hin]; [lia|].
  apply list_elem_of_lookup in Hin as [i Hi].
  destruct (Forall2_lookup_r _ _ _ _ _ Hds Hi) as (q & Hq & Hqd).
  destruct (Hc p pk Hpk) as [Hcd _]. unfold closed_list in Hcd.
  rewrite Forall_forall in Hcd.
  destruct (Hcd q) as (l & -> & _); [by eapply list_elem_of_lookup_2|].
  exists l. split.
  - exists pk. split; [done|]. by eapply list_elem_of_lookup_2.
  - rewrite Hqd. f_equal. lia.
Qed.

Lemma DependencyDepth_descent h fuel :
  closed h → acyclic (dep_edge h) → Z.of_nat (length h) ≤ int_max →
  (length h ≤ fuel)%nat →
  ∀ n p d, DependencyDepth fuel h (Some p) = Ok d → Z.of_nat n ≤ d →
    ∃ q, nsteps (dep_edge h) n p q ∧
         DependencyDepth fuel h (Some q) = Ok (d - Z.of_nat n).
Proof.
  intros Hc Ha Hmax Hfuel. induction n as [|n IH]; intros p d Hd Hn.
  - exists p. split; [constructor|]. by rewrite Z.sub_0_r.
  - destruct (DependencyDepth_pred h p fuel d) as (q & Hpq & Hq); [done..|lia|].
    destruct (IH q (d - 1) Hq) as (r & Hqr & Hr); [lia|].
    exists r. split; [by econstructor|].
    rewrite Hr. f_equal. lia.
Qed.

(** X11: the depth of a package is the length of a chain of imports that
    starts at it and ends at a package of depth 0, and so it is below
    the number of packages. *)
Theorem DependencyDepth_chain h p fuel d :
  closed h → acyclic (dep_edge h) → Z.of_nat (length h) ≤ int_max →
  (length h ≤ fuel)%nat →
  DependencyDepth fuel h (Some p) = Ok d → 0 ≤ d →
  d < Z.of_nat (length h) ∧
  ∃ q, nsteps (dep_edge h) (Z.to_nat d) p q ∧
       DependencyDepth fuel h (Some q) = Ok 0.
Proof.
  intros Hc Ha Hmax Hfuel Hd Hpos. split.
  - pose proof (DependencyDepth_Ok_valid _ _ _ _ Hd) as Hp.
    destruct (DependencyDepth_total h p (length h) Hc Ha Hp) as [d' Hd']; [done|].
    assert (d' = d) as -> by (by eapply DependencyDepth_det).
    apply DependencyDepth_range in Hd'; [lia|done].
  - destruct (DependencyDepth_descent h fuel Hc Ha Hmax Hfuel (Z.to_nat d) p d)
      as (q & Hpq & Hq); [done|lia|].
    exists q. split; [done|]. rewrite Hq. f_equal. lia.
Qed.

(** *** The buckets of [sortByDependencyDepth] *)

(** X12: after [sortByDependencyDepth] a package is in the bucket of a depth
    exactly when the loop has visited it and this is its depth. When the
    loop visits every package of the heap, the depths that have a bucket
    are contiguous from 0 on: [printPkgs] meets no gap before the last
    bucket. *)
Theorem buckets_contiguous fuel st order st' :
  closed (heap st) → acyclic (dep_edge (heap st)) →
  Z.of_nat (length (heap st)) ≤ int_max → (length (heap st) ≤ fuel)%nat →
  pkgsByDependencyDepth st = ∅ →
  (∀ l, l ∈ order ↔ (l < length (heap st))%nat) →
  sortByDependencyDepth fuel st order = Ok st' →
  (∀ l d,
     (∃ li, pkgsByDependencyDepth st' !! d = Some li ∧ Some l ∈ li) ↔
     l ∈ order ∧ DependencyDepth fuel (heap st) (Some l) = Ok d) ∧
  (∀ d li, pkgsByDependencyDepth st' !! d = Some li →
     ∀ k, 0 ≤ k ≤ d → is_Some (pkgsByDependencyDepth st' !! k)).
Proof.
  intros Hc Ha Hmax Hfuel Hempty Hcover. unfold sortByDependencyDepth.
  intros (m1 & Hm1 & (m2 & ->%sort_buckets_Ok & [= <-])%bind_Ok)%bind_Ok.
  rewrite Hempty in Hm1. cbn [pkgsByDependencyDepth].
  set (h := heap st) in *.
  assert (Forall (λ l, (l < length h)%nat) order) as Hord
    by (apply Forall_forall; intros l; apply Hcover).
  destruct (bucket_pkgs_spec fuel h order ∅ m1 Hord Hm1) as (Hok1 & _ & Hall1).
  { intros d li Hli. by rewrite lookup_empty in Hli. }
  assert (∀ l d,
     (∃ li, (sort_Sort (Less h) <$> m1) !! d = Some li ∧ Some l ∈ li) ↔
     l ∈ order ∧ DependencyDepth fuel h (Some l) = Ok d) as Hexact.
  { intros l d. split.
    - intros (li & (li1 & <- & Hli1)%lookup_fmap_Some & Hl).
      rewrite sort_Sort_perm in Hl. split.
      + destruct (bucket_pkgs_members _ _ _ _ _ Hm1 d li1 (Some l) Hli1 Hl)
          as [(? & Hemp & _)|(? & [= <-] & ?)]; [|done].
        by rewrite lookup_empty in Hemp.
      + destruct (Hok1 d li1 Hli1) as [_ Hall]. rewrite Forall_forall in Hall.
        destruct (Hall _ Hl) as (? & [= <-] & _ & ?). done.
    - intros [Hl Hd]. destruct (Hall1 l Hl) as (d' & li' & Hd' & Hli' & Hin).
      rewrite Hd in Hd'. simplify_eq.
      exists (sort_Sort (Less h) li'). split; [by rewrite lookup_fmap, Hli'|].
      by rewrite sort_Sort_perm. }
  split; [done|].
  intros d li (li1 & <- & Hli1)%lookup_fmap_Some k Hk.
  destruct (Hok1 d li1 Hli1) as [Hne Hall].
  destruct li1 as [|q li1]; [done|].
  apply Forall_cons_1 in Hall as [(l & -> & Hl & Hd) _].
  destruct (DependencyDepth_descent h fuel Hc Ha Hmax Hfuel (Z.to_nat (d - k)) l d)
    as (r & _ & Hr); [done|lia|].
  replace (d - Z.of_nat (Z.to_nat (d - k))) with k in Hr by lia.
  destruct (proj2 (Hexact r k)) as (li' & -> & _); [|done].
  split; [|done]. apply Hcover. by eapply DependencyDepth_Ok_valid.
Qed.


(** *** The registry *)

Lemma NewPackage_Ok st fullPath st' pkg err :
  NewPackage st fullPath = Ok (st', pkg, err) →
  (st' = st ∧ pkg = None ∧ err = Some (duplicate_error fullPath) ∧
   is_Some (pkgsByLocation st !! fullPath)) ∨
  (∃ new, st' = alloc st fullPath new ∧ pkg = Some (length (heap st)) ∧
          err = None ∧ pkgsByLocation st !! fullPath = None ∧
          Learned new = false ∧ Dependencies new = [] ∧ Dependants new = []).
Proof.
  intros H. pose proof (NewPackage_cases st fullPath) as Hc.
  destruct (pkgsByLocation st !! fullPath) as [l|] eqn:Hl.
  - rewrite Hc in H. simplify_eq. left. by eauto.
  - right. destruct (decide (fullPath = standardLibraryPath)).
    + rewrite Hc in H. simplify_eq. by eexists.
    + destruct (decide _); [|by rewrite Hc in H].
      destruct Hc as (relPath & _ & Hc). rewrite Hc in H. simplify_eq.
      by eexists.
Qed.

(** X13: [NewPackage] keeps the registry well formed. It leaves every
    registered identity with its package, and every package of the heap
    as it is; a package that it creates is found under the identity, at
    a new address, not learned and without edges. *)
Theorem NewPackage_registry_wf st fullPath st' pkg err :
  registry_wf st → NewPackage st fullPath = Ok (st', pkg, err) →
  registry_wf st' ∧
  (∀ k l, pkgsByLocation st !! k = Some l → pkgsByLocation st' !! k = Some l) ∧
  (∀ l lk, heap st !! l = Some lk → heap st' !! l = Some lk) ∧
  (err = None →
     pkgsByLocation st' !! fullPath = pkg ∧
     ∃ l new, pkg = Some l ∧ heap st !! l = None ∧ heap st' !! l = Some new ∧
       Learned new = false ∧ Dependencies new = [] ∧ Dependants new = []).
Proof.
  intros (Hv & Hinj & Hcov) [(-> & -> & -> & _)|(new & -> & -> & -> & Hnone & Hnew)]%NewPackage_Ok.
  - split; [done|]. split; [done|]. split; [done|]. done.
  - unfold alloc. cbn. split; [|split; [|split]].
    + unfold registry_valid. split; [|split]; cbn.
      * intros k l. cbn. rewrite lookup_insert, length_app. cbn.
        case_decide; [intros [= <-]; lia|]. intros ?%Hv. lia.
      * intros k k' l. cbn. rewrite !lookup_insert.
        repeat case_decide; simplify_eq; try done.
        -- intros [= <-] ?%Hv. lia.
        -- intros ?%Hv [= <-]. lia.
        -- apply Hinj.
      * intros l. cbn. rewrite length_app. cbn. intros Hl.
        destruct (decide (l = length (heap st))) as [->|].
        -- exists fullPath. by rewrite lookup_insert_eq.
        -- destruct (Hcov l) as [k Hk]; [lia|]. exists k.
           rewrite lookup_insert_ne; [done|]. intros <-. congruence.
    + intros k l Hk. cbn. rewrite lookup_insert_ne; [done|]. intros <-. congruence.
    + intros l lk Hl. cbn. by apply lookup_app_l_Some.
    + intros _. split; [by rewrite lookup_insert_eq|].
      exists (length (heap st)), new. split; [done|].
      split; [by apply lookup_ge_None|]. split; [by apply list_lookup_middle|].
      done.
Qed.

(** X14: an import path resolves to the package that was registered under
    its identity. Registering a package does not change what an import
    path resolved to before; an import path that resolved to nothing
    resolves to the new package when this is its identity, and to
    nothing still otherwise. *)
Theorem pkgFromImportPath_after_NewPackage st fullPath st' pkg importPath :
  NewPackage st fullPath = Ok (st', pkg, None) →
  pkgFromImportPath st importPath = pkgsByLocation st !! import_identity importPath ∧
  (import_identity importPath = fullPath →
     pkgFromImportPath st' importPath = pkg ∧ pkg ≠ None) ∧
  (import_identity importPath ≠ fullPath →
     pkgFromImportPath st' importPath = pkgFromImportPath st importPath) ∧
  (∀ l, pkgFromImportPath st importPath = Some l →
     pkgFromImportPath st' importPath = Some l).
Proof.
  intros [(_ & _ & [=] & _)|(new & -> & -> & _ & Hnone & _)]%NewPackage_Ok.
  unfold pkgFromImportPath, import_identity, alloc. cbn.
  split; [done|]. split; [|split].
  - intros ->. by rewrite lookup_insert_eq.
  - intros Hne. by rewrite lookup_insert_ne.
  - intros l Hl. rewrite lookup_insert_ne; [done|]. intros Heq.
    rewrite <-Heq in Hl. congruence.
Qed.


(** *** [Imported] again *)

Lemma any_not_internal_found h li q qk :
  closed_list h li → Some q ∈ li → h !! q = Some qk → Internal qk = false →
  any_not_internal h li = Ok true.
Proof.
  intros Hc Hin Hq Hint. induction Hc as [|d li (l & -> & Hl) _ IH];
    [by apply elem_of_nil in Hin|].
  cbn [any_not_internal]. destruct (lookup_lt_is_Some_2 h l Hl) as [dk Hdk].
  rewrite (deref_Some h l dk Hdk). cbn [bind].
  destruct (Internal dk) eqn:E; [|done]. cbn [negb].
  apply elem_of_cons in Hin as [?|Hin]; [simplify_eq; congruence|by apply IH].
Qed.

(** X15: a package with a dependant that is not internal is imported, and
    [Imported] finds this in its first loop: it returns with a budget of
    one call, cycles or not. *)
Theorem Imported_direct h p pk q qk fuel :
  h !! p = Some pk → closed_list h (Dependants pk) →
  Some q ∈ Dependants pk → h !! q = Some qk → Internal qk = false →
  Imported (S fuel) h (Some p) = Ok true.
Proof.
  intros Hpk Hc Hin Hq Hint. rewrite (Imported_unfold h fuel p pk Hpk).
  by rewrite (any_not_internal_found h _ q qk Hc Hin Hq Hint).
Qed.

(** *** The pass of [main] over the dependants, again *)

Lemma normalize_dependants_fields order : ∀ h h',
  normalize_dependants h order = Ok h' →
  length h' = length h ∧
  ∀ l lk, h !! l = Some lk →
    ∃ lk', h' !! l = Some lk' ∧
      RelPath lk' = RelPath lk ∧ Learned lk' = Learned lk ∧
      Internal lk' = Internal lk ∧ Dependencies lk' = Dependencies lk ∧
      ∀ x, x ∈ Dependants lk' ↔ x ∈ Dependants lk.
Proof.
  induction order as [|l0 order IH]; intros h h' H; cbn [normalize_dependants] in H.
  - simplify_eq. split; [done|]. intros l lk Hl. exists lk. by repeat split.
  - apply bind_Ok in H as (k0 & (? & [= <-] & Hk0)%deref_Ok & H).
    apply bind_Ok in H as (sorted & [Hperm _]%Sort_Ok & H).
    apply bind_Ok in H as (h1 & (? & ? & [= <-] & ? & ->)%update_Ok & H).
    simplify_eq.
    assert (l0 < length h)%nat as Hl0 by (by eapply lookup_lt_Some).
    apply IH in H as (Hlen & Hall). rewrite length_insert in Hlen.
    split; [done|]. intros l lk Hl. destruct (decide (l = l0)) as [->|Hne].
    + destruct (Hall l0 (set_Dependants (makeUnique sorted) k0))
        as (lk' & Hl' & ? & ? & ? & ? & Helem);
        [by apply list_lookup_insert_eq|].
      simplify_eq. exists lk'. repeat (split; [done|]).
      intros x. cbn in Helem. by rewrite Helem, makeUnique_elem, Hperm.
    + destruct (Hall l lk) as (lk' & Hl' & ? & ? & ? & ? & Helem);
        [by rewrite list_lookup_insert_ne|].
      exists lk'. by repeat (split; [done|]).
Qed.

(** X16: the pass of [main] that sorts and deduplicates the dependants takes
    no dependant away and adds none, and leaves the rest of every
    package alone: [Imported] answers after the pass what it answered
    before. *)
Theorem normalize_dependants_keeps_Imported h order h' p fuel :
  closed h → acyclic (dependant_edge h) →
  normalize_dependants h order = Ok h' →
  (p < length h)%nat → (length h ≤ fuel)%nat →
  (∀ l lk, h !! l = Some lk →
     ∃ lk', h' !! l = Some lk' ∧ Dependencies lk' = Dependencies lk ∧
            ∀ x, x ∈ Dependants lk' ↔ x ∈ Dependants lk) ∧
  Imported fuel h' (Some p) = Imported fuel h (Some p).
Proof.
  intros Hc Ha Hnorm Hp Hfuel.
  apply normalize_dependants_fields in Hnorm as (Hlen & Hall).
  split.
  { intros l lk Hl. destruct (Hall l lk Hl) as (lk' & ? & _ & _ & _ & ? & ?).
    by exists lk'. }
  assert (∀ l lk', h' !! l = Some lk' →
            ∃ lk, h !! l = Some lk ∧ Internal lk' = Internal lk ∧
                  ∀ x, x ∈ Dependants lk' ↔ x ∈ Dependants lk) as Hback.
  { intros l lk' Hl'. pose proof (lookup_lt_Some _ _ _ Hl') as Hlt.
    rewrite Hlen in Hlt. destruct (lookup_lt_is_Some_2 h l Hlt) as [lk Hl].
    destruct (Hall l lk Hl) as (lk2 & Hl2 & _ & _ & ? & _ & ?).
    exists lk. by simplify_eq. }
  assert (∀ a b, dependant_edge h' a b ↔ dependant_edge h a b) as Hedge.
  { intros a b. split.
    - intros (ak' & (ak & Hak & _ & Helem)%Hback & Hin).
      exists ak. split; [done|]. by apply Helem.
    - intros (ak & Hak & Hin).
      destruct (Hall a ak Hak) as (ak' & Hak' & _ & _ & _ & _ & Helem).
      exists ak'. split; [done|]. by apply Helem. }
  assert (∀ a b, tc (dependant_edge h') a b ↔ tc (dependant_edge h) a b) as Htc.
  { intros a b. split; (induction 1 as [x y Hxy|x y z Hxy _ IH];
      [apply tc_once|eapply tc_l; [|exact IH]]; by apply Hedge). }
  assert (closed h') as Hc'.
  { intros l lk' Hl'. pose proof (lookup_lt_Some _ _ _ Hl') as Hlt.
    rewrite Hlen in Hlt. destruct (lookup_lt_is_Some_2 h l Hlt) as [lk Hl].
    destruct (Hall l lk Hl) as (lk2 & Hl2 & _ & _ & _ & Hdeps & Helem).
    simplify_eq. destruct (Hc l lk Hl) as [Hd1 Hd2]. split.
    - rewrite Hdeps. by apply (closed_list_length h).
    - apply (closed_list_length h); [done|]. apply Forall_forall.
      intros x Hx%Helem. unfold closed_list in Hd2.
      rewrite Forall_forall in Hd2. by apply Hd2. }
  assert (acyclic (dependant_edge h')) as Ha'
    by (intros a Hcyc; by apply (Ha a), Htc).
  destruct (Imported_total h p fuel Hc Ha Hp Hfuel) as [b Hb].
  destruct (Imported_total h' p fuel Hc' Ha') as [b' Hb']; [lia..|].
  rewrite Hb, Hb'. f_equal. destruct b'.
  - apply Imported_sound in Hb' as (q & qk' & Hreach & Hq' & Hint).
    destruct (Hback q qk' Hq') as (qk & Hq & Hint' & _).
    symmetry. eapply (Imported_complete h p q qk); [by apply Htc|done| |done].
    congruence.
  - destruct b; [|done].
    apply Imported_sound in Hb as (q & qk & Hreach & Hq & Hint).
    destruct (Hall q qk Hq) as (qk' & Hq' & _ & _ & Hint' & _).
    eapply (Imported_complete h' p q qk'); [by apply Htc|done| |done].
    congruence.
Qed.


(** *** [loadFileInfo] *)

(** X17: [loadFileInfo] registers one package at most, under the directory
    of the file, and only for a file that is not a test, ends in [.go],
    lies in a directory that is not registered and names its directory
    in its package clause. It never returns the duplicate error of
    [NewPackage]: the one error it returns is an error of the parser
    that is not a syntax error. It panics only for a directory that is
    not the root and too short to lie below it. *)
Theorem loadFileInfo_registers st _path parsed :
  (∀ st' err, loadFileInfo st _path parsed = Ok (st', err) →
     (st' = st ∧ ∀ e, err = Some e → parsed = ClauseError false e) ∨
     (err = None ∧ Ext _path = ".go" ∧
      HasSuffix (Base _path) "_test.go" = false ∧
      pkgsByLocation st !! Dir _path = None ∧
      parsed = ClauseOk (Some (Base (Dir _path))) ∧
      ∃ new, st' = alloc st (Dir _path) new ∧
             pkgsByLocation st' !! Dir _path = Some (length (heap st)))) ∧
  (is_Some (pkgsByLocation st !! Dir _path) →
     loadFileInfo st _path parsed = Ok (st, None)) ∧
  (loadFileInfo st _path parsed = Panic →
     Dir _path ≠ standardLibraryPath ∧
     (len (Dir _path) < len standardLibraryPath + 1)%nat).
Proof.
  unfold loadFileInfo. split; [|split].
  - intros st' err.
    destruct (bool_decide (Ext _path = ".go")) eqn:Hext; cbn [negb];
      [|intros [= <- <-]; by left].
    apply bool_decide_eq_true in Hext.
    destruct (HasSuffix (Base _path) "_test.go") eqn:Htest;
      [intros [= <- <-]; by left|].
    destruct (pkgsByLocation st !! Dir _path) eqn:Hreg;
      [intros [= <- <-]; by left|].
    destruct parsed as [[] e|[name|]].
    + intros [= <- <-]. by left.
    + intros [= <- <-]. left. split; [done|]. by intros ? [= <-].
    + case_bool_decide as Hname; [|intros [= <- <-]; by left].
      intros ([[st1 pkg] err1] & H & [= <- <-])%bind_Ok. cbn.
      apply NewPackage_Ok in H
        as [(_ & _ & _ & [? ?])|(new & -> & _ & -> & _)]; [congruence|].
      right. repeat (split; [done|]). split; [by subst|].
      exists new. split; [done|]. unfold alloc. cbn. by rewrite lookup_insert_eq.
    + intros [= <- <-]. by left.
  - intros [l Hl]. rewrite Hl. by repeat destruct (_ : bool).
  - destruct (negb _); [done|]. destruct (HasSuffix _ _); [done|].
    destruct (pkgsByLocation st !! Dir _path) eqn:Hreg; [done|].
    destruct parsed as [[] e|[name|]]; try done.
    case_bool_decide; [|done].
    pose proof (NewPackage_cases st (Dir _path)) as Hc. rewrite Hreg in Hc.
    destruct (decide (Dir _path = standardLibraryPath)); [by rewrite Hc|].
    destruct (decide _) as [|Hlt]; [by destruct Hc as (? & _ & ->)|].
    intros _. split; [done|lia].
Qed.


(** *** [readConfig] *)

Lemma Split_length s c : length (Split s c) = S (count_byte c s).
Proof.
  induction s as [|a s IH]; [done|]. cbn [Split count_byte].
  destruct (Ascii.eqb a c); cbn [length]; [by rewrite IH|].
  destruct (Split s c); cbn [length] in *; lia.
Qed.

Lemma Split_two text :
  (∃ key value, Split text colon = [key; value]) ↔ count_byte colon text = 1%nat.
Proof.
  pose proof (Split_length text colon) as Hlen. split.
  - intros (key & value & Hs). rewrite Hs in Hlen. cbn in Hlen. lia.
  - intros Hc. rewrite Hc in Hlen.
    destruct (Split text colon) as [|key [|value [|??]]]; try done. by eauto.
Qed.

Lemma readConfig_loop_cases lines : ∀ root vendor lineNumber,
  0 ≤ lineNumber → lineNumber + Z.of_nat (length lines) ≤ int_max →
  match readConfig_loop root vendor lineNumber lines with
  | ConfigOk _ _ => Forall config_line lines
  | ConfigParseError n =>
      ∃ i text, lines !! i = Some text ∧ count_byte colon text ≠ 1%nat ∧
        n = lineNumber + Z.of_nat i + 1 ∧ Forall config_line (take i lines)
  | ConfigInvalidKey configKey =>
      ∃ i text, lines !! i = Some text ∧ count_byte colon text = 1%nat ∧
        configKey = config_key text ∧
        configKey ≠ "standardLibraryPath" ∧ configKey ≠ "vendorRelPath" ∧
        Forall config_line (take i lines)
  end.
Proof.
  induction lines as [|text lines IH]; intros root vendor lineNumber Hpos Hmax;
    cbn [readConfig_loop]; [constructor|].
  cbn [length] in Hmax.
  rewrite int_add_1 by (unfold int_min, int_max in *; lia).
  destruct (Split text colon) as [|key [|value [|??]]] eqn:Hs;
    try (exists 0%nat, text; split; [done|]; split;
         [intros [? [? ?]]%Split_two; congruence|];
         split; [lia|constructor]).
  assert (count_byte colon text = 1%nat) as Hone by (apply Split_two; by eauto).
  assert (config_key text = TrimSpace key) as Hkey
    by (unfold config_key; by rewrite Hs).
  assert (config_line text → ∀ r v,
    match readConfig_loop r v (lineNumber + 1) lines with
    | ConfigOk _ _ => Forall config_line (text :: lines)
    | ConfigParseError n =>
        ∃ i text0, (text :: lines) !! i = Some text0 ∧
          count_byte colon text0 ≠ 1%nat ∧ n = lineNumber + Z.of_nat i + 1 ∧
          Forall config_line (take i (text :: lines))
    | ConfigInvalidKey configKey =>
        ∃ i text0, (text :: lines) !! i = Some text0 ∧
          count_byte colon text0 = 1%nat ∧
          configKey = config_key text0 ∧
          configKey ≠ "standardLibraryPath" ∧ configKey ≠ "vendorRelPath" ∧
          Forall config_line (take i (text :: lines))
    end) as Hrest.
  { intros Hline r v. specialize (IH r v (lineNumber + 1)).
    destruct (readConfig_loop r v (lineNumber + 1) lines).
    - constructor; [done|]. apply IH; lia.
    - destruct IH as (i & text0 & ? & ? & -> & ?); [lia..|].
      exists (S i), text0. split; [done|]. split; [done|]. split; [lia|].
      by constructor.
    - destruct IH as (i & text0 & ? & ? & ? & ? & ? & ?); [lia..|].
      exists (S i), text0. repeat (split; [done|]). by constructor. }
  destruct (decide (TrimSpace key = "standardLibraryPath"));
    [apply Hrest; split; [done|left; congruence]|].
  destruct (decide (TrimSpace key = "vendorRelPath"));
    [apply Hrest; split; [done|right; congruence]|].
  exists 0%nat, text. rewrite Hkey. repeat (split; [done|]). constructor.
Qed.

(** X18: [readConfig] accepts a file only when every line holds one colon
    exactly, with one of the two keys before it; so a blank line or a
    value with a colon in it ends the program. What is reported is the
    first line that is not of this kind: its number, counted from 1,
    when it does not hold one colon, and else its key, trimmed. *)
Theorem readConfig_reports lines :
  Z.of_nat (length lines) ≤ int_max →
  match readConfig lines with
  | ConfigOk _ _ => Forall config_line lines
  | ConfigParseError n =>
      ∃ i text, lines !! i = Some text ∧ count_byte colon text ≠ 1%nat ∧
        n = Z.of_nat i + 1 ∧ Forall config_line (take i lines)
  | ConfigInvalidKey configKey =>
      ∃ i text, lines !! i = Some text ∧ count_byte colon text = 1%nat ∧
        configKey = config_key text ∧
        configKey ≠ "standardLibraryPath" ∧ configKey ≠ "vendorRelPath" ∧
        Forall config_line (take i lines)
  end.
Proof.
  intros Hmax. unfold readConfig.
  pose proof (readConfig_loop_cases lines EmptyString EmptyString 0) as H.
  destruct (readConfig_loop _ _ _ _).
  - apply H; lia.
  - destruct H as (i & text & ? & ? & -> & ?); [lia..|].
    exists i, text. split; [done|]. split; [done|]. split; [lia|done].
  - apply H; lia.
Qed.

Lemma readConfig_loop_app pre : ∀ root vendor lineNumber root' vendor' post,
  readConfig_loop root vendor lineNumber pre = ConfigOk root' vendor' →
  ∃ n, readConfig_loop root vendor lineNumber (pre ++ post)
       = readConfig_loop root' vendor' n post.
Proof.
  induction pre as [|text pre IH]; intros root vendor lineNumber root' vendor' post;
    cbn [readConfig_loop app].
  - intros [= <- <-]. by eexists.
  - destruct (Split text colon) as [|key [|value [|??]]]; try done.
    repeat case_decide; try done; apply IH.
Qed.

(** X19: a line sets the path that its key names and leaves the other as the
    lines before have set it: of two lines with the same key the later
    one counts. *)
Theorem readConfig_last_line pre key value root vendor :
  readConfig pre = ConfigOk root vendor →
  has_byte colon key = false → has_byte colon value = false →
  (TrimSpace key = "standardLibraryPath" →
     readConfig (pre ++ [key +:+ String colon value])
       = ConfigOk (TrimSpace value) vendor) ∧
  (TrimSpace key = "vendorRelPath" →
     readConfig (pre ++ [key +:+ String colon value])
       = ConfigOk root (TrimSpace value)).
Proof.
  intros Hpre Hkey Hvalue. unfold readConfig in *.
  destruct (readConfig_loop_app pre _ _ _ _ _ [key +:+ String colon value] Hpre)
    as [n ->].
  cbn [readConfig_loop]. rewrite Split_app, Split_no_sep by done.
  split; intros Hk; rewrite Hk; by repeat case_decide.
Qed.


(** *** The [Internal] flag *)

Lemma same_paths_refl h : same_paths h h.
Proof. intros l pk Hl. by exists pk. Qed.

Lemma same_paths_trans h1 h2 h3 :
  same_paths h1 h2 → same_paths h2 h3 → same_paths h1 h3.
Proof.
  intros H12 H23 l pk Hl.
  destruct (H12 l pk Hl) as (pk2 & Hl2 & Hr2 & Hi2).
  destruct (H23 l pk2 Hl2) as (pk3 & Hl3 & Hr3 & Hi3).
  exists pk3. split; [done|]. split; congruence.
Qed.

Lemma update_same_paths h p f h' :
  (∀ pk, RelPath (f pk) = RelPath pk ∧ Internal (f pk) = Internal pk) →
  update h p f = Ok h' → same_paths h h'.
Proof.
  intros Hf (l & pk & -> & Hl & ->)%update_Ok l' pk' Hl'.
  destruct (decide (l' = l)) as [->|Hne].
  - exists (f pk). rewrite list_lookup_insert_eq by (by eapply lookup_lt_Some).
    split; [done|]. assert (pk' = pk) as -> by congruence. apply Hf.
  - exists pk'. by rewrite list_lookup_insert_ne.
Qed.

Lemma loadLearnedPkgs_same_paths lines : ∀ st st',
  loadLearnedPkgs st lines = Ok st' →
  pkgsByLocation st' = pkgsByLocation st ∧ same_paths (heap st) (heap st').
Proof.
  induction lines as [|line lines IH]; intros st st'; cbn [loadLearnedPkgs].
  - intros [= <-]. split; [done|apply same_paths_refl].
  - destruct (decide _); [|apply IH].
    intros (h & Hh & [Hreg Hpaths]%IH)%bind_Ok. split; [done|].
    eapply same_paths_trans; [|exact Hpaths].
    eapply update_same_paths; [|exact Hh]. done.
Qed.

Lemma add_edge_same_paths h pkg importedPkg h' :
  add_edge h pkg importedPkg = Ok h' → same_paths h h'.
Proof.
  intros (p & i & pk & sorted & _ & _ & _ & _ & _ & _ & Hall)%add_edge_Ok.
  intros l lk Hl.
  eexists. split; [by apply Hall|]. done.
Qed.

Lemma scan_imports_same_paths imports : ∀ st pkg st',
  scan_imports st pkg imports = Ok st' →
  pkgsByLocation st' = pkgsByLocation st ∧ same_paths (heap st) (heap st').
Proof.
  induction imports as [|i imports IH]; intros st pkg st'; cbn [scan_imports].
  - intros [= <-]. split; [done|apply same_paths_refl].
  - unfold scan_import.
    intros (st1 & (h & Hh & [= <-])%bind_Ok & [Hreg Hpaths]%IH)%bind_Ok.
    split; [done|].
    eapply same_paths_trans; [|exact Hpaths]. by eapply add_edge_same_paths.
Qed.

Lemma scanFileForDependencies_same_paths st _path parsed pkg st' err :
  scanFileForDependencies st _path parsed pkg = Ok (st', err) →
  pkgsByLocation st' = pkgsByLocation st ∧ same_paths (heap st) (heap st').
Proof.
  assert (pkgsByLocation st = pkgsByLocation st ∧
          same_paths (heap st) (heap st)) as Hsame
    by (split; [done|apply same_paths_refl]).
  unfold scanFileForDependencies.
  destruct (negb _); [by intros [= <- <-]|].
  destruct (HasSuffix _ _); [by intros [= <- <-]|].
  destruct parsed as [e|[name|] imports]; try (by intros [= <- <-]).
  intros (p & _ & H)%bind_Ok.
  destruct (negb _); [by simplify_eq|].
  apply bind_Ok in H as (st1 & H & [= <- <-]).
  by eapply scan_imports_same_paths.
Qed.

Lemma sortByDependencyDepth_tables fuel st order st' :
  sortByDependencyDepth fuel st order = Ok st' →
  pkgsByLocation st' = pkgsByLocation st ∧ heap st' = heap st.
Proof.
  unfold sortByDependencyDepth.
  by intros (m1 & _ & (m2 & _ & [= <-])%bind_Ok)%bind_Ok.
Qed.

Lemma internal_flags_frame st st' :
  internal_flags st → pkgsByLocation st' = pkgsByLocation st →
  same_paths (heap st) (heap st') → internal_flags st'.
Proof.
  intros Hinv Hreg Hpaths k l Hk. rewrite Hreg in Hk.
  destruct (Hinv k l Hk) as (pk & Hl & Hint & Hrel).
  destruct (Hpaths l pk Hl) as (pk' & Hl' & Hr' & Hi').
  exists pk'. split; [done|]. rewrite Hr', Hi'. done.
Qed.

Lemma internal_flags_NewPackage st fullPath st' pkg err :
  internal_flags st → NewPackage st fullPath = Ok (st', pkg, err) →
  internal_flags st'.
Proof.
  intros Hinv H. pose proof (NewPackage_cases st fullPath) as Hc.
  destruct (pkgsByLocation st !! fullPath); [by rewrite Hc in H; simplify_eq|].
  assert (∀ new,
    Internal new = Contains (RelPath new) "internal" →
    (fullPath ≠ standardLibraryPath →
       slice_from fullPath (len standardLibraryPath + 1) = Ok (RelPath new)) →
    internal_flags (alloc st fullPath new)) as Hnew.
  { intros new Hint Hrel k l. unfold alloc. cbn [pkgsByLocation heap].
    intros [[<- <-]|[_ (pk & Hl & ?)%Hinv]]%lookup_insert_Some.
    - exists new. split; [by apply list_lookup_middle|]. by split.
    - exists pk. split; [|done]. by apply lookup_app_l_Some. }
  destruct (decide (fullPath = standardLibraryPath)).
  - rewrite Hc in H. simplify_eq. by apply Hnew.
  - destruct (decide _); [|by rewrite Hc in H].
    destruct Hc as (relPath & Hrel & Hc). rewrite Hc in H. simplify_eq.
    by apply Hnew.
Qed.

Lemma loadFileInfo_Ok st _path parsed st' err :
  loadFileInfo st _path parsed = Ok (st', err) →
  st' = st ∨ ∃ pkg err', NewPackage st (Dir _path) = Ok (st', pkg, err').
Proof.
  unfold loadFileInfo.
  destruct (negb _); [intros [= <- <-]; by left|].
  destruct (HasSuffix _ _); [intros [= <- <-]; by left|].
  destruct (pkgsByLocation st !! Dir _path); [intros [= <- <-]; by left|].
  destruct parsed as [syntax e|[name|]]; try (intros [= <- <-]; by left).
  case_bool_decide; [|intros [= <- <-]; by left].
  intros ([[st1 pkg] err1] & Hnew & [= <- <-])%bind_Ok. right. by eauto.
Qed.

Lemma reachable_internal_flags st : reachable st → internal_flags st.
Proof.
  intros Hreach.
  induction Hreach as [|st fullPath st' pkg err _ IH H
                  |st _path parsed st' err _ IH H
                  |st lines st' _ IH H
                  |st _path parsed pkg st' err _ IH H
                  |st order h' _ IH H
                  |fuel st order st' _ IH H].
  - intros k l Hk. cbn in Hk. by rewrite lookup_empty in Hk.
  - by eapply internal_flags_NewPackage.
  - apply loadFileInfo_Ok in H as [->|(pkg & err' & H)]; [done|].
    by eapply internal_flags_NewPackage.
  - apply loadLearnedPkgs_same_paths in H as [? ?].
    by eapply internal_flags_frame.
  - apply scanFileForDependencies_same_paths in H as [? ?].
    by eapply internal_flags_frame.
  - apply normalize_dependants_fields in H as [_ H].
    eapply internal_flags_frame; [exact IH|done|].
    intros l pk Hl. destruct (H l pk Hl) as (pk' & ? & ? & _ & ? & _).
    by exists pk'.
  - apply sortByDependencyDepth_tables in H as [Hreg Hheap].
    eapply internal_flags_frame; [exact IH|done|].
    rewrite Hheap. apply same_paths_refl.
Qed.

Lemma drop_bytes_app s c t : drop_bytes (len s + 1) (s +:+ String c t) = t.
Proof. induction s as [|a s IH]; [done|]. by rewrite app_String. Qed.

Lemma slice_from_below s t :
  slice_from (s +:+ "/" +:+ t) (len s + 1) = Ok t.
Proof.
  unfold slice_from. rewrite !len_app. change (len "/") with 1%nat.
  replace (len s + 1 <=? len s + (1 + len t))%nat with true
    by (symmetry; apply Nat.leb_le; lia).
  f_equal. apply (drop_bytes_app s slash t).
Qed.

(** C6 fails on the code: [NewPackage] tests the relative path with
    [strings.Contains], so in every state of a run the [Internal] flag
    of a registered package other than the root is set exactly when
    [internal] occurs somewhere in its relative path. A package whose
    path holds [internal] without having it as a segment is registered
    with the flag set, and, as long as no package imports it, [Write]
    leaves it out of the report. *)
Theorem Internal_flag_substring st :
  reachable st →
  (∀ k l, pkgsByLocation st !! k = Some l → k ≠ standardLibraryPath →
     ∃ pk, heap st !! l = Some pk ∧
       slice_from k (len standardLibraryPath + 1) = Ok (RelPath pk) ∧
       (Internal pk = true ↔ substring_of "internal" (RelPath pk)) ∧
       ("internal" ∈ Split (RelPath pk) slash → Internal pk = true)) ∧
  (∀ relPath,
     substring_of "internal" relPath → "internal" ∉ Split relPath slash →
     pkgsByLocation st !! (standardLibraryPath +:+ "/" +:+ relPath) = None →
     ∃ st' l pk,
       NewPackage st (standardLibraryPath +:+ "/" +:+ relPath)
         = Ok (st', Some l, None) ∧
       reachable st' ∧
       pkgsByLocation st' !! (standardLibraryPath +:+ "/" +:+ relPath)
         = Some l ∧
       heap st' !! l = Some pk ∧ RelPath pk = relPath ∧
       Internal pk = true ∧ "internal" ∉ Split (RelPath pk) slash) ∧
  (∀ fuel l pk,
     heap st !! l = Some pk → Internal pk = true → Dependants pk = [] →
     closed (heap st) → acyclic (dep_edge (heap st)) →
     (length (heap st) ≤ fuel)%nat →
     Write fuel (heap st) (Some l) = Ok []).
Proof.
  intros Hreach. split; [|split].
  - intros k l Hk Hne.
    destruct (reachable_internal_flags st Hreach k l Hk)
      as (pk & Hl & Hint & Hrel).
    exists pk. split; [done|]. split; [by apply Hrel|].
    rewrite Hint. split; [apply Contains_spec|].
    intros Hseg. by apply Contains_spec, Split_substring with slash.
  - intros relPath Hsub Hseg Hfree.
    set (fullPath := standardLibraryPath +:+ "/" +:+ relPath) in *.
    assert (fullPath ≠ standardLibraryPath) as Hne.
    { intros Heq. apply (f_equal len) in Heq. unfold fullPath in Heq.
      rewrite !len_app in Heq. change (len "/") with 1%nat in Heq. lia. }
    assert (len standardLibraryPath + 1 ≤ len fullPath)%nat as Hlen.
    { unfold fullPath. rewrite !len_app. change (len "/") with 1%nat. lia. }
    pose proof (NewPackage_cases st fullPath) as Hc. rewrite Hfree in Hc.
    rewrite decide_False in Hc by done. rewrite decide_True in Hc by done.
    destruct Hc as (relPath' & Hrel & Hc).
    unfold fullPath in Hrel. rewrite slice_from_below in Hrel.
    injection Hrel as <-.
    apply Contains_spec in Hsub. rewrite Hsub in Hc.
    eexists _, _, _. split; [exact Hc|].
    split; [by eapply reachable_NewPackage|].
    unfold alloc. cbn [pkgsByLocation heap].
    split; [by rewrite lookup_insert_eq|].
    split; [by apply list_lookup_middle|]. done.
  - intros fuel l pk Hl Hint Hdeps Hc Ha Hfuel.
    pose proof (lookup_lt_Some _ _ _ Hl) as Hlt.
    destruct (DependencyDepth_total (heap st) l fuel Hc Ha Hlt Hfuel) as [d Hd].
    destruct fuel as [|fuel]; [lia|].
    unfold Write. rewrite (Imported_unfold _ fuel l pk Hl), Hdeps.
    cbn [any_not_internal any_imported bind]. rewrite Hd. cbn [bind].
    rewrite (deref_Some _ l pk Hl). cbn [bind]. by rewrite Hint.
Qed.

End Engine.

(** ** The insertion sort meets the contract of [sort.Sort] *)

Lemma insert_back_perm {A} (less : A → A → bool) x sorted_rev :
  insert_back less x sorted_rev ≡ₚ x :: sorted_rev.
Proof.
  induction sorted_rev as [|y before IH]; cbn [insert_back]; [done|].
  destruct (less x y); [|done]. rewrite IH. apply Permutation_swap.
Qed.

Lemma insertionSort_perm A (less : A → A → bool) data :
  insertionSort less data ≡ₚ data.
Proof.
  unfold insertionSort. rewrite reverse_Permutation.
  enough (∀ acc, foldl (λ sorted_rev x, insert_back less x sorted_rev) acc data
                 ≡ₚ data ++ acc) as H by (by rewrite H, app_nil_r).
  induction data as [|x data IH]; intros acc; cbn [foldl]; [done|].
  rewrite IH, insert_back_perm. symmetry. apply Permutation_middle.
Qed.

Lemma insert_back_HdRel {A} (less : A → A → bool) a x sorted_rev :
  less a x = false → HdRel (λ u v, less u v = false) a sorted_rev →
  HdRel (λ u v, less u v = false) a (insert_back less x sorted_rev).
Proof.
  intros Hax Hhd. destruct sorted_rev as [|y before]; cbn [insert_back];
    [by constructor|].
  destruct (less x y); constructor; [by inv Hhd|done].
Qed.

Lemma insert_back_sorted {A} (less : A → A → bool) x sorted_rev :
  (∀ a b, less a b = true → less b a = false) →
  Sorted (λ u v, less u v = false) sorted_rev →
  Sorted (λ u v, less u v = false) (insert_back less x sorted_rev).
Proof.
  intros Hasym. induction 1 as [|y before Hs IH Hhd]; cbn [insert_back];
    [by repeat constructor|].
  destruct (less x y) eqn:Hxy.
  - constructor; [done|]. apply insert_back_HdRel; [by apply Hasym|done].
  - by repeat constructor.
Qed.

Lemma insertionSort_sorted A (less : A → A → bool) data :
  StrictWeak less → Sorted (λ a b, less b a = false) (insertionSort less data).
Proof.
  intros [Hasym _]. unfold insertionSort.
  apply (Sorted_reverse (λ u v, less u v = false)).
  enough (∀ acc, Sorted (λ u v, less u v = false) acc →
            Sorted (λ u v, less u v = false)
              (foldl (λ sorted_rev x, insert_back less x sorted_rev) acc data))
    as H by (apply H; constructor).
  induction data as [|x data IH]; intros acc Hacc; cbn [foldl]; [done|].
  by apply IH, insert_back_sorted.
Qed.

#[export] Instance insertion_sorter : SortImpl := {|
  sort_Sort := @insertionSort;
  sort_Sort_perm := insertionSort_perm;
  sort_Sort_sorted := insertionSort_sorted
|}.

(** ** The properties on concrete trees *)

Definition root : string := "/go/src".
Definition vendor : string := "vendor".
Definition empty_state : State := mkState [] ∅ ∅.

(** [fmt] imports [internal/cpu], which imports [unsafe]. *)
Definition unsafe_pkg : Package :=
  mkPackage "unsafe" false [] [Some 1%nat] false.
Definition cpu_pkg : Package :=
  mkPackage "internal/cpu" false [Some 0%nat] [Some 2%nat] true.
Definition fmt_pkg : Package :=
  mkPackage "fmt" false [Some 1%nat] [] false.
Definition example_heap : list Package := [unsafe_pkg; cpu_pkg; fmt_pkg].
Definition example_state : State := mkState example_heap ∅ ∅.

(** Two packages without edges, and the same after [a] was found to
    import [b] once and twice. *)
Definition two_pkgs : list Package :=
  [mkPackage "a" false [] [] false; mkPackage "b" false [] [] false].
Definition two_pkgs_edge : list Package :=
  [mkPackage "a" false [Some 1%nat] [] false;
   mkPackage "b" false [] [Some 0%nat] false].
Definition two_pkgs_edge_twice : list Package :=
  [mkPackage "a" false [Some 1%nat] [] false;
   mkPackage "b" false [] [Some 0%nat; Some 0%nat] false].

(** A registry that holds the package [a] alone, and the import of
    [os] as the parser returns it. *)
Definition lone_state : State :=
  mkState [mkPackage "a" false [] [] false] {[ "/go/src/a" := 0%nat ]} ∅.
Definition import_os : string := String quote ("os" +:+ String quote EmptyString).

(** The example after [fmt] was found to import [unsafe] as well, and
    with [fmt] twice among the dependants of [internal/cpu], as two
    files of [fmt] that import it leave it. *)
Definition fmt_imports_unsafe : list Package :=
  [unsafe_pkg; cpu_pkg;
   mkPackage "fmt" false [Some 1%nat; Some 0%nat] [] false].
Definition cpu_imported_twice : list Package :=
  [unsafe_pkg;
   mkPackage "internal/cpu" false [Some 0%nat] [Some 2%nat; Some 2%nat] true;
   fmt_pkg].

(** The two packages with their registry, and the import of [b] as the
    parser returns it. *)
Definition two_state : State :=
  mkState two_pkgs {[ "/go/src/a" := 0%nat; "/go/src/b" := 1%nat ]} ∅.
Definition import_b : string := String quote ("b" +:+ String quote EmptyString).

(** A config file with a blank line, and one that sets both paths. *)
Definition config_blank_line : list string :=
  ["standardLibraryPath: /go/src"; EmptyString; "vendorRelPath: vendor"].
Definition config_both : list string :=
  ["standardLibraryPath: /usr/go"; "vendorRelPath: vendor"].

(** Two public packages, [externals] and [internals], registered in
    this order. *)
Definition externals_only : State :=
  alloc empty_state "/go/src/externals"
    (mkPackage "externals" false [] [] false).
Definition public_pkgs : State :=
  alloc externals_only "/go/src/internals"
    (mkPackage "internals" false [] [] true).

(** Addresses in ascending order, as a relation on the entries of an
    edge list. *)
Definition address_le (a b : option nat) : Prop :=
  ∃ x y, a = Some x ∧ b = Some y ∧ (x ≤ y)%nat.

Lemma example_heap_closed : closed example_heap.
Proof. by apply closedb_sound. Qed.

Lemma example_heap_acyclic : acyclic (dep_edge example_heap).
Proof. by apply layeredb_acyclic. Qed.

Lemma example_heap_dependants_acyclic : acyclic (dependant_edge example_heap).
Proof. by apply layeredb_acyclic. Qed.

Lemma example_heap_mirrored : mirrored example_heap.
Proof. apply mirroredb_sound. by vm_compute. Qed.

Lemma two_pkgs_no_edges : no_edges two_pkgs.
Proof. by repeat constructor. Qed.

Lemma two_pkgs_edge_added : edges_added vendor two_pkgs two_pkgs_edge.
Proof.
  apply (edges_more _ _ two_pkgs _ (Some 0%nat) (Some 1%nat));
    [apply edges_none|by vm_compute].
Qed.

Lemma two_pkgs_edge_added_twice :
  edges_added vendor two_pkgs two_pkgs_edge_twice.
Proof.
  apply (edges_more _ _ two_pkgs_edge _ (Some 0%nat) (Some 1%nat));
    [apply two_pkgs_edge_added|by vm_compute].
Qed.

(** Where two packages share a display name, the insertion sort leaves
    the two entries of the one on either side of the other, and
    [makeUnique] takes none away. *)
Example same_name_dependencies_repeat :
  (h1 ←! add_edge vendor
           [mkPackage "x" false [] [] false;
            mkPackage "vendor/y" false [] [] false;
            mkPackage "y" false [] [] false] (Some 0%nat) (Some 1%nat);
   h2 ←! add_edge vendor h1 (Some 0%nat) (Some 2%nat);
   h3 ←! add_edge vendor h2 (Some 0%nat) (Some 1%nat);
   Ok (Dependencies <$> h3 !! 0%nat))
  = Ok (Some [Some 1%nat; Some 2%nat; Some 1%nat]).
Proof. by vm_compute. Qed.

(** *** C1 *)

Lemma unresolved_import_panics_witness :
  pkgFromImportPath root lone_state (Trim import_os quote) = None ∧
  scan_imports root vendor lone_state (Some 0%nat) [import_os] = Panic ∧
  scanFileForDependencies root vendor lone_state "/go/src/a/a.go"
    (ParseOk (Some "a") [import_os]) (Some 0%nat) = Panic ∧
  loadLearnedPkgs root lone_state ["os"] = Ok lone_state.
Proof.
  split; [by vm_compute|]. split; [|split].
  - apply (unresolved_import_panics root vendor lone_state (Some 0%nat)
             [import_os] import_os); [by left|by vm_compute].
  - by vm_compute.
  - apply loadLearnedPkgs_unresolved. by vm_compute.
Defined.

(** *** C2 *)

Lemma DependencyDepth_recurrence_witness :
  closed example_heap ∧ acyclic (dep_edge example_heap) ∧
  ∃ ds,
    Forall2 (λ q d, DependencyDepth vendor 3 example_heap q = Ok d)
            (Dependencies fmt_pkg) ds ∧
    DependencyDepth vendor 3 example_heap (Some 2%nat)
      = Ok (depth_spec vendor fmt_pkg ds).
Proof.
  split; [exact example_heap_closed|]. split; [exact example_heap_acyclic|].
  apply (DependencyDepth_recurrence vendor example_heap 2 fmt_pkg 3);
    [exact example_heap_closed|exact example_heap_acyclic|by vm_compute
    |reflexivity|simpl; lia].
Defined.

(** *** C3 *)

Lemma Imported_reachability_witness :
  closed example_heap ∧ acyclic (dependant_edge example_heap) ∧
  ∃ b, Imported 3 example_heap (Some 0%nat) = Ok b ∧
    (b = true ↔
       ∃ q qk, tc (dependant_edge example_heap) 0%nat q ∧
               example_heap !! q = Some qk ∧ Internal qk = false) ∧
    (Dependants unsafe_pkg = [] → b = false).
Proof.
  split; [exact example_heap_closed|].
  split; [exact example_heap_dependants_acyclic|].
  apply (Imported_reachability example_heap 0 unsafe_pkg 3);
    [exact example_heap_closed|exact example_heap_dependants_acyclic
    |reflexivity|simpl; lia].
Defined.

(** *** C4 *)

(** After [a] was found to import [b] twice, [a] is twice among the
    dependants of [b]. *)
Lemma edge_additions_repeat_dependant :
  no_edges two_pkgs ∧ edges_added vendor two_pkgs two_pkgs_edge_twice ∧
  ∃ pk, two_pkgs_edge_twice !! 1%nat = Some pk ∧ ¬ NoDup (Dependants pk).
Proof.
  split; [exact two_pkgs_no_edges|]. split; [exact two_pkgs_edge_added_twice|].
  eexists. split; [reflexivity|]. cbn. intros Hnd.
  apply NoDup_cons in Hnd as [Hnot _]. apply Hnot. by left.
Qed.

Lemma edge_lists_invariant_witness :
  no_edges two_pkgs ∧ edges_added vendor two_pkgs two_pkgs_edge_twice ∧
  (∀ p pk, two_pkgs_edge_twice !! p = Some pk →
     name_sorted vendor two_pkgs_edge_twice (Dependencies pk) ∧
     no_adjacent_repeat (Dependencies pk) ∧
     (distinct_names vendor two_pkgs_edge_twice → NoDup (Dependencies pk))) ∧
  (∀ order, Forall (λ l, (l < length two_pkgs_edge_twice)%nat) order →
     ∃ h', normalize_dependants vendor two_pkgs_edge_twice order = Ok h' ∧
       ∀ l pk', l ∈ order → h' !! l = Some pk' →
         name_sorted vendor h' (Dependants pk') ∧
         no_adjacent_repeat (Dependants pk') ∧
         (distinct_names vendor two_pkgs_edge_twice → NoDup (Dependants pk'))).
Proof.
  split; [exact two_pkgs_no_edges|]. split; [exact two_pkgs_edge_added_twice|].
  apply (edge_lists_invariant vendor two_pkgs two_pkgs_edge_twice);
    [exact two_pkgs_no_edges|exact two_pkgs_edge_added_twice].
Defined.

(** *** C5 *)

(** [internal/cpu] has a dependency, the predeclared [unsafe], and its
    depth is 0. *)
Lemma depth_zero_with_dependencies :
  closed example_heap ∧ acyclic (dep_edge example_heap) ∧
  example_heap !! 1%nat = Some cpu_pkg ∧
  DependencyDepth vendor 3 example_heap (Some 1%nat) = Ok 0 ∧
  ¬ (Dependencies cpu_pkg = [] ∧
     Learned cpu_pkg = false ∧ Predeclared vendor cpu_pkg = false).
Proof.
  split; [exact example_heap_closed|]. split; [exact example_heap_acyclic|].
  split; [reflexivity|]. split; [by vm_compute|]. by intros [? _].
Qed.

Lemma DependencyDepth_levels_witness :
  closed example_heap ∧ acyclic (dep_edge example_heap) ∧
  ∃ d, DependencyDepth vendor 3 example_heap (Some 1%nat) = Ok d ∧ -1 ≤ d ∧
    (d = -1 ↔ Learned cpu_pkg = true ∨ Predeclared vendor cpu_pkg = true) ∧
    (d = 0 ↔
       Learned cpu_pkg = false ∧ Predeclared vendor cpu_pkg = false ∧
       ∀ q qk, Some q ∈ Dependencies cpu_pkg → example_heap !! q = Some qk →
         Learned qk = true ∨ Predeclared vendor qk = true).
Proof.
  split; [exact example_heap_closed|]. split; [exact example_heap_acyclic|].
  apply (DependencyDepth_levels vendor example_heap 1 cpu_pkg 3);
    [exact example_heap_closed|exact example_heap_acyclic|by vm_compute
    |reflexivity|simpl; lia].
Defined.

(** *** C6 *)

Lemma public_pkgs_reachable : reachable root vendor public_pkgs.
Proof.
  apply (reachable_NewPackage root vendor externals_only "/go/src/internals"
           public_pkgs (Some 1%nat) None); [|reflexivity].
  apply (reachable_NewPackage root vendor empty_state "/go/src/externals"
           externals_only (Some 0%nat) None); [|reflexivity].
  apply reachable_start.
Qed.

(** [internals] is registered as an internal package, although
    [internal] is none of its segments, and the report, which prints
    [externals], leaves it out. *)
Lemma Internal_flag_substring_witness :
  reachable root vendor public_pkgs ∧
  ("internal" ∉ Split "internals" slash) ∧
  NewPackage root externals_only "/go/src/internals"
    = Ok (public_pkgs, Some 1%nat, None) ∧
  (st ←! sortByDependencyDepth vendor 2 public_pkgs [0; 1]%nat;
   printPkgs vendor 2 2 st)
    = Ok [noDependenciesRow "externals" 0 "unimported"] ∧
  (∀ k l, pkgsByLocation public_pkgs !! k = Some l → k ≠ root →
     ∃ pk, heap public_pkgs !! l = Some pk ∧
       slice_from k (len root + 1) = Ok (RelPath pk) ∧
       (Internal pk = true ↔ substring_of "internal" (RelPath pk)) ∧
       ("internal" ∈ Split (RelPath pk) slash → Internal pk = true)) ∧
  (∀ relPath,
     substring_of "internal" relPath → "internal" ∉ Split relPath slash →
     pkgsByLocation public_pkgs !! (root +:+ "/" +:+ relPath) = None →
     ∃ st' l pk,
       NewPackage root public_pkgs (root +:+ "/" +:+ relPath)
         = Ok (st', Some l, None) ∧
       reachable root vendor st' ∧
       pkgsByLocation st' !! (root +:+ "/" +:+ relPath) = Some l ∧
       heap st' !! l = Some pk ∧ RelPath pk = relPath ∧
       Internal pk = true ∧ "internal" ∉ Split (RelPath pk) slash) ∧
  (∀ fuel l pk,
     heap public_pkgs !! l = Some pk → Internal pk = true →
     Dependants pk = [] →
     closed (heap public_pkgs) → acyclic (dep_edge (heap public_pkgs)) →
     (length (heap public_pkgs) ≤ fuel)%nat →
     Write vendor fuel (heap public_pkgs) (Some l) = Ok []).
Proof.
  split; [exact public_pkgs_reachable|].
  split; [cbn; by intros ?%list_elem_of_singleton|].
  split; [reflexivity|]. split; [by vm_compute|].
  apply (Internal_flag_substring root vendor public_pkgs).
  exact public_pkgs_reachable.
Defined.

(** *** C7 *)

(** [/go] is not registered, and registering it registers nothing. *)
Lemma short_identity_not_registered :
  pkgsByLocation empty_state !! "/go" = None ∧
  NewPackage root empty_state "/go" = Panic.
Proof. split; reflexivity. Qed.

Lemma NewPackage_registry_witness :
  NewPackage root lone_state "/go/src/a"
    = Ok (lone_state, None, Some (duplicate_error "/go/src/a")) ∧
  ∃ pk, NewPackage root lone_state "/go/src/b" =
    Ok (mkState (heap lone_state ++ [pk])
                (<["/go/src/b" := length (heap lone_state)]>
                   (pkgsByLocation lone_state))
                (pkgsByDependencyDepth lone_state),
        Some (length (heap lone_state)), None).
Proof.
  split.
  - apply (proj1 (NewPackage_registry root lone_state "/go/src/a") 0%nat).
    by vm_compute.
  - apply (proj2 (NewPackage_registry root lone_state "/go/src/b"));
      [by vm_compute|right; vm_compute; lia].
Defined.

(** *** C8 *)

Lemma printPkgs_order_witness :
  closed example_heap ∧ mirrored example_heap ∧
  acyclic (dep_edge example_heap) ∧
  ∃ st' (buckets : list (list (option nat))) (rowsss : list (list (list Row))),
    sortByDependencyDepth vendor 3 example_state [0; 1; 2]%nat = Ok st' ∧
    heap st' = example_heap ∧
    (∀ i li, buckets !! i = Some li →
       pkgsByDependencyDepth st' !! Z.of_nat i = Some li) ∧
    pkgsByDependencyDepth st' !! Z.of_nat (length buckets) = None ∧
    Forall2 (Forall2 (λ pkg rows, Write vendor 3 example_heap pkg = Ok rows))
            buckets rowsss ∧
    (∀ steps, (length buckets < steps)%nat →
       printPkgs vendor steps 3 st' = Ok (concat (@concat Row <$> rowsss))) ∧
    Forall (name_sorted vendor example_heap) buckets ∧
    Forall (Forall (λ q, ∃ l pk, q = Some l ∧ example_heap !! l = Some pk ∧
                       Learned pk = false ∧ Predeclared vendor pk = false))
           buckets ∧
    (∀ l pk, l ∈ [0; 1; 2]%nat → example_heap !! l = Some pk →
       Learned pk = true ∨ Predeclared vendor pk = true →
       ∃ li, pkgsByDependencyDepth st' !! (-1) = Some li ∧ Some l ∈ li) ∧
    (∀ l d,
       (∃ li, pkgsByDependencyDepth st' !! d = Some li ∧ Some l ∈ li) ↔
       l ∈ [0; 1; 2]%nat ∧
       DependencyDepth vendor 3 example_heap (Some l) = Ok d) ∧
    (∀ i li q, buckets !! i = Some li → q ∈ li →
       ∃ l, q = Some l ∧ l ∈ [0; 1; 2]%nat ∧
            DependencyDepth vendor 3 example_heap (Some l) = Ok (Z.of_nat i)).
Proof.
  split; [exact example_heap_closed|]. split; [exact example_heap_mirrored|].
  split; [exact example_heap_acyclic|].
  apply (printPkgs_order vendor 3 example_state [0; 1; 2]%nat);
    [exact example_heap_closed|exact example_heap_mirrored
    |exact example_heap_acyclic|by vm_compute|simpl; lia|reflexivity|].
  repeat constructor.
Defined.

(** The report of the example: [unsafe] is left out, [internal/cpu]
    comes at depth 0 and [fmt] at depth 1. *)
Example example_report :
  (st ←! sortByDependencyDepth vendor 3 example_state [2; 0; 1]%nat;
   printPkgs vendor 3 3 st)
  = Ok [firstRow "internal/cpu" 0 "imported" "unsafe";
        firstRow "fmt" 1 "unimported" "internal/cpu *"].
Proof. by vm_compute. Qed.

(** A bucket behind a gap is not printed. *)
Example gap_ends_report :
  printPkgs vendor 3 3
    (mkState example_heap ∅ {[ 0 := [Some 1%nat]; 2 := [Some 2%nat] ]})
  = Ok [firstRow "internal/cpu" 0 "imported" "unsafe"].
Proof. by vm_compute. Qed.

(** *** C9 *)

Lemma recursion_terminates_witness :
  closed example_heap ∧ mirrored example_heap ∧
  acyclic (dep_edge example_heap) ∧
  (∃ d, DependencyDepth vendor 3 example_heap (Some 2%nat) = Ok d) ∧
  (∃ b, Imported 3 example_heap (Some 2%nat) = Ok b) ∧
  (∀ budget,
     DependencyDepth vendor budget self_import (Some 0%nat) = OutOfFuel ∧
     Imported budget self_import (Some 0%nat) = OutOfFuel).
Proof.
  split; [exact example_heap_closed|]. split; [exact example_heap_mirrored|].
  split; [exact example_heap_acyclic|].
  apply (recursion_terminates vendor example_heap 2 3);
    [exact example_heap_closed|exact example_heap_mirrored
    |exact example_heap_acyclic|simpl; lia|simpl; lia].
Defined.

(** *** C10 *)

Lemma NewPackage_precondition_witness :
  registry_ok root empty_state ∧
  (NewPackage root empty_state "/go" = Panic ↔
     "/go" ≠ root ∧ (len "/go" < len root + 1)%nat) ∧
  (slice_from "/go" (len (root +:+ "/")) = Panic ↔
     (len "/go" < len root + 1)%nat).
Proof.
  split; [apply registry_ok_empty|].
  apply (NewPackage_precondition root empty_state "/go").
  apply registry_ok_empty.
Defined.

(** ** The further properties on concrete trees *)

Lemma NoDup_distinct_names v h : NoDup (Name v <$> h) → distinct_names v h.
Proof.
  intros Hnd p q pk qk Hp Hq Hn.
  apply (NoDup_lookup _ p q (Name v pk) Hnd); rewrite list_lookup_fmap.
  - by rewrite Hp.
  - by rewrite Hq, Hn.
Qed.

Lemma example_heap_distinct_names : distinct_names vendor example_heap.
Proof.
  apply NoDup_distinct_names. apply (bool_decide_unpack _). by vm_compute.
Qed.

Lemma lone_state_registry_wf : registry_wf lone_state.
Proof.
  unfold registry_wf, registry_valid, lone_state. cbn [pkgsByLocation heap].
  split; [|split].
  - intros k l [<- <-]%lookup_singleton_Some. simpl. lia.
  - by intros k k' l [<- <-]%lookup_singleton_Some [<- _]%lookup_singleton_Some.
  - intros l Hl. exists "/go/src/a". simpl in Hl.
    by assert (l = 0%nat) as -> by lia.
Qed.

Lemma cpu_imported_twice_closed : closed cpu_imported_twice.
Proof. by apply closedb_sound. Qed.

Lemma cpu_imported_twice_acyclic : acyclic (dependant_edge cpu_imported_twice).
Proof. by apply layeredb_acyclic. Qed.

(** *** X2 *)

Lemma makeUnique_sorted_NoDup_witness :
  (∀ a b, address_le a b → address_le b a → a = b) ∧
  StronglySorted address_le
    [Some 0; Some 0; Some 1; Some 2; Some 2]%nat ∧
  NoDup (makeUnique [Some 0; Some 0; Some 1; Some 2; Some 2]%nat).
Proof.
  assert (∀ a b, address_le a b → address_le b a → a = b) as Hanti.
  { intros a b (x & y & -> & -> & ?) (x' & y' & [= <-] & [= <-] & ?).
    f_equal. lia. }
  assert (StronglySorted address_le
            [Some 0; Some 0; Some 1; Some 2; Some 2]%nat) as Hsorted.
  { repeat constructor; eexists _, _; (split; [done|split; [done|lia]]). }
  split; [exact Hanti|]. split; [exact Hsorted|].
  exact (makeUnique_sorted_NoDup address_le _ Hanti Hsorted).
Defined.

(** *** X4 *)

Lemma DependsOn_twice_witness :
  closed example_heap ∧ distinct_names vendor example_heap ∧
  DependsOn vendor example_heap (Some 2%nat) (Some 0%nat)
    = Ok fmt_imports_unsafe ∧
  DependsOn vendor fmt_imports_unsafe (Some 2%nat) (Some 0%nat)
    = Ok fmt_imports_unsafe.
Proof.
  split; [exact example_heap_closed|].
  split; [exact example_heap_distinct_names|].
  split; [by vm_compute|].
  apply (DependsOn_twice vendor example_heap 2 0 fmt_imports_unsafe);
    [exact example_heap_closed|exact example_heap_distinct_names
    |simpl; lia|by vm_compute].
Defined.

(** *** X5 *)

Lemma DependsOn_commute_witness :
  closed example_heap ∧ distinct_names vendor example_heap ∧
  ∃ h1 h2 k1 k2,
    DependsOn vendor example_heap (Some 0%nat) (Some 1%nat) = Ok h1 ∧
    DependsOn vendor h1 (Some 0%nat) (Some 2%nat) = Ok h2 ∧
    DependsOn vendor example_heap (Some 0%nat) (Some 2%nat) = Ok k1 ∧
    DependsOn vendor k1 (Some 0%nat) (Some 1%nat) = Ok k2 ∧
    h2 = k2.
Proof.
  split; [exact example_heap_closed|].
  split; [exact example_heap_distinct_names|].
  eexists _, _, _, _.
  split; [by vm_compute|]. split; [by vm_compute|].
  split; [by vm_compute|]. split; [by vm_compute|].
  eapply (DependsOn_commute vendor example_heap 0 1 2);
    [exact example_heap_closed|exact example_heap_distinct_names
    |simpl; lia|simpl; lia|by vm_compute..].
Defined.

(** *** X6 *)

Lemma scan_imports_edges_witness :
  scan_imports root vendor two_state (Some 0%nat) [import_b]
    = Ok (set_heap two_pkgs_edge two_state) ∧
  let st := two_state in
  let st' := set_heap two_pkgs_edge two_state in
  let pkg : option nat := Some 0%nat in
  let imports := [import_b] in
  pkgsByLocation st' = pkgsByLocation st ∧
  pkgsByDependencyDepth st' = pkgsByDependencyDepth st ∧
  length (heap st') = length (heap st) ∧
  (∀ i, i ∈ imports →
     ∃ l, pkgFromImportPath root st (Trim i quote) = Some l ∧
          (l < length (heap st))%nat) ∧
  ∀ l lk, heap st !! l = Some lk →
    ∃ lk', heap st' !! l = Some lk' ∧
      RelPath lk' = RelPath lk ∧ Learned lk' = Learned lk ∧
      Internal lk' = Internal lk ∧
      (∀ x, x ∈ Dependencies lk' ↔
         x ∈ Dependencies lk ∨
         (pkg = Some l ∧
          ∃ i, i ∈ imports ∧ x = pkgFromImportPath root st (Trim i quote))) ∧
      (∀ x, x ∈ Dependants lk' ↔
         x ∈ Dependants lk ∨
         (x = pkg ∧
          ∃ i, i ∈ imports ∧ pkgFromImportPath root st (Trim i quote) = Some l)).
Proof.
  split; [by vm_compute|].
  apply (scan_imports_edges root vendor [import_b] two_state (Some 0%nat)
           (set_heap two_pkgs_edge two_state)).
  by vm_compute.
Defined.

(** *** X7 *)

Lemma loadLearnedPkgs_flags_witness :
  registry_valid lone_state ∧
  let st := lone_state in
  let lines := ["a"; "os"] in
  ∃ st', loadLearnedPkgs root st lines = Ok st' ∧
    pkgsByLocation st' = pkgsByLocation st ∧
    pkgsByDependencyDepth st' = pkgsByDependencyDepth st ∧
    length (heap st') = length (heap st) ∧
    ∀ l lk, heap st !! l = Some lk →
      ∃ lk', heap st' !! l = Some lk' ∧
        RelPath lk' = RelPath lk ∧ Dependencies lk' = Dependencies lk ∧
        Dependants lk' = Dependants lk ∧ Internal lk' = Internal lk ∧
        (Learned lk' = true ↔
           Learned lk = true ∨
           ∃ line, line ∈ lines ∧ pkgFromImportPath root st line = Some l) ∧
        (Learned lk' = true →
           ∀ fuel, DependencyDepth vendor (S fuel) (heap st') (Some l) = Ok (-1)).
Proof.
  split; [exact (proj1 lone_state_registry_wf)|].
  apply (loadLearnedPkgs_flags root vendor ["a"; "os"] lone_state).
  exact (proj1 lone_state_registry_wf).
Defined.

(** *** X10 *)

Lemma Write_rows_witness :
  Write vendor 3 example_heap (Some 2%nat)
    = Ok [firstRow "fmt" 1 "unimported" "internal/cpu *"] ∧
  let h := example_heap in
  let pkg : option nat := Some 2%nat in
  let rows := [firstRow "fmt" 1 "unimported" "internal/cpu *"] in
  ∃ p pk imported depth,
    pkg = Some p ∧ h !! p = Some pk ∧
    Imported 3 h pkg = Ok imported ∧
    DependencyDepth vendor 3 h pkg = Ok depth ∧
    if Internal pk && negb imported then rows = []
    else
      let importFlag := if imported then "imported" else "unimported" in
      length rows = (1 `max` length (Dependencies pk))%nat ∧
      ∃ dks, Forall2 (λ q dk, deref h q = Ok dk) (Dependencies pk) dks ∧
        rows = match dks with
               | [] => [noDependenciesRow (Name vendor pk) depth importFlag]
               | dk :: later =>
                   firstRow (Name vendor pk) depth importFlag
                            (dependency_label vendor dk)
                   :: ((λ dk, subsequentRows (dependency_label vendor dk))
                         <$> later)
               end.
Proof.
  split; [by vm_compute|].
  apply (Write_rows vendor 3 example_heap (Some 2%nat)).
  by vm_compute.
Defined.

(** *** X11 *)

Lemma DependencyDepth_chain_witness :
  closed example_heap ∧ acyclic (dep_edge example_heap) ∧
  DependencyDepth vendor 3 example_heap (Some 2%nat) = Ok 1 ∧
  1 < Z.of_nat (length example_heap) ∧
  ∃ q, nsteps (dep_edge example_heap) (Z.to_nat 1) 2%nat q ∧
       DependencyDepth vendor 3 example_heap (Some q) = Ok 0.
Proof.
  split; [exact example_heap_closed|]. split; [exact example_heap_acyclic|].
  split; [by vm_compute|].
  apply (DependencyDepth_chain vendor example_heap 2 3 1);
    [exact example_heap_closed|exact example_heap_acyclic|by vm_compute
    |simpl; lia|by vm_compute|lia].
Defined.

(** *** X12 *)

Lemma buckets_contiguous_witness :
  closed example_heap ∧ acyclic (dep_edge example_heap) ∧
  ∃ st', sortByDependencyDepth vendor 3 example_state [0; 1; 2]%nat = Ok st' ∧
    (∀ l d,
       (∃ li, pkgsByDependencyDepth st' !! d = Some li ∧ Some l ∈ li) ↔
       l ∈ [0; 1; 2]%nat ∧
       DependencyDepth vendor 3 (heap example_state) (Some l) = Ok d) ∧
    (∀ d li, pkgsByDependencyDepth st' !! d = Some li →
       ∀ k, 0 ≤ k ≤ d → is_Some (pkgsByDependencyDepth st' !! k)).
Proof.
  split; [exact example_heap_closed|]. split; [exact example_heap_acyclic|].
  eexists. split; [by vm_compute|].
  apply (buckets_contiguous vendor 3 example_state [0; 1; 2]%nat);
    [exact example_heap_closed|exact example_heap_acyclic|by vm_compute
    |simpl; lia|reflexivity| |by vm_compute].
  intros l. rewrite !elem_of_cons, elem_of_nil. simpl. lia.
Defined.

(** *** X13 *)

Lemma NewPackage_registry_wf_witness :
  registry_wf lone_state ∧
  ∃ st' pkg,
    NewPackage root lone_state "/go/src/os" = Ok (st', pkg, None) ∧
    let st := lone_state in
    let err : option string := None in
    registry_wf st' ∧
    (∀ k l, pkgsByLocation st !! k = Some l → pkgsByLocation st' !! k = Some l) ∧
    (∀ l lk, heap st !! l = Some lk → heap st' !! l = Some lk) ∧
    (err = None →
       pkgsByLocation st' !! "/go/src/os" = pkg ∧
       ∃ l new, pkg = Some l ∧ heap st !! l = None ∧ heap st' !! l = Some new ∧
         Learned new = false ∧ Dependencies new = [] ∧ Dependants new = []).
Proof.
  split; [exact lone_state_registry_wf|].
  eexists _, _. split; [by vm_compute|].
  apply (NewPackage_registry_wf root lone_state "/go/src/os");
    [exact lone_state_registry_wf|by vm_compute].
Defined.

(** *** X14 *)

Lemma pkgFromImportPath_after_NewPackage_witness :
  ∃ st' pkg,
    NewPackage root lone_state "/go/src/os" = Ok (st', pkg, None) ∧
    let st := lone_state in
    let importPath := "os" in
    pkgFromImportPath root st importPath
      = pkgsByLocation st !! import_identity root importPath ∧
    (import_identity root importPath = "/go/src/os" →
       pkgFromImportPath root st' importPath = pkg ∧ pkg ≠ None) ∧
    (import_identity root importPath ≠ "/go/src/os" →
       pkgFromImportPath root st' importPath
         = pkgFromImportPath root st importPath) ∧
    (∀ l, pkgFromImportPath root st importPath = Some l →
       pkgFromImportPath root st' importPath = Some l).
Proof.
  eexists _, _. split; [by vm_compute|].
  apply (pkgFromImportPath_after_NewPackage root lone_state "/go/src/os").
  by vm_compute.
Defined.

(** *** X15 *)

Lemma Imported_direct_witness :
  closed_list example_heap (Dependants cpu_pkg) ∧
  Some 2%nat ∈ Dependants cpu_pkg ∧ Internal fmt_pkg = false ∧
  Imported 1 example_heap (Some 1%nat) = Ok true.
Proof.
  assert (closed_list example_heap (Dependants cpu_pkg)) as Hclosed
    by (by apply closed_listb_sound).
  assert (Some 2%nat ∈ Dependants cpu_pkg) as Hin by (by left).
  split; [exact Hclosed|]. split; [exact Hin|]. split; [reflexivity|].
  exact (Imported_direct example_heap 1 cpu_pkg 2 fmt_pkg 0
           eq_refl Hclosed Hin eq_refl eq_refl).
Defined.

(** *** X16 *)

Lemma normalize_dependants_keeps_Imported_witness :
  closed cpu_imported_twice ∧ acyclic (dependant_edge cpu_imported_twice) ∧
  normalize_dependants vendor cpu_imported_twice [0; 1; 2]%nat
    = Ok example_heap ∧
  (∀ l lk, cpu_imported_twice !! l = Some lk →
     ∃ lk', example_heap !! l = Some lk' ∧
            Dependencies lk' = Dependencies lk ∧
            ∀ x, x ∈ Dependants lk' ↔ x ∈ Dependants lk) ∧
  Imported 3 example_heap (Some 0%nat)
    = Imported 3 cpu_imported_twice (Some 0%nat).
Proof.
  split; [exact cpu_imported_twice_closed|].
  split; [exact cpu_imported_twice_acyclic|].
  split; [by vm_compute|].
  apply (normalize_dependants_keeps_Imported vendor cpu_imported_twice
           [0; 1; 2]%nat example_heap 0 3);
    [exact cpu_imported_twice_closed|exact cpu_imported_twice_acyclic
    |by vm_compute|simpl; lia|simpl; lia].
Defined.

(** *** X18 *)

Lemma readConfig_reports_witness :
  Z.of_nat (length config_blank_line) ≤ int_max ∧
  readConfig config_blank_line = ConfigParseError 2 ∧
  match readConfig config_blank_line with
  | ConfigOk _ _ => Forall config_line config_blank_line
  | ConfigParseError n =>
      ∃ i text, config_blank_line !! i = Some text ∧
        count_byte colon text ≠ 1%nat ∧ n = Z.of_nat i + 1 ∧
        Forall config_line (take i config_blank_line)
  | ConfigInvalidKey configKey =>
      ∃ i text, config_blank_line !! i = Some text ∧
        count_byte colon text = 1%nat ∧
        configKey = config_key text ∧
        configKey ≠ "standardLibraryPath" ∧ configKey ≠ "vendorRelPath" ∧
        Forall config_line (take i config_blank_line)
  end.
Proof.
  split; [by vm_compute|]. split; [by vm_compute|].
  apply (readConfig_reports config_blank_line). by vm_compute.
Defined.

(** *** X19 *)

Lemma readConfig_last_line_witness :
  readConfig config_both = ConfigOk "/usr/go" "vendor" ∧
  (TrimSpace "standardLibraryPath" = "standardLibraryPath" →
     readConfig (config_both ++ ["standardLibraryPath" +:+ String colon " /go/src"])
       = ConfigOk (TrimSpace " /go/src") "vendor") ∧
  (TrimSpace "standardLibraryPath" = "vendorRelPath" →
     readConfig (config_both ++ ["standardLibraryPath" +:+ String colon " /go/src"])
       = ConfigOk "/usr/go" (TrimSpace " /go/src")).
Proof.
  split; [by vm_compute|].
  apply (readConfig_last_line config_both "standardLibraryPath" " /go/src"
           "/usr/go" "vendor"); by vm_compute.
Defined.
